(** * A Memory Library: regions, buffers, tokenizers and the base64 codec

    A shallow embedding of the C sources of a-memory-library
    (aml_pool.c, impl/aml_buffer.h) together with proofs of the properties
    its specification states.

    Conventions.
    - A byte ([char], [unsigned char]) is a [Z] in [0, 256).
    - A C array is a [list Z] whose length is the size of the allocation;
      a store goes through [store], which fails outside the allocation.
    - A C string is read from an array with [cstring]: the bytes before the
      first NUL.
    - [size_t] is 64 bits wide; arithmetic on [size_t] fields is written with
      [sz], the reduction modulo 2^64.  Indices into in-memory arrays are
      [nat]: they are bounded by the length of the list they index.
    - Freshly allocated memory is not initialised: it is filled with the
      byte [junk], a parameter of every function that allocates.
    - Undefined behaviour (a store outside an allocation, the release of a
      pointer that was not allocated) and [abort()] are the result [None].
    - The target is little-endian. *)

From Stdlib Require Import String Ascii.
From Stdlib Require Import ZArith List Lia Bool Arith Zbitwise ZifyNat.
Import ListNotations.
Open Scope Z_scope.

(** ** Bytes, arrays and C strings *)

Definition is_byte (b : Z) : Prop := 0 <= b < 256.

Definition is_byteb (b : Z) : bool := (0 <=? b) && (b <? 256).

(** [size_t] arithmetic: reduction modulo 2^64. *)
Definition sz (x : Z) : Z := x mod 2 ^ 64.

(** [uint32_t] arithmetic: reduction modulo 2^32. *)
Definition u32 (x : Z) : Z := x mod 2 ^ 32.

(** [a[i] = v] without the bounds check (no effect outside the array). *)
Fixpoint upd (a : list Z) (i : nat) (v : Z) : list Z :=
  match a, i with
  | [], _ => []
  | _ :: t, O => v :: t
  | x :: t, S i' => x :: upd t i' v
  end.

(** [a[i] = v]: [None] when [i] is outside the allocation. *)
Definition store (a : list Z) (i : nat) (v : Z) : option (list Z) :=
  if (i <? length a)%nat then Some (upd a i v) else None.

(** [a[i]], reading 0 outside (never relied upon). *)
Definition load (a : list Z) (i : nat) : Z := nth i a 0.

(** The bytes of the C string that starts at the head of [a]. *)
Fixpoint cstring (a : list Z) : list Z :=
  match a with
  | [] => []
  | c :: t => if c =? 0 then [] else c :: cstring t
  end.

(** [strlen]. *)
Definition strlen (a : list Z) : nat := length (cstring a).

(** A string literal as bytes (without its terminator). *)
Definition bytes_of_string (s : string) : list Z :=
  map (fun c => Z.of_nat (nat_of_ascii c)) (list_ascii_of_string s).

(** ** Base64 codec (aml_pool.c) *)

Module Base64.

(** [static const char b64_table[65]]. *)
Definition b64_table : list Z :=
  bytes_of_string
    "ABCDEFGHIJKLMNOPQRSTUVWXYZabcdefghijklmnopqrstuvwxyz0123456789+/"%string.

(** [static const unsigned char b64_dec_table[256]], row by row. *)
Definition b64_dec_table : list Z :=
  (*   0- 15 *) [255;255;255;255;255;255;255;255; 255;255;255;255;255;255;255;255] ++
  (*  16- 31 *) [255;255;255;255;255;255;255;255; 255;255;255;255;255;255;255;255] ++
  (*  32- 47 *) [255;255;255;255;255;255;255;255; 255;255;255; 62;255;255;255; 63] ++
  (*  48- 63 *) [ 52; 53; 54; 55; 56; 57; 58; 59;  60; 61;255;255;255;255;255;255] ++
  (*  64- 79 *) [255;  0;  1;  2;  3;  4;  5;  6;   7;  8;  9; 10; 11; 12; 13; 14] ++
  (*  80- 95 *) [ 15; 16; 17; 18; 19; 20; 21; 22;  23; 24; 25;255;255;255;255;255] ++
  (*  96-111 *) [255; 26; 27; 28; 29; 30; 31; 32;  33; 34; 35; 36; 37; 38; 39; 40] ++
  (* 112-127 *) [ 41; 42; 43; 44; 45; 46; 47; 48;  49; 50; 51;255;255;255;255;255] ++
  (* 128-255 *) repeat 255 128.

(** The padding character ['=']. *)
Definition PAD : Z := 61.

Section Codec.

(** Content of uninitialised pool memory. *)
Variable junk : Z.

(** [aml_pool_alloc(pool, n)] as seen by the codec: [n] fresh bytes. *)
Definition pool_bytes (n : nat) : list Z := repeat junk n.

(** The four stores of one iteration of the encoding loop:
    [encoded[j++] = b64_table[(triple >> 18) & 0x3F]] and so on. *)
Definition encode_quad (encoded : list Z) (j : nat) (triple : Z)
  : option (list Z) :=
  match store encoded j (load b64_table (Z.to_nat (Z.land (Z.shiftr triple 18) 63))) with
  | None => None
  | Some e1 =>
  match store e1 (j + 1) (load b64_table (Z.to_nat (Z.land (Z.shiftr triple 12) 63))) with
  | None => None
  | Some e2 =>
  match store e2 (j + 2) (load b64_table (Z.to_nat (Z.land (Z.shiftr triple 6) 63))) with
  | None => None
  | Some e3 =>
    store e3 (j + 3) (load b64_table (Z.to_nat (Z.land triple 63)))
  end end end.

(** [uint32_t triple = (octet_a << 16) | (octet_b << 8) | octet_c]. *)
Definition triple_of (a b c : Z) : Z :=
  u32 (Z.lor (Z.lor (u32 (Z.shiftl a 16)) (u32 (Z.shiftl b 8))) c).

(** [while (i < data_len)]: the list is [data + i], the remaining input;
    a missing octet reads as 0. *)
Fixpoint encode_loop (data : list Z) (j : nat) (encoded : list Z)
  : option (list Z) :=
  match data with
  | [] => Some encoded
  | [a] => encode_quad encoded j (triple_of a 0 0)
  | [a; b] => encode_quad encoded j (triple_of a b 0)
  | a :: b :: c :: rest =>
      match encode_quad encoded j (triple_of a b c) with
      | None => None
      | Some e => encode_loop rest (j + 4) e
      end
  end.

(** The padding step that ends the encoder: [int mod = data_len % 3] and
    the stores of ['='] at [encoded_len - 1] and [encoded_len - 2]. *)
Definition encode_pad (encoded : list Z) (data_len encoded_len : nat)
  : option (list Z) :=
  let mod_ := (data_len mod 3)%nat in
  if (0 <? mod_)%nat then
    match store encoded (encoded_len - 1) PAD with
    | None => None
    | Some encoded =>
        if (mod_ =? 1)%nat then store encoded (encoded_len - 2) PAD
        else Some encoded
    end
  else Some encoded.

(** [aml_pool_base64_encode(pool, data, data_len)] for a non-null [data]:
    the array it returns, [None] if a store left the allocation. *)
Definition aml_pool_base64_encode (data : list Z) : option (list Z) :=
  let data_len := length data in
  if (data_len =? 0)%nat then
    store (pool_bytes 1) 0 0
  else
    let encoded_len := (4 * ((data_len + 2) / 3))%nat in
    match store (pool_bytes (encoded_len + 1)) encoded_len 0 with
    | None => None
    | Some encoded =>
      match encode_loop data 0 encoded with
      | None => None
      | Some encoded => encode_pad encoded data_len encoded_len
      end
    end.

(** Outcome of the chunk loop of the decoder. *)
Inductive loop_result : Type :=
| LInvalid                                (* a byte outside the alphabet *)
| LOverrun                                (* a store outside [decoded] *)
| LDone (j : nat) (decoded : list Z).

(** The inner loop [for (k = 0; k < 4 && i < in_len; k++)]; [n] is [4 - k]
    and the list is [b64 + i].  [None] is the early [return NULL]. *)
Fixpoint decode_quad (n : nat) (shift : Z) (val : Z) (s : list Z)
  : option (Z * list Z) :=
  match n with
  | O => Some (val, s)
  | S n' =>
      match s with
      | [] => Some (val, s)
      | c :: rest =>
          if c =? PAD then
            decode_quad n' (shift - 6) (u32 (Z.lor val (u32 (Z.shiftl 0 shift)))) rest
          else
            let d := load b64_dec_table (Z.to_nat c) in
            if d =? 255 then None
            else decode_quad n' (shift - 6) (u32 (Z.lor val (u32 (Z.shiftl d shift)))) rest
      end
  end.

(** The three stores that end an iteration of the outer loop. *)
Definition decode_out (decoded : list Z) (j : nat) (val : Z)
  : option (list Z) :=
  match store decoded j (Z.land (Z.shiftr val 16) 255) with
  | None => None
  | Some d1 =>
  match store d1 (j + 1) (Z.land (Z.shiftr val 8) 255) with
  | None => None
  | Some d2 => store d2 (j + 2) (Z.land val 255)
  end end.

(** [while (i < in_len)]: every iteration consumes at least one byte, so
    [in_len] iterations are enough; [fuel] counts them down. *)
Fixpoint decode_loop (fuel : nat) (s : list Z) (j : nat) (decoded : list Z)
  : loop_result :=
  match s with
  | [] => LDone j decoded
  | _ :: _ =>
      match fuel with
      | O => LDone j decoded
      | S fuel' =>
          match decode_quad 4 18 0 s with
          | None => LInvalid
          | Some (val, rest) =>
              match decode_out decoded j val with
              | None => LOverrun
              | Some decoded' => decode_loop fuel' rest (j + 3) decoded'
              end
          end
      end
  end.

(** [size_t pad = 0; if (in_len >= 1 && b64[in_len - 1] == '=') pad++;
    if (in_len >= 2 && b64[in_len - 2] == '=') pad++;] *)
Definition count_pad (b64 : list Z) (in_len : nat) : nat :=
  let pad1 :=
    if (1 <=? in_len)%nat && (load b64 (in_len - 1) =? PAD) then 1%nat
    else 0%nat in
  let pad2 :=
    if (2 <=? in_len)%nat && (load b64 (in_len - 2) =? PAD) then 1%nat
    else 0%nat in
  (pad1 + pad2)%nat.

(** What the decoder hands back. *)
Inductive decode_result : Type :=
| DecNull                                  (* [NULL], [*out_len = 0] *)
| DecOverrun                               (* wrote past the allocation *)
| DecOk (decoded : list Z) (out_len : nat).

(** [aml_pool_base64_decode(pool, out_len, b64)] for a non-null [b64]. *)
Definition aml_pool_base64_decode (b64 : list Z) : decode_result :=
  let str := cstring b64 in
  let in_len := length str in
  if (in_len =? 0)%nat then
    match store (pool_bytes 1) 0 0 with
    | None => DecOverrun
    | Some empty => DecOk empty 0
    end
  else
    let pad := count_pad str in_len in
    let decoded_max_len := (3 * (in_len / 4))%nat in
    let decoded := pool_bytes (decoded_max_len + 1) in
    match decode_loop in_len str 0 decoded with
    | LInvalid => DecNull
    | LOverrun => DecOverrun
    | LDone j decoded =>
        let decoded_len := (j - pad)%nat in
        if (decoded_len <? decoded_max_len + 1)%nat then
          DecOk (upd decoded decoded_len 0) decoded_len
        else DecOk decoded decoded_len
    end.

End Codec.

(** *** Reference functions for the codec

    What the encoder and the decoder compute, written as recursions on the
    data; the theorems relate the array programs above to them. *)

(** The four characters of a 24-bit group. *)
Definition quad_chars (triple : Z) : list Z :=
  [ load b64_table (Z.to_nat (Z.land (Z.shiftr triple 18) 63));
    load b64_table (Z.to_nat (Z.land (Z.shiftr triple 12) 63));
    load b64_table (Z.to_nat (Z.land (Z.shiftr triple 6) 63));
    load b64_table (Z.to_nat (Z.land triple 63)) ].

(** The characters stored by the encoding loop, before padding. *)
Fixpoint enc_raw (data : list Z) : list Z :=
  match data with
  | [] => []
  | [a] => quad_chars (triple_of a 0 0)
  | [a; b] => quad_chars (triple_of a b 0)
  | a :: b :: c :: rest => quad_chars (triple_of a b c) ++ enc_raw rest
  end.

(** The encoded text: the last group of a short input ends in ['=']. *)
Fixpoint enc_text (data : list Z) : list Z :=
  match data with
  | [] => []
  | [a] => firstn 2 (quad_chars (triple_of a 0 0)) ++ [PAD; PAD]
  | [a; b] => firstn 3 (quad_chars (triple_of a b 0)) ++ [PAD]
  | a :: b :: c :: rest => quad_chars (triple_of a b c) ++ enc_text rest
  end.

(** The bytes stored by the decoding loop on [enc_text data]: the data,
    filled with zero bytes up to a multiple of three. *)
Fixpoint dec_raw (data : list Z) : list Z :=
  match data with
  | [] => []
  | [a] => [a; 0; 0]
  | [a; b] => [a; b; 0]
  | a :: b :: c :: rest => a :: b :: c :: dec_raw rest
  end.

(** The base64 alphabet: [A-Z], [a-z], [0-9], ['+'] and ['/']. *)
Definition in_alphabet (c : Z) : bool :=
  ((65 <=? c) && (c <=? 90)) || ((97 <=? c) && (c <=? 122)) ||
  ((48 <=? c) && (c <=? 57)) || (c =? 43) || (c =? 47).

(** A byte the decoder accepts, as the decoder tests it: the padding, or
    an entry of the decoding table other than [0xFF]. *)
Definition valid_char (c : Z) : bool :=
  (c =? PAD) || negb (load b64_dec_table (Z.to_nat c) =? 255).

(** The number of ['='] that end the text, two at most. *)
Definition trailing_pad (s : list Z) : nat :=
  match rev s with
  | c1 :: c2 :: _ =>
      if c1 =? PAD then (if c2 =? PAD then 2%nat else 1%nat) else 0%nat
  | [c1] => if c1 =? PAD then 1%nat else 0%nat
  | [] => 0%nat
  end.

(** Every ['='] of the text belongs to its end: a ['='] in the position
    before the last is followed by a ['=']. *)
Definition pad_is_suffix (s : list Z) : bool :=
  match rev s with
  | c1 :: c2 :: _ => if c2 =? PAD then c1 =? PAD else true
  | _ => true
  end.

(** The entry of [b64_table] at [n] is a non-zero byte other than [PAD]
    that [b64_dec_table] sends back to [n]. *)
Definition sextet_ok (n : nat) : bool :=
  let c := load b64_table n in
  negb (c =? 0) && negb (c =? PAD) && is_byteb c &&
  (load b64_dec_table (Z.to_nat c) =? Z.of_nat n).

(** The value the inner decoding loop accumulates from four sextets. *)
Definition val_of (s1 s2 s3 s4 : Z) : Z :=
  u32 (Z.lor (u32 (Z.lor (u32 (Z.lor (u32 (Z.lor 0
    (u32 (Z.shiftl s1 18))))
    (u32 (Z.shiftl s2 (18 - 6)))))
    (u32 (Z.shiftl s3 (18 - 6 - 6)))))
    (u32 (Z.shiftl s4 (18 - 6 - 6 - 6)))).

(** A character and the sextet the inner loop reads from it. *)
Definition reads (c s : Z) : Prop :=
  (c = PAD /\ s = 0) \/ (0 <= s < 64 /\ c = load b64_table (Z.to_nat s)).

(** [b64_dec_table] is [0xFF] at [n] exactly outside the alphabet. *)
Definition alphabet_ok (n : nat) : bool :=
  Bool.eqb (load b64_dec_table n =? 255) (negb (in_alphabet (Z.of_nat n))).

(** The number of ['='] that end the encoding of [n] bytes. *)
Definition pad_count (n : nat) : nat := ((3 - n mod 3) mod 3)%nat.

End Base64.


(** ** Tokenizers (aml_pool.c) *)

Module Split.

(** Modelled from the spec: [aml_pool_strdup] (impl/aml_pool.h, not among
    the sources) reduces to an allocation plus a copy; it returns a fresh
    array holding the string and its terminator. *)
Definition aml_pool_strdup (p : list Z) : list Z := cstring p ++ [0].

(** The C string that starts at offset [off] of [buf]. *)
Definition token_at (buf : list Z) (off : nat) : list Z :=
  cstring (skipn off buf).

(** What a splitter returns: the pointer array (a pointer is an offset into
    the rewritten copy, [None] is [NULL]), the copy, and [*num_splits]. *)
Record split_result : Type := {
  sr_array : list (option nat);
  sr_buf : list Z;
  sr_num : nat
}.

(** The strings the entries of the array point to, up to the first [NULL]. *)
Fixpoint tokens_of (buf : list Z) (r : list (option nat)) : list (list Z) :=
  match r with
  | Some off :: r' => token_at buf off :: tokens_of buf r'
  | _ => []
  end.

(** The returned value when the input is [NULL]: [&nil] and 0. *)
Definition split_nil : split_result :=
  {| sr_array := [None]; sr_buf := []; sr_num := 0 |}.

(** First loop of [_aml_pool_split]:
    [while ( *p != 0) { if ( *p == delim) num++; p++; }]. *)
Fixpoint count_splits (delim : Z) (p : list Z) (num : nat) : nat :=
  match p with
  | [] => num
  | c :: p' =>
      if c =? 0 then num
      else count_splits delim p' (if c =? delim then S num else num)
  end.

(** Second loop of [_aml_pool_split]: [s] is the text from offset [pos];
    returns the rewritten text and the pointers stored through [wr]. *)
Fixpoint split_loop (delim : Z) (s : list Z) (pos : nat)
  : list Z * list (option nat) :=
  match s with
  | [] => ([], [])
  | c :: s' =>
      if c =? 0 then (s, [])
      else
        let '(s'', wr) := split_loop delim s' (S pos) in
        if c =? delim then (0 :: s'', Some (S pos) :: wr)
        else (c :: s'', wr)
  end.

(** [_aml_pool_split(h, num_splits, delim, s)]. *)
Definition _aml_pool_split (delim : Z) (s : option (list Z)) : split_result :=
  match s with
  | None => split_nil
  | Some s =>
      let num := count_splits delim s 1 in
      let '(s', wr) := split_loop delim s 0 in
      {| sr_array := Some 0%nat :: wr ++ [None]; sr_buf := s'; sr_num := num |}
  end.

(** [aml_pool_split(h, num_splits, delim, p)]. *)
Definition aml_pool_split (delim : Z) (p : option (list Z)) : split_result :=
  _aml_pool_split delim (option_map aml_pool_strdup p).

(** First pass of [_aml_pool_split_with_escape]: counts the delimiters
    that are not escaped. *)
Fixpoint count_escaped (delim escape : Z) (s : list Z) (escape_next : bool)
  (count : nat) : nat :=
  match s with
  | [] => count
  | c :: s' =>
      if c =? 0 then count
      else if escape_next then count_escaped delim escape s' false count
      else if c =? escape then count_escaped delim escape s' true count
      else if c =? delim then count_escaped delim escape s' false (S count)
      else count_escaped delim escape s' false count
  end.

(** State of the second pass: the copy being rewritten in place, the write
    offset [current], and the pointers stored so far in [result]. *)
Record escape_state : Type := {
  es_buf : list Z;
  es_current : nat;
  es_result : list (option nat)
}.

(** Second pass of [_aml_pool_split_with_escape]: [c] is the read offset;
    [fuel] bounds the iterations by the size of the copy.  [None] when a
    store leaves the copy or the pointer array of [slots] entries. *)
Fixpoint escape_loop (fuel : nat) (delim escape : Z) (slots : nat)
  (st : escape_state) (c : nat) (escape_next : bool) : option escape_state :=
  match fuel with
  | O => None
  | S fuel' =>
      let ch := load (es_buf st) c in
      if ch =? 0 then Some st
      else if escape_next then
        match store (es_buf st) (es_current st) ch with
        | None => None
        | Some b =>
            escape_loop fuel' delim escape slots
              {| es_buf := b; es_current := S (es_current st);
                 es_result := es_result st |} (S c) false
        end
      else if ch =? escape then
        escape_loop fuel' delim escape slots st (S c) true
      else if ch =? delim then
        match store (es_buf st) (es_current st) 0 with
        | None => None
        | Some b =>
            if (length (es_result st) <? slots)%nat then
              escape_loop fuel' delim escape slots
                {| es_buf := b; es_current := S (es_current st);
                   es_result := es_result st ++ [Some (S (es_current st))] |}
                (S c) false
            else None
        end
      else
        match store (es_buf st) (es_current st) ch with
        | None => None
        | Some b =>
            escape_loop fuel' delim escape slots
              {| es_buf := b; es_current := S (es_current st);
                 es_result := es_result st |} (S c) false
        end
  end.

(** [_aml_pool_split_with_escape(h, num_splits, delim, escape, p)]. *)
Definition _aml_pool_split_with_escape (delim escape : Z)
  (p : option (list Z)) : option split_result :=
  match p with
  | None => Some split_nil
  | Some p =>
      let s := aml_pool_strdup p in
      let count := count_escaped delim escape s false 1 in
      let slots := (count + 1)%nat in
      let st0 := {| es_buf := s; es_current := 0; es_result := [Some 0%nat] |} in
      match escape_loop (length s + 1) delim escape slots st0 0 false with
      | None => None
      | Some st =>
          match store (es_buf st) (es_current st) 0 with
          | None => None
          | Some b =>
              if (length (es_result st) <? slots)%nat then
                Some {| sr_array := es_result st ++ [None];
                        sr_buf := b;
                        sr_num := length (es_result st) |}
              else None
          end
      end
  end.

(** [aml_pool_split_with_escape(h, num_splits, delim, escape, p)]. *)
Definition aml_pool_split_with_escape (delim escape : Z)
  (p : option (list Z)) : option split_result :=
  _aml_pool_split_with_escape delim escape (option_map aml_pool_strdup p).

(** *** Reference functions for the plain splitter *)

(** The segments of [s] between occurrences of [d]. *)
Fixpoint segments (d : Z) (s : list Z) : list (list Z) :=
  match s with
  | [] => [[]]
  | c :: s' =>
      if c =? d then [] :: segments d s'
      else match segments d s' with
           | seg :: segs => (c :: seg) :: segs
           | [] => [[c]]
           end
  end.

(** Joining tokens with the delimiter. *)
Fixpoint join (d : Z) (toks : list (list Z)) : list Z :=
  match toks with
  | [] => []
  | [t] => t
  | t :: toks' => t ++ d :: join d toks'
  end.

(** The number of occurrences of [d] in [s]. *)
Definition occurrences (d : Z) (s : list Z) : nat := count_occ Z.eq_dec s d.

(** *** The splitters that drop empty tokens *)

(** [a[i] = v] on a pointer array; [None] outside the array. *)
Definition store_ptr (r : list (option nat)) (i : nat) (v : option nat)
  : option (list (option nat)) :=
  if (i <? length r)%nat then Some (firstn i r ++ v :: skipn (S i) r)
  else None.

(** [*p[0]]: the first character of the string entry [p] points to;
    [None] for a [NULL] entry and outside the text. *)
Definition first_char (buf : list Z) (res : list (option nat)) (p : nat)
  : option Z :=
  match nth_error res p with
  | Some (Some off) => nth_error buf off
  | _ => None
  end.

(** The loop of [_aml_pool_split2] and [_aml_pool_split_with_escape2]:
    [while (p < ep) { if ( *p[0] != 0) *wp++ = *p; p++; }], with [n] the
    distance from [p] to [ep].  Returns the array and [wp]. *)
Fixpoint compact_loop (buf : list Z) (res : list (option nat))
  (wp p n : nat) : option (list (option nat) * nat) :=
  match n with
  | O => Some (res, wp)
  | S n' =>
      match first_char buf res p with
      | None => None
      | Some ch =>
          if ch =? 0 then compact_loop buf res wp (S p) n'
          else
            match store_ptr res wp (nth p res None) with
            | None => None
            | Some res' => compact_loop buf res' (S wp) (S p) n'
            end
      end
  end.

(** What follows the call of the splitter in both functions:
    the loop, [*num_splits = wp - res] and [*wp++ = NULL].  ([num_splits]
    is written without a test: it has to be non-null.) *)
Definition drop_empty (r : split_result) : option split_result :=
  match compact_loop (sr_buf r) (sr_array r) 0 0 (sr_num r) with
  | None => None
  | Some (res, wp) =>
      match store_ptr res wp None with
      | None => None
      | Some res' =>
          Some {| sr_array := res'; sr_buf := sr_buf r; sr_num := wp |}
      end
  end.

(** [_aml_pool_split2(h, num_splits, delim, s)]. *)
Definition _aml_pool_split2 (delim : Z) (s : option (list Z))
  : option split_result :=
  drop_empty (_aml_pool_split delim s).

(** [aml_pool_split2(h, num_splits, delim, p)]. *)
Definition aml_pool_split2 (delim : Z) (p : option (list Z))
  : option split_result :=
  _aml_pool_split2 delim (option_map aml_pool_strdup p).

(** [_aml_pool_split_with_escape2(h, num_splits, delim, escape, s)]. *)
Definition _aml_pool_split_with_escape2 (delim escape : Z)
  (s : option (list Z)) : option split_result :=
  match _aml_pool_split_with_escape delim escape s with
  | None => None
  | Some r => drop_empty r
  end.

(** [aml_pool_split_with_escape2(h, num_splits, delim, escape, p)]. *)
Definition aml_pool_split_with_escape2 (delim escape : Z)
  (p : option (list Z)) : option split_result :=
  _aml_pool_split_with_escape2 delim escape (option_map aml_pool_strdup p).

(** The formatted variants: [aml_pool_strdupvf] leaves the formatted text
    with its terminator in the Region and the splitter works on it. *)
Definition aml_pool_splitf (delim : Z) (formatted : list Z) : split_result :=
  _aml_pool_split delim (Some (cstring formatted ++ [0])).

Definition aml_pool_split2f (delim : Z) (formatted : list Z)
  : option split_result :=
  _aml_pool_split2 delim (Some (cstring formatted ++ [0])).

Definition aml_pool_split_with_escapef (delim escape : Z)
  (formatted : list Z) : option split_result :=
  _aml_pool_split_with_escape delim escape
    (Some (cstring formatted ++ [0])).

Definition aml_pool_split_with_escape2f (delim escape : Z)
  (formatted : list Z) : option split_result :=
  aml_pool_split_with_escape2 delim escape
    (Some (cstring formatted ++ [0])).

(** *** Reference functions for the escape-aware splitter *)

(** Puts [c] in front of the first segment. *)
Definition cons_first (c : Z) (segs : list (list Z)) : list (list Z) :=
  match segs with
  | seg :: segs' => (c :: seg) :: segs'
  | [] => [[c]]
  end.

(** The segments of [s] between the delimiters that are not escaped; an
    escape character is dropped and the character after it is kept as it
    is.  [escape_next] tells that the previous character was an escape. *)
Fixpoint esc_segments (d e : Z) (s : list Z) (escape_next : bool)
  : list (list Z) :=
  match s with
  | [] => [[]]
  | c :: s' =>
      if escape_next then cons_first c (esc_segments d e s' false)
      else if c =? e then esc_segments d e s' true
      else if c =? d then [] :: esc_segments d e s' false
      else cons_first c (esc_segments d e s' false)
  end.

(** Where the tokens [segs] start when they are laid out from offset [pos]
    on, each followed by one terminator. *)
Fixpoint starts (pos : nat) (segs : list (list Z)) : list nat :=
  match segs with
  | [] => []
  | seg :: segs' => pos :: starts (pos + List.length seg + 1) segs'
  end.

(** The offsets whose token is not empty. *)
Definition kept (buf : list Z) (offs : list nat) : list nat :=
  filter (fun o => negb (nth o buf 0 =? 0)) offs.

(** A token with an escape in front of every delimiter and escape. *)
Definition escape_token (d e : Z) (t : list Z) : list Z :=
  flat_map (fun c => if (c =? d) || (c =? e) then [e; c] else [c]) t.

(** The tokens that are not empty. *)
Definition nonempty_tokens (toks : list (list Z)) : list (list Z) :=
  filter (fun t => match t with [] => false | _ => true end) toks.

End Split.

(** ** Copies of string arrays (aml_pool.c) *)

Module Strdup.

(** A [char **] argument: the entries of the array, each a pointer to a
    string (the array that holds it) or [NULL]. *)
Definition string_array : Type := list (option (list Z)).

(** The [n] bytes of a value, least significant first, and the value of
    such bytes: how a pointer lies in memory. *)
Fixpoint le_bytes (n : nat) (v : Z) : list Z :=
  match n with
  | O => []
  | S n' => v mod 256 :: le_bytes n' (v / 256)
  end.

Fixpoint le_value (bs : list Z) : Z :=
  match bs with
  | [] => 0
  | b :: bs' => b + 256 * le_value bs'
  end.

(** Stores [bs] from offset [off] on; [None] outside the allocation. *)
Fixpoint store_bytes (mem : list Z) (off : nat) (bs : list Z)
  : option (list Z) :=
  match bs with
  | [] => Some mem
  | b :: bs' =>
      match store mem off b with
      | None => None
      | Some mem' => store_bytes mem' (S off) bs'
      end
  end.

(** [*(char ** )(mem + off) = v] and [*(char ** )(mem + off)], with
    [sizeof(char * ) = 8]. *)
Definition store_word (mem : list Z) (off : nat) (v : Z) : option (list Z) :=
  store_bytes mem off (le_bytes 8 v).

Definition load_word (mem : list Z) (off : nat) : Z :=
  le_value (firstn 8 (skipn off mem)).

(** [while ( *s) *m++ = *s++; *m++ = 0;]: returns the memory and [m]. *)
Fixpoint copy_string (mem : list Z) (m : nat) (s : list Z)
  : option (list Z * nat) :=
  match s with
  | c :: s' =>
      if c =? 0 then
        match store mem m 0 with
        | None => None
        | Some mem' => Some (mem', S m)
        end
      else
        match store mem m c with
        | None => None
        | Some mem' => copy_string mem' (S m) s'
        end
  | [] =>
      match store mem m 0 with
      | None => None
      | Some mem' => Some (mem', S m)
      end
  end.

(** [count_bytes_in_array(a, &n)]: the loop [while ( *a)] from [len] on.
    [None] when the array has no [NULL] entry.  The function counts the
    entries in a local variable and never writes [*n]. *)
Fixpoint count_bytes_in_array (a : string_array) (len : Z) : option Z :=
  match a with
  | [] => None
  | None :: _ => Some len
  | Some s :: a' =>
      count_bytes_in_array a' (sz (len + sz (Z.of_nat (strlen s) + 8 + 1)))
  end.

(** [count_bytes_in_arrayn(a, num)]: the loop from [len] on.  [None] when
    one of the [num] entries is [NULL] ([strlen(NULL)]) or missing. *)
Fixpoint count_bytes_in_arrayn (a : string_array) (num : nat) (len : Z)
  {struct num} : option Z :=
  match num with
  | O => Some len
  | S num' =>
      match a with
      | Some s :: a' =>
          count_bytes_in_arrayn a' num' (sz (len + sz (Z.of_nat (strlen s) + 1)))
      | _ => None
      end
  end.

Section Copies.

(** Content of uninitialised pool memory, and the address
    [aml_pool_alloc] returns. *)
Variable junk : Z.
Variable base : Z.

(** The loop of [aml_pool_strdupa]:
    [while ( *a) { *rp++ = m; ...copy the string...; a++; }], with [rp]
    and [m] as offsets from [r].  Returns the memory and [rp]. *)
Fixpoint copy_until_null (mem : list Z) (rp m : nat) (a : string_array)
  : option (list Z * nat) :=
  match a with
  | [] => None
  | None :: _ => Some (mem, rp)
  | Some s :: a' =>
      match store_word mem rp (base + Z.of_nat m) with
      | None => None
      | Some mem1 =>
          match copy_string mem1 m s with
          | None => None
          | Some (mem2, m') => copy_until_null mem2 (rp + 8) m' a'
          end
      end
  end.

(** The loop of [aml_pool_strdupan]: [while (a < ae) { ... }], [n] being
    the distance from [a] to [ae]. *)
Fixpoint copy_entries (mem : list Z) (rp m : nat) (a : string_array)
  (n : nat) {struct n} : option (list Z * nat) :=
  match n with
  | O => Some (mem, rp)
  | S n' =>
      match a with
      | Some s :: a' =>
          match store_word mem rp (base + Z.of_nat m) with
          | None => None
          | Some mem1 =>
              match copy_string mem1 m s with
              | None => None
              | Some (mem2, m') => copy_entries mem2 (rp + 8) m' a' n'
              end
          end
      | _ => None
      end
  end.

(** What the functions return: [NULL], or the block at [r]. *)
Inductive strdup_result : Type :=
| RNull
| RBlock (r : Z) (mem : list Z).

(** [aml_pool_strdupa(pool, a)].  [n] is 0 when [m = (char * )(r + n)] is
    computed: the strings are written from the start of the block. *)
Definition aml_pool_strdupa (a : option string_array)
  : option strdup_result :=
  match a with
  | None => Some RNull
  | Some a =>
      let n := 0%nat in
      match count_bytes_in_array a 8 with
      | None => None
      | Some len =>
          let r := repeat junk (Z.to_nat len) in
          match copy_until_null r 0 (8 * n) a with
          | None => None
          | Some (mem, rp) =>
              match store_word mem rp 0 with
              | None => None
              | Some mem' => Some (RBlock base mem')
              end
          end
      end
  end.

(** [aml_pool_strdupan(pool, a, n)]. *)
Definition aml_pool_strdupan (a : option string_array) (n : nat)
  : option strdup_result :=
  match a with
  | None => Some RNull
  | Some a =>
      match count_bytes_in_arrayn a n (sz (8 * (Z.of_nat n + 1))) with
      | None => None
      | Some len =>
          let r := repeat junk (Z.to_nat len) in
          match copy_entries r 0 (8 * (n + 1)) a n with
          | None => None
          | Some (mem, rp) =>
              match store_word mem rp 0 with
              | None => None
              | Some mem' => Some (RBlock base mem')
              end
          end
      end
  end.

End Copies.

(** *** Reading a copied array *)

(** The string at address [p] of the block [mem] that starts at [base]. *)
Definition string_at (base : Z) (mem : list Z) (p : Z) : list Z :=
  cstring (skipn (Z.to_nat (p - base)) mem).

(** The first [n] entries of the pointer array at the start of [mem]. *)
Definition pointers (mem : list Z) (n : nat) : list Z :=
  map (fun i => load_word mem (8 * i)) (seq 0 n).

(** The bytes of the strings [ss], each with its terminator. *)
Definition str_bytes (ss : list (list Z)) : list Z :=
  concat (map (fun s => cstring s ++ [0]) ss).

(** The addresses of the strings [ss] laid out from offset [m] on. *)
Fixpoint str_addrs (base : Z) (m : nat) (ss : list (list Z)) : list Z :=
  match ss with
  | [] => []
  | s :: ss' => (base + Z.of_nat m) :: str_addrs base (m + strlen s + 1) ss'
  end.

End Strdup.


(** ** Regions (aml_pool.c) *)

Module Pool.

(** *** The system allocator

    [aml_malloc] and [aml_free] are [malloc] and [free] in a release build.
    The model hands out increasing 16-byte aligned addresses and keeps the
    log of the calls. *)

Inductive sys_event : Type :=
| Malloc (addr len : Z)
| Free (addr : Z).

Record sys : Type := {
  sys_next : Z;
  sys_log : list sys_event
}.

(** A computation on the system allocator that may abort ([None]). *)
Definition M (A : Type) : Type := sys -> option (A * sys).

Definition ret {A : Type} (a : A) : M A := fun s => Some (a, s).

Definition bind {A B : Type} (m : M A) (k : A -> M B) : M B :=
  fun s => match m s with
           | None => None
           | Some (a, s') => k a s'
           end.

Definition abort {A : Type} : M A := fun _ => None.

Notation "x <- m ;; k" := (bind m (fun x => k))
  (at level 61, m at next level, right associativity).
Notation "m ;;; k" := (bind m (fun _ => k))
  (at level 61, right associativity).

Definition aml_malloc (len : Z) : M Z :=
  fun s =>
    let addr := sys_next s in
    Some (addr,
          {| sys_next := addr + 16 * ((len + 15) / 16) + 16;
             sys_log := sys_log s ++ [Malloc addr len] |}).

Definition aml_free (addr : Z) : M unit :=
  fun s =>
    Some (tt, {| sys_next := sys_next s;
                 sys_log := sys_log s ++ [Free addr] |}).

(** The calls to the system release operation in a log. *)
Fixpoint frees (log : list sys_event) : list Z :=
  match log with
  | [] => []
  | Malloc _ _ :: log' => frees log'
  | Free addr :: log' => addr :: frees log'
  end.

(** Bytes obtained from the system allocator and not given back: the
    lengths of the allocations of [log] whose address was not released. *)
Definition live_bytes (log : list sys_event) : Z :=
  fold_right
    (fun e acc =>
       match e with
       | Malloc addr len =>
           if existsb (Z.eqb addr) (frees log) then acc else len + acc
       | Free _ => acc
       end) 0 log.

(** *** Layout

    [sizeof(aml_pool_t)] and [sizeof(aml_pool_node_t)] depend on the build
    (the debug build adds fields); the declarations are in impl/aml_pool.h,
    which is not among the sources, so they are parameters. *)
Class Layout : Type := {
  sizeof_aml_pool_t : Z;
  sizeof_aml_pool_node_t : Z
}.

(** The release build on a 64-bit target: six and two words (the structure
    is printed in README.aml_pool.md). *)
Definition release64 : Layout :=
  {| sizeof_aml_pool_t := 48; sizeof_aml_pool_node_t := 16 |}.

(** [struct aml_pool_node_s]: [node_addr] is the address of the node, [endp]
    its field; [prev] is the next node of the chain the region holds. *)
Record aml_pool_node_t : Type := {
  node_addr : Z;
  endp : Z
}.

(** [struct aml_pool_s].  [current] with [older] is the chain
    [h->current, h->current->prev, ...]; [self] is the address [h].  A
    sub-region carries the state of its parent in [pool]: an operation on the
    sub-region returns the parent's new state there. *)
#[warnings="-register-all"]
Inductive aml_pool_t : Type := mk_pool {
  self : Z;
  current : aml_pool_node_t;
  older : list aml_pool_node_t;
  curp : Z;
  minimum_growth_size : Z;
  size : Z;
  used : Z;
  pool : option aml_pool_t
}.

Section Region.

Context {L : Layout}.

Definition headers : Z := sizeof_aml_pool_t + sizeof_aml_pool_node_t.

(** [size_t aml_pool_size(aml_pool_t *h)]. *)
Definition aml_pool_size (h : aml_pool_t) : Z :=
  sz (size h + (endp (current h) - curp h)).

(** [size_t aml_pool_used(aml_pool_t *h)]. *)
Definition aml_pool_used (h : aml_pool_t) : Z := used h.

(** [aml_pool_set_minimum_growth_size]. *)
Definition aml_pool_set_minimum_growth_size (h : aml_pool_t) (size_ : Z)
  : M aml_pool_t :=
  if size_ =? 0 then abort
  else ret (mk_pool (self h) (current h) (older h) (curp h) size_
                    (size h) (used h) (pool h)).

(** [initial_size += ((sizeof(size_t) - (initial_size & (sizeof(size_t) - 1)))
                      & (sizeof(size_t) - 1))]. *)
Definition round_initial (initial_size : Z) : Z :=
  sz (initial_size + Z.land (sz (8 - Z.land initial_size 7)) 7).

(** [_aml_pool_init(initial_size)], release build.  The [memset] of the two
    headers needs that many bytes in the allocation. *)
Definition _aml_pool_init (initial_size : Z) : M aml_pool_t :=
  if initial_size =? 0 then abort
  else
    let initial_size := round_initial initial_size in
    let block_size := initial_size in
    let block_size :=
      if Z.land block_size 4096 =? 0 then sz (block_size - headers)
      else block_size in
    h <- aml_malloc (sz (block_size + headers)) ;;
    if sz (block_size + headers) <? headers then abort
    else
      let cur := h + sizeof_aml_pool_t in
      let p := cur + sizeof_aml_pool_node_t in
      aml_pool_set_minimum_growth_size
        (mk_pool h {| node_addr := cur; endp := p + block_size |} []
                 p 0 0 (sz (initial_size + headers)) None)
        initial_size.

(** The cursor rounded up to a multiple of [sizeof(size_t)]. *)
Definition align_word (p : Z) : Z := p + Z.land (sz (8 - Z.land p 7)) 7.

(** Modelled from the spec: [aml_pool_alloc] (impl/aml_pool.h, not among
    the sources) is the word-aligned allocation: if [len] fits before the
    end of the current block, bump the cursor and return; otherwise grow and
    allocate from the new block.  [grow] is [_aml_pool_alloc_grow]. *)
Definition alloc_with (grow : aml_pool_t -> Z -> M (Z * aml_pool_t))
  (h : aml_pool_t) (len : Z) : M (Z * aml_pool_t) :=
  let r := align_word (curp h) in
  if r + len <=? endp (current h) then
    ret (r, mk_pool (self h) (current h) (older h) (r + len)
                    (minimum_growth_size h) (size h) (used h) (pool h))
  else grow h len.

(** Modelled from the spec: [aml_pool_ualloc] is identical but skips the
    alignment padding. *)
Definition ualloc_with (grow : aml_pool_t -> Z -> M (Z * aml_pool_t))
  (h : aml_pool_t) (len : Z) : M (Z * aml_pool_t) :=
  let r := curp h in
  if r + len <=? endp (current h) then
    ret (r, mk_pool (self h) (current h) (older h) (r + len)
                    (minimum_growth_size h) (size h) (used h) (pool h))
  else grow h len.

(** [void *_aml_pool_alloc_grow(aml_pool_t *h, size_t len)].  The new block
    comes from the system allocator, or from the parent for a sub-region. *)
Fixpoint _aml_pool_alloc_grow (h : aml_pool_t) (len : Z) {struct h}
  : M (Z * aml_pool_t) :=
  let block_size := len in
  let block_size :=
    if block_size <? minimum_growth_size h then minimum_growth_size h
    else block_size in
  bp <- match pool h with
        | None =>
            b <- aml_malloc (sz (sizeof_aml_pool_node_t + block_size)) ;;
            ret (b, None)
        | Some parent =>
            bp <- alloc_with _aml_pool_alloc_grow parent
                    (sz (sizeof_aml_pool_node_t + block_size)) ;;
            ret (fst bp, Some (snd bp))
        end ;;
  let block := fst bp in
  let size' :=
    match older h with
    | [] => size h
    | _ :: _ => sz (size h + (endp (current h) - curp h))
    end in
  let used' := sz (used h + sz (sizeof_aml_pool_node_t + block_size)) in
  let r := block + sizeof_aml_pool_node_t in
  ret (r, mk_pool (self h)
                  {| node_addr := block; endp := r + block_size |}
                  (current h :: older h)
                  (r + len) (minimum_growth_size h) size' used' (snd bp)).

(** Modelled from the spec: [aml_pool_alloc] (impl/aml_pool.h), the
    word-aligned allocation that grows through [_aml_pool_alloc_grow]. *)
Definition aml_pool_alloc : aml_pool_t -> Z -> M (Z * aml_pool_t) :=
  alloc_with _aml_pool_alloc_grow.

(** Modelled from the spec: [aml_pool_ualloc] (impl/aml_pool.h), the same
    without the alignment padding. *)
Definition aml_pool_ualloc : aml_pool_t -> Z -> M (Z * aml_pool_t) :=
  ualloc_with _aml_pool_alloc_grow.


(** The loop of [aml_pool_clear]: walks [prev] to the first block,
    releasing each newer block unless the region is a sub-region. *)
Fixpoint clear_blocks (is_sub : bool) (cur : aml_pool_node_t)
  (prevs : list aml_pool_node_t) : M aml_pool_node_t :=
  match prevs with
  | [] => ret cur
  | prev :: prevs' =>
      (if is_sub then ret tt else aml_free (node_addr cur)) ;;;
      clear_blocks is_sub prev prevs'
  end.

Definition is_sub (h : aml_pool_t) : bool :=
  match pool h with Some _ => true | None => false end.

(** [void aml_pool_clear(aml_pool_t *h)]. *)
Definition aml_pool_clear (h : aml_pool_t) : M aml_pool_t :=
  first <- clear_blocks (is_sub h) (current h) (older h) ;;
  let p := node_addr first + sizeof_aml_pool_node_t in
  ret (mk_pool (self h) first [] p (minimum_growth_size h) 0
               (sz ((endp first - p) + headers)) (pool h)).

(** [void aml_pool_destroy(aml_pool_t *h)]: the region is gone; what is
    returned is what remains of it, the parent of a sub-region. *)
Definition aml_pool_destroy (h : aml_pool_t) : M (option aml_pool_t) :=
  h' <- aml_pool_clear h ;;
  match pool h' with
  | None => aml_free (self h') ;;; ret None
  | Some parent => ret (Some parent)
  end.

(** [void *aml_pool_aalloc(aml_pool_t *pool, size_t alignment, size_t size)],
    release build.  [pool->curp + padding + size] is pointer arithmetic: the
    sum is taken modulo 2^64, in the test and in the two updates of the
    cursor. *)
Definition aml_pool_aalloc (h : aml_pool_t) (alignment size_ : Z)
  : M (Z * aml_pool_t) :=
  let cur := curp h in
  let aligned :=
    Z.land (sz (cur + alignment - 1)) (sz (Z.lnot (sz (alignment - 1)))) in
  let padding := sz (aligned - cur) in
  if sz (curp h + padding + size_) <=? endp (current h) then
    let result := sz (curp h + padding) in
    ret (result,
         mk_pool (self h) (current h) (older h) (sz (result + size_))
                 (minimum_growth_size h) (size h)
                 (sz (used h + sz (padding + size_))) (pool h))
  else
    let total_size := sz (size_ + alignment - 1) in
    bh <- _aml_pool_alloc_grow h total_size ;;
    let block := fst bh in
    ret (Z.land (sz (block + alignment - 1))
                (sz (Z.lnot (sz (alignment - 1)))),
         snd bh).

(** [char *aml_pool_strdupvf(pool, fmt, args)], release build; [formatted]
    is the text [vsnprintf] produces. *)
Definition aml_pool_strdupvf (h : aml_pool_t) (formatted : list Z)
  : M (Z * aml_pool_t) :=
  let leftover := sz (endp (current h) - curp h) in
  let r := curp h in
  let n := Z.of_nat (length formatted) in
  if n <? leftover then
    ret (r, mk_pool (self h) (current h) (older h) (curp h + (n + 1))
                    (minimum_growth_size h) (size h) (used h) (pool h))
  else aml_pool_ualloc h (n + 1).

(** The bytes [vsnprintf(r, leftover, ...)] stores at the cursor in
    [aml_pool_strdupvf]: the text and its terminator, cut at [leftover]. *)
Definition strdupvf_stored (h : aml_pool_t) (formatted : list Z) : Z :=
  Z.min (Z.of_nat (length formatted) + 1) (sz (endp (current h) - curp h)).

(** The [len] bytes at [p] lie in the current block, after its header. *)
Definition in_payload (h : aml_pool_t) (p len : Z) : bool :=
  (len =? 0) ||
  ((node_addr (current h) + sizeof_aml_pool_node_t <=? p) &&
   (p + len <=? endp (current h))).

(** A call of the allocation family. *)
Inductive alloc_call : Type :=
| Alloc (len : Z)
| Ualloc (len : Z)
| Aalloc (alignment len : Z)
| Strdupvf (formatted : list Z).

(** The region after a call.  [aml_pool_alloc], [aml_pool_ualloc] and
    [aml_pool_aalloc] hand out an address and store nothing;
    [aml_pool_strdupvf] stores the text at the cursor.  When these bytes do
    not lie in the payload of the current block, the store overwrites the
    header of the block (its [endp] and [prev]) or memory that is not the
    region's: the chain in memory is then no longer the one the state
    records, and the run has no state ([None]). *)
Definition run_call (h : aml_pool_t) (c : alloc_call) : M aml_pool_t :=
  match c with
  | Alloc len => rh <- aml_pool_alloc h len ;; ret (snd rh)
  | Ualloc len => rh <- aml_pool_ualloc h len ;; ret (snd rh)
  | Aalloc alignment len => rh <- aml_pool_aalloc h alignment len ;; ret (snd rh)
  | Strdupvf formatted =>
      if in_payload h (curp h) (strdupvf_stored h formatted) then
        rh <- aml_pool_strdupvf h formatted ;; ret (snd rh)
      else abort
  end.

Fixpoint run_calls (h : aml_pool_t) (cs : list alloc_call) : M aml_pool_t :=
  match cs with
  | [] => ret h
  | c :: cs' => h' <- run_call h c ;; run_calls h' cs'
  end.

(** The states a run of calls goes through, after each call. *)
Fixpoint run_states (h : aml_pool_t) (cs : list alloc_call) (s : sys)
  : list aml_pool_t :=
  match cs with
  | [] => []
  | c :: cs' =>
      match run_call h c s with
      | Some (h', s') => h' :: run_states h' cs' s'
      | None => []
      end
  end.

(** The oldest block of the chain, allocated with the region. *)
Definition first_block (h : aml_pool_t) : aml_pool_node_t :=
  last (older h) (current h).

(** The fields an allocation leaves alone. *)
Definition same_region (h h' : aml_pool_t) : Prop :=
  self h' = self h /\
  first_block h' = first_block h /\
  minimum_growth_size h' = minimum_growth_size h /\
  is_sub h' = is_sub h.

(** The cursor of a region lies in its current block, after the header of
    the block. *)
Definition cursor_ok (h : aml_pool_t) : Prop :=
  node_addr (current h) + sizeof_aml_pool_node_t <= curp h /\
  curp h <= endp (current h).

(** A block that lies in the 64-bit address space. *)
Definition in_memory (b : aml_pool_node_t) : Prop :=
  0 <= node_addr b /\ endp b < 2 ^ 64.

(** The cursor of a region and of its ancestors lies in the current block,
    and the block in the address space: what holds of a region as long as
    no request runs over the end of the address space. *)
Fixpoint in_blocks (h : aml_pool_t) {struct h} : Prop :=
  cursor_ok h /\ in_memory (current h) /\
  match pool h with
  | Some parent => in_blocks parent
  | None => True
  end.

End Region.

(** A power of two that a [size_t] holds. *)
Definition is_pow2 (a : Z) : Prop := exists k, 0 <= k < 64 /\ a = 2 ^ k.

(** The addresses the system allocator handed out in a log. *)
Fixpoint mallocs (log : list sys_event) : list Z :=
  match log with
  | [] => []
  | Malloc addr _ :: log' => addr :: mallocs log'
  | Free _ :: log' => mallocs log'
  end.

(** The allocator before any call, for the examples. *)
Definition sys0 : sys := {| sys_next := 4096; sys_log := [] |}.

(** The region [aml_pool_init(1024)] creates from [sys0] on the release
    layout, and the allocator after the call. *)
Definition region_1024 : aml_pool_t :=
  {| self := 4096;
     current := {| node_addr := 4144; endp := 5120 |};
     older := [];
     curp := 4160;
     minimum_growth_size := 1024;
     size := 0;
     used := 1088;
     pool := None |}.

Definition sys_1024 : sys :=
  {| sys_next := 5136; sys_log := [Malloc 4096 1024] |}.



(** [region_1024] after [aml_pool_clear]. *)
Definition region_1024_cleared : aml_pool_t :=
  {| self := 4096;
     current := {| node_addr := 4144; endp := 5120 |};
     older := [];
     curp := 4160;
     minimum_growth_size := 1024;
     size := 0;
     used := 1024;
     pool := None |}.

(** The blocks a region that is not a sub-region drew since its creation:
    the log grew by their allocations only, oldest first, all of them at
    distinct addresses below the next one the allocator hands out. *)
Definition chain_inv (log0 : list sys_event) (h : aml_pool_t) (s : sys)
  : Prop :=
  pool h = None /\
  mallocs (sys_log s)
  = mallocs log0 ++ self h ::
      rev (map node_addr (removelast (current h :: older h))) /\
  frees (sys_log s) = frees log0 /\
  NoDup (self h :: rev (map node_addr (removelast (current h :: older h)))) /\
  Forall (fun a => a < sys_next s)
    (self h :: rev (map node_addr (removelast (current h :: older h)))).

End Pool.


(** ** Buffers (impl/aml_buffer.h) *)

Module Buffer.

(** What [h->data] points to: the placeholder inside the handle (the
    address of [h->size]), or an allocation with its bytes. *)
Inductive storage : Type :=
| Sentinel
| Block (bytes : list Z).

(** [struct aml_buffer_s], release build.  [pool] tells whether [h->pool]
    is non-null; the Region is seen through [aml_pool_alloc] only. *)
Record aml_buffer_t : Type := mk_buffer {
  data : storage;
  length : Z;
  size : Z;
  pool : bool
}.

(** Byte [i] of a [size_t] and its replacement (little-endian target): the
    placeholder is the storage of [h->size] itself. *)
Definition byte_of (x i : Z) : Z := (x / 256 ^ i) mod 256.

Definition set_byte (x i v : Z) : Z :=
  x - byte_of x i * 256 ^ i + (v mod 256) * 256 ^ i.

(** The bytes [h->data] addresses. *)
Definition data_bytes (h : aml_buffer_t) : list Z :=
  match data h with
  | Sentinel => map (byte_of (size h)) [0; 1; 2; 3; 4; 5; 6; 7]
  | Block b => b
  end.

(** The number of bytes of the storage [h->data] points to. *)
Definition data_span (h : aml_buffer_t) : Z :=
  match data h with
  | Sentinel => 8
  | Block b => Z.of_nat (List.length b)
  end.

(** [h->data[i] = v]; [None] outside the storage. *)
Definition data_store (h : aml_buffer_t) (i v : Z) : option aml_buffer_t :=
  if (0 <=? i) && (i <? data_span h) then
    match data h with
    | Sentinel =>
        Some (mk_buffer Sentinel (length h) (set_byte (size h) i v) (pool h))
    | Block b =>
        Some (mk_buffer (Block (upd b (Z.to_nat i) v)) (length h) (size h)
                        (pool h))
    end
  else None.

(** [h->data[i]]; [None] outside the storage. *)
Definition data_load (h : aml_buffer_t) (i : Z) : option Z :=
  if (0 <=? i) && (i <? data_span h) then
    Some (nth (Z.to_nat i) (data_bytes h) 0)
  else None.

(** Stores [vs] from offset [off] on: [memcpy(h->data + off, vs, n)] and
    [memset(h->data + off, ch, n)]. *)
Fixpoint data_store_list (h : aml_buffer_t) (off : Z) (vs : list Z)
  : option aml_buffer_t :=
  match vs with
  | [] => Some h
  | v :: vs' =>
      match data_store h off v with
      | None => None
      | Some h' => data_store_list h' (off + 1) vs'
      end
  end.

(** [memcpy(dst, src, n)] into a fresh allocation. *)
Definition memcpy (dst src : list Z) (n : Z) : option (list Z) :=
  if (n <=? Z.of_nat (List.length dst)) && (n <=? Z.of_nat (List.length src))
  then Some (firstn (Z.to_nat n) src ++ skipn (Z.to_nat n) dst)
  else None.

(** [aml_free(h->data)]: releasing the placeholder is undefined. *)
Definition free_data (h : aml_buffer_t) : option unit :=
  match data h with
  | Sentinel => None
  | Block _ => Some tt
  end.

Notation "x <- m ;; k" :=
  (match m with Some x => k | None => None end)
  (at level 61, m at next level, right associativity).

Section Ops.

(** Content of memory that was allocated and not written. *)
Variable junk : Z.

(** [aml_malloc(n)] and [aml_pool_alloc(pool, n)]: [n] fresh bytes. *)
Definition aml_malloc (n : Z) : list Z := repeat junk (Z.to_nat n).

Definition aml_pool_alloc (n : Z) : list Z := repeat junk (Z.to_nat n).

(** [aml_buffer_pool_init(pool, initial_size)]. *)
Definition aml_buffer_pool_init (initial_size : Z) : option aml_buffer_t :=
  let h := mk_buffer (Block (aml_pool_alloc (sz (initial_size + 1)))) 0 0
                     false in
  h <- data_store h 0 0 ;;
  Some (mk_buffer (data h) (length h) initial_size true).

(** Modelled from the spec: [aml_buffer_init] (src/aml_buffer.c, not among
    the sources) allocates a handle plus [initial_capacity + 1] bytes of
    storage; the initial content is the empty string. *)
Definition aml_buffer_init (initial_size : Z) : option aml_buffer_t :=
  let h := mk_buffer (Block (aml_malloc (sz (initial_size + 1)))) 0 0
                     false in
  h <- data_store h 0 0 ;;
  Some (mk_buffer (data h) (length h) initial_size false).

(** The reset of the handle that ends [aml_buffer_detach]:
    [h->data = (char * )&h->size; h->length = 0; h->size = 0;
     h->data[0] = '\0';]. *)
Definition to_sentinel (h : aml_buffer_t) : option aml_buffer_t :=
  data_store (mk_buffer Sentinel 0 0 (pool h)) 0 0.

(** [aml_buffer_detach(h, length_out)] for a non-null [h]: the storage
    returned, [*length_out], and the handle. *)
Definition aml_buffer_detach (h : aml_buffer_t)
  : option (list Z * Z * aml_buffer_t) :=
  let len := length h in
  if pool h then
    h' <- to_sentinel h ;;
    Some (data_bytes h, len, h')
  else
    match data h with
    | Sentinel =>
        let alloc := if 0 <? len then len else 1 in
        ret <- store (aml_malloc alloc) 0 0 ;;
        h' <- to_sentinel h ;;
        Some (ret, len, h')
    | Block b =>
        h' <- to_sentinel h ;;
        Some (b, len, h')
    end.

(** [aml_buffer_clear]. *)
Definition aml_buffer_clear (h : aml_buffer_t) : option aml_buffer_t :=
  data_store (mk_buffer (data h) 0 (size h) (pool h)) 0 0.

(** [aml_buffer_reset(h, max_size)]. *)
Definition aml_buffer_reset (h : aml_buffer_t) (max_size : Z)
  : option aml_buffer_t :=
  h <- (if max_size <? size h then
          if negb (pool h) then
            _ <- free_data h ;;
            Some (mk_buffer (Block (aml_malloc (sz (max_size + 1))))
                            (length h) max_size (pool h))
          else Some h
        else Some h) ;;
  data_store (mk_buffer (data h) 0 (size h) (pool h)) 0 0.

(** [_aml_buffer_grow(h, length)]. *)
Definition _aml_buffer_grow (h : aml_buffer_t) (length_ : Z)
  : option aml_buffer_t :=
  let len := sz (sz (length_ + 50) + Z.shiftr (size h) 3) in
  if negb (pool h) then
    let data_ := aml_malloc (sz (len + 1)) in
    data_ <- memcpy data_ (data_bytes h) (sz (length h + 1)) ;;
    _ <- (if size h =? 0 then Some tt else free_data h) ;;
    Some (mk_buffer (Block data_) (length h) len (pool h))
  else
    let data_ := aml_pool_alloc (sz (len + 1)) in
    data_ <- (if length h =? 0 then Some data_
              else memcpy data_ (data_bytes h) (sz (length h + 1))) ;;
    Some (mk_buffer (Block data_) (length h) len (pool h)).

(** [aml_buffer_shrink_by(h, length)]. *)
Definition aml_buffer_shrink_by (h : aml_buffer_t) (length_ : Z)
  : option aml_buffer_t :=
  let l := if length_ <? length h then sz (length h - length_) else 0 in
  data_store (mk_buffer (data h) l (size h) (pool h)) l 0.

(** [aml_buffer_resize(h, length)]. *)
Definition aml_buffer_resize (h : aml_buffer_t) (length_ : Z)
  : option aml_buffer_t :=
  h <- (if size h <? length_ then _aml_buffer_grow h length_ else Some h) ;;
  data_store (mk_buffer (data h) length_ (size h) (pool h)) length_ 0.

(** [aml_buffer_append_ualloc(h, length)]: [r = h->data + h->length] and
    the store [r[length] = 0] is at the offset [h->length + length]. *)
Definition aml_buffer_append_ualloc (h : aml_buffer_t) (length_ : Z)
  : option aml_buffer_t :=
  h <- (if size h <? sz (length_ + length h)
        then _aml_buffer_grow h (sz (length_ + length h)) else Some h) ;;
  let r := length h in
  data_store (mk_buffer (data h) (sz (length h + length_)) (size h) (pool h))
             (r + length_) 0.

(** [aml_buffer_append_alloc(h, length)]. *)
Definition aml_buffer_append_alloc (h : aml_buffer_t) (length_ : Z)
  : option aml_buffer_t :=
  let m := Z.land (length h) 7 in
  h <- (if 0 <? m then
          let m := sz (8 - m) in
          h <- (if size h <? sz (m + length h)
                then _aml_buffer_grow h (sz (m + length h)) else Some h) ;;
          let l := sz (length h + m) in
          data_store (mk_buffer (data h) l (size h) (pool h)) l 0
        else Some h) ;;
  aml_buffer_append_ualloc h length_.

(** [aml_buffer_appendc(h, ch)]. *)
Definition aml_buffer_appendc (h : aml_buffer_t) (ch : Z)
  : option aml_buffer_t :=
  h <- (if size h <? sz (length h + 1)
        then _aml_buffer_grow h (sz (length h + 1)) else Some h) ;;
  let d := length h in
  h <- data_store h d ch ;;
  h <- data_store h (d + 1) 0 ;;
  Some (mk_buffer (data h) (sz (length h + 1)) (size h) (pool h)).

(** [aml_buffer_appendn(h, ch, n)], [n] an [ssize_t]. *)
Definition aml_buffer_appendn (h : aml_buffer_t) (ch n : Z)
  : option aml_buffer_t :=
  if n <=? 0 then Some h
  else
    h <- (if size h <? sz (length h + n)
          then _aml_buffer_grow h (sz (length h + n)) else Some h) ;;
    let d := length h in
    h <- data_store_list h d (repeat ch (Z.to_nat n)) ;;
    h <- data_store h (d + n) 0 ;;
    Some (mk_buffer (data h) (sz (length h + n)) (size h) (pool h)).

(** [_aml_buffer_alloc(h, length)]. *)
Definition _aml_buffer_alloc (h : aml_buffer_t) (length_ : Z)
  : option aml_buffer_t :=
  let len := sz (sz (length_ + 50) + Z.shiftr (size h) 3) in
  if negb (pool h) then
    _ <- (if size h =? 0 then Some tt else free_data h) ;;
    Some (mk_buffer (Block (aml_malloc (sz (len + 1)))) (length h) len
                    (pool h))
  else
    Some (mk_buffer (Block (aml_pool_alloc (sz (len + 1)))) (length h) len
                    (pool h)).

(** [aml_buffer_alloc(h, length)]. *)
Definition aml_buffer_alloc (h : aml_buffer_t) (length_ : Z)
  : option aml_buffer_t :=
  h <- (if size h <? length_ then _aml_buffer_alloc h length_ else Some h) ;;
  data_store (mk_buffer (data h) length_ (size h) (pool h)) length_ 0.

(** [_aml_buffer_set(h, data, length)]: [src] holds the [length] bytes. *)
Definition _aml_buffer_set (h : aml_buffer_t) (src : list Z)
  : option aml_buffer_t :=
  let length_ := Z.of_nat (List.length src) in
  h <- (if size h <? length_ then _aml_buffer_alloc h length_ else Some h) ;;
  h <- data_store_list h 0 src ;;
  data_store (mk_buffer (data h) length_ (size h) (pool h)) length_ 0.

(** [aml_buffer_set], [aml_buffer_sets] and [aml_buffer_setc]. *)
Definition aml_buffer_set (h : aml_buffer_t) (src : list Z)
  : option aml_buffer_t := _aml_buffer_set h src.

Definition aml_buffer_sets (h : aml_buffer_t) (s : list Z)
  : option aml_buffer_t := _aml_buffer_set h (cstring s).

Definition aml_buffer_setc (h : aml_buffer_t) (c : Z)
  : option aml_buffer_t := _aml_buffer_set h [c].

(** [aml_buffer_setn(h, ch, n)]: [h->length = 0; aml_buffer_appendn(...)]. *)
Definition aml_buffer_setn (h : aml_buffer_t) (ch n : Z)
  : option aml_buffer_t :=
  aml_buffer_appendn (mk_buffer (data h) 0 (size h) (pool h)) ch n.

(** Modelled from the spec: [_aml_buffer_append] (src/aml_buffer.c, not
    among the sources) grows if needed and preserves all prior bytes,
    appending at the current length. *)
Definition _aml_buffer_append (h : aml_buffer_t) (src : list Z)
  : option aml_buffer_t :=
  let length_ := Z.of_nat (List.length src) in
  h <- (if size h <? sz (length h + length_)
        then _aml_buffer_grow h (sz (length h + length_)) else Some h) ;;
  let d := length h in
  h <- data_store_list h d src ;;
  data_store (mk_buffer (data h) (sz (length h + length_)) (size h) (pool h))
             (d + length_) 0.

(** [aml_buffer_append], [aml_buffer_appends], [aml_buffer_appendsz]. *)
Definition aml_buffer_append (h : aml_buffer_t) (src : list Z)
  : option aml_buffer_t := _aml_buffer_append h src.

Definition aml_buffer_appends (h : aml_buffer_t) (s : list Z)
  : option aml_buffer_t := _aml_buffer_append h (cstring s).

Definition aml_buffer_appendsz (h : aml_buffer_t) (s : list Z)
  : option aml_buffer_t := _aml_buffer_append h (cstring s ++ [0]).

(** Modelled from the spec: [aml_buffer_appendvf] (src/aml_buffer.c, not
    among the sources) appends the formatted text; [formatted] is the text
    the format and its arguments produce. *)
Definition aml_buffer_appendvf (h : aml_buffer_t) (formatted : list Z)
  : option aml_buffer_t := _aml_buffer_append h (cstring formatted).

(** [aml_buffer_appendf] and [aml_buffer_setf]. *)
Definition aml_buffer_appendf (h : aml_buffer_t) (formatted : list Z)
  : option aml_buffer_t := aml_buffer_appendvf h formatted.

Definition aml_buffer_setf (h : aml_buffer_t) (formatted : list Z)
  : option aml_buffer_t :=
  aml_buffer_appendvf (mk_buffer (data h) 0 (size h) (pool h)) formatted.

(** A public operation on a handle, with its arguments. *)
Inductive buffer_op : Type :=
| Set_ (src : list Z)
| Sets (s : list Z)
| Setc (c : Z)
| Setn (ch n : Z)
| Setf (formatted : list Z)
| Append (src : list Z)
| Appends (s : list Z)
| Appendsz (s : list Z)
| Appendc (ch : Z)
| Appendn (ch n : Z)
| Appendf (formatted : list Z)
| Append_alloc (len : Z)
| Append_ualloc (len : Z)
| Resize (len : Z)
| Alloc (len : Z)
| Shrink_by (len : Z)
| Clear
| Reset (max_size : Z)
| Detach.

(** The handle after an operation; [None] is undefined behaviour. *)
Definition run_op (h : aml_buffer_t) (op : buffer_op) : option aml_buffer_t :=
  match op with
  | Set_ src => aml_buffer_set h src
  | Sets s => aml_buffer_sets h s
  | Setc c => aml_buffer_setc h c
  | Setn ch n => aml_buffer_setn h ch n
  | Setf formatted => aml_buffer_setf h formatted
  | Append src => aml_buffer_append h src
  | Appends s => aml_buffer_appends h s
  | Appendsz s => aml_buffer_appendsz h s
  | Appendc ch => aml_buffer_appendc h ch
  | Appendn ch n => aml_buffer_appendn h ch n
  | Appendf formatted => aml_buffer_appendf h formatted
  | Append_alloc len => aml_buffer_append_alloc h len
  | Append_ualloc len => aml_buffer_append_ualloc h len
  | Resize len => aml_buffer_resize h len
  | Alloc len => aml_buffer_alloc h len
  | Shrink_by len => aml_buffer_shrink_by h len
  | Clear => aml_buffer_clear h
  | Reset max_size => aml_buffer_reset h max_size
  | Detach => h' <- aml_buffer_detach h ;; Some (snd h')
  end.

Fixpoint run_ops (h : aml_buffer_t) (ops : list buffer_op)
  : option aml_buffer_t :=
  match ops with
  | [] => Some h
  | op :: ops' => h' <- run_op h op ;; run_ops h' ops'
  end.

End Ops.

(** The arguments of an operation as C passes them: a [size_t] is below
    2^64, an [ssize_t] between -2^63 and 2^63, and a text given with its
    length is shorter than 2^64. *)
Definition size_t_range (x : Z) : Prop := 0 <= x < 2 ^ 64.

Definition op_args (op : buffer_op) : Prop :=
  match op with
  | Set_ src | Append src => size_t_range (Z.of_nat (List.length src))
  | Sets s | Appends s | Setf s | Appendf s =>
      size_t_range (Z.of_nat (List.length (cstring s)))
  | Appendsz s => size_t_range (Z.of_nat (List.length (cstring s)) + 1)
  | Setc _ | Appendc _ | Clear | Detach => True
  | Setn _ n | Appendn _ n => - 2 ^ 63 <= n < 2 ^ 63
  | Append_alloc len | Append_ualloc len | Resize len | Alloc len
  | Shrink_by len | Reset len => size_t_range len
  end.

(** The invariant of a handle: the length is within the capacity, the
    storage holds the capacity and one byte more, an allocation is smaller
    than 2^64 bytes, and the placeholder goes with a capacity of 0. *)
Definition wf (h : aml_buffer_t) : Prop :=
  0 <= length h <= size h /\
  size h + 1 <= data_span h /\
  data_span h < 2 ^ 64 /\
  (data h = Sentinel -> size h = 0).

(** Sizes far from the end of [size_t]: a capacity below 2^63. *)
Definition moderate (h : aml_buffer_t) : Prop := size h < 2 ^ 63.

(** The length an operation asks the storage to hold (for
    [append_alloc], with the largest padding). *)
Definition asked_length (h : aml_buffer_t) (op : buffer_op) : Z :=
  match op with
  | Set_ src => Z.of_nat (List.length src)
  | Sets s | Setf s => Z.of_nat (List.length (cstring s))
  | Setc _ => 1
  | Setn _ n => Z.max 0 n
  | Append src => length h + Z.of_nat (List.length src)
  | Appends s | Appendf s => length h + Z.of_nat (List.length (cstring s))
  | Appendsz s => length h + Z.of_nat (List.length (cstring s)) + 1
  | Appendc _ => length h + 1
  | Appendn _ n => length h + Z.max 0 n
  | Append_alloc len => length h + 7 + len
  | Append_ualloc len => length h + len
  | Resize len | Alloc len => len
  | Shrink_by _ | Clear | Reset _ | Detach => 0
  end.

(** An operation whose arguments are in range and which asks for at most
    2^62 bytes: no [size_t] computation of the operation wraps around. *)
Definition op_fits (h : aml_buffer_t) (op : buffer_op) : Prop :=
  op_args op /\ asked_length h op <= 2 ^ 62.

(** The handles a program can reach: created by [aml_buffer_init] or
    [aml_buffer_pool_init], then any operations that fit. *)
Inductive reachable (junk : Z) : aml_buffer_t -> Prop :=
| reach_init (n : Z) (h : aml_buffer_t) :
    0 <= n <= 2 ^ 62 ->
    aml_buffer_init junk n = Some h -> reachable junk h
| reach_pool_init (n : Z) (h : aml_buffer_t) :
    0 <= n <= 2 ^ 62 ->
    aml_buffer_pool_init junk n = Some h -> reachable junk h
| reach_op (h h' : aml_buffer_t) (op : buffer_op) :
    reachable junk h -> op_fits h op ->
    run_op junk h op = Some h' -> reachable junk h'.

(** The operations that write the terminator whatever their arguments:
    all but [setn] and [appendn] with [n <= 0], which return at once. *)
Definition writes_terminator (op : buffer_op) : Prop :=
  match op with
  | Setn _ n | Appendn _ n => 0 < n
  | _ => True
  end.

(** NUL termination: [h->data[h->length] == 0]. *)
Definition terminated (h : aml_buffer_t) : Prop :=
  data_load h (length h) = Some 0.

(** What the invariant says of the storage and the capacity alone. *)
Definition span_ok (d : storage) (s : Z) : Prop :=
  0 <= s /\
  s + 1 <= data_span (mk_buffer d 0 s false) /\
  data_span (mk_buffer d 0 s false) < 2 ^ 64 /\
  (d = Sentinel -> s = 0).

(** The capacity after a growth that was asked for [req] bytes. *)
Definition grown (h : aml_buffer_t) (req : Z) : Z :=
  req + 50 + Z.shiftr (size h) 3.

(** What an operation leaves: a well-formed, moderate, terminated handle. *)
Definition good (h : aml_buffer_t) : Prop :=
  wf h /\ moderate h /\ terminated h.

(** [aml_buffer_data(h)]: [h->data[h->length] = 0; return h->data;]. *)
Definition aml_buffer_data (h : aml_buffer_t) : option aml_buffer_t :=
  data_store h (length h) 0.

(** [aml_buffer_length(h)]. *)
Definition aml_buffer_length (h : aml_buffer_t) : Z := length h.

(** The content of a handle: the first [h->length] bytes of its storage. *)
Definition contents (h : aml_buffer_t) : list Z :=
  firstn (Z.to_nat (length h)) (data_bytes h).

(** The length an operation passes to the growth routine when it has to
    grow.  [append_alloc] on a length that is not a multiple of 8 first
    resizes to the next multiple of 8, so that it may ask twice:
    [one_request] leaves that case out. *)
Definition requested_length (h : aml_buffer_t) (op : buffer_op) : Z :=
  match op with
  | Set_ src => Z.of_nat (List.length src)
  | Sets s | Setf s => Z.of_nat (List.length (cstring s))
  | Setc _ => 1
  | Setn _ n => n
  | Append src => length h + Z.of_nat (List.length src)
  | Appends s | Appendf s => length h + Z.of_nat (List.length (cstring s))
  | Appendsz s => length h + Z.of_nat (List.length (cstring s)) + 1
  | Appendc _ => length h + 1
  | Appendn _ n => length h + n
  | Append_alloc len | Append_ualloc len => length h + len
  | Resize len | Alloc len => len
  | Shrink_by _ | Clear | Reset _ | Detach => 0
  end.

Definition one_request (h : aml_buffer_t) (op : buffer_op) : Prop :=
  match op with
  | Append_alloc _ => Z.land (length h) 7 = 0
  | _ => True
  end.

(** A handle whose storage is a block of [n] bytes, of capacity [cap]. *)
Definition block_of (cap n : Z) (h : aml_buffer_t) : Prop :=
  size h = cap /\ data_span h = n /\ exists b, data h = Block b.

End Buffer.


(** * Properties *)

(** ** Arrays and C strings *)

Lemma upd_length (a : list Z) (i : nat) (v : Z) :
  length (upd a i v) = length a.
Proof.
  revert i. induction a as [| x t IH]; intros [| i]; simpl; auto.
Qed.

Lemma upd_app_r (pre l : list Z) (k : nat) (v : Z) :
  upd (pre ++ l) (length pre + k) v = pre ++ upd l k v.
Proof.
  induction pre as [| x pre IH]; simpl.
  - reflexivity.
  - rewrite IH. reflexivity.
Qed.

Lemma store_app_r (pre l : list Z) (k : nat) (v : Z) :
  store (pre ++ l) (length pre + k) v = option_map (app pre) (store l k v).
Proof.
  unfold store. rewrite length_app.
  destruct (k <? length l)%nat eqn:E.
  - apply Nat.ltb_lt in E.
    replace (length pre + k <? length pre + length l)%nat with true
      by (symmetry; apply Nat.ltb_lt; lia).
    simpl. rewrite upd_app_r. reflexivity.
  - apply Nat.ltb_ge in E.
    replace (length pre + k <? length pre + length l)%nat with false
      by (symmetry; apply Nat.ltb_ge; lia).
    reflexivity.
Qed.

Lemma store_length (a a' : list Z) (i : nat) (v : Z) :
  store a i v = Some a' -> length a' = length a.
Proof.
  unfold store. destruct (i <? length a)%nat; intros H; inversion H.
  apply upd_length.
Qed.

Lemma store_repeat_last (x v : Z) (n : nat) :
  store (repeat x (n + 1)) n v = Some (repeat x n ++ [v]).
Proof.
  rewrite repeat_app. simpl.
  replace n with (length (repeat x n) + 0)%nat at 2
    by (rewrite repeat_length; lia).
  rewrite store_app_r. reflexivity.
Qed.

Lemma firstn_upd_same (a : list Z) (n : nat) (v : Z) :
  firstn n (upd a n v) = firstn n a.
Proof.
  revert n. induction a as [| x t IH]; intros [| n]; simpl; auto.
  rewrite IH. reflexivity.
Qed.

Lemma load_app_r (pre l : list Z) (k : nat) :
  load (pre ++ l) (length pre + k) = load l k.
Proof.
  unfold load. rewrite app_nth2 by lia. f_equal. lia.
Qed.

Lemma cstring_app_nul (s r : list Z) :
  Forall (fun c => c <> 0) s -> cstring (s ++ 0 :: r) = s.
Proof.
  induction 1 as [| c s Hc _ IH]; simpl.
  - reflexivity.
  - destruct (Z.eqb_spec c 0); [contradiction |]. rewrite IH. reflexivity.
Qed.

Lemma cstring_nonzero (a : list Z) : Forall (fun c => c <> 0) (cstring a).
Proof.
  induction a as [| c t IH]; simpl.
  - constructor.
  - destruct (Z.eqb_spec c 0); constructor; assumption.
Qed.

Lemma cstring_idem (a : list Z) : cstring (cstring a) = cstring a.
Proof.
  induction a as [| c t IH]; simpl.
  - reflexivity.
  - destruct (Z.eqb_spec c 0) as [E | E]; simpl.
    + reflexivity.
    + destruct (Z.eqb_spec c 0); [contradiction |]. rewrite IH. reflexivity.
Qed.

(** Induction on a list three elements at a time, as the codec reads it. *)
Lemma list_ind3 (P : list Z -> Prop) :
  P [] ->
  (forall a, P [a]) ->
  (forall a b, P [a; b]) ->
  (forall a b c rest, P rest -> P (a :: b :: c :: rest)) ->
  forall l, P l.
Proof.
  intros H0 H1 H2 H3.
  fix IH 1. intros [| a [| b [| c rest]]].
  - exact H0.
  - apply H1.
  - apply H2.
  - apply H3. apply IH.
Qed.

(** ** Bit operations as arithmetic *)

Lemma land_mul_pow2_small (x y k : Z) :
  0 <= k -> 0 <= y < 2 ^ k -> Z.land (x * 2 ^ k) y = 0.
Proof.
  intros Hk Hy. apply Z.bits_inj'. intros n Hn.
  rewrite Z.land_spec, Z.bits_0.
  destruct (Z_lt_le_dec n k) as [Hlt | Hge].
  - rewrite Z.mul_pow2_bits_low by lia. reflexivity.
  - destruct (Z.eq_dec y 0) as [-> | Hne].
    + rewrite Z.bits_0. apply andb_false_r.
    + rewrite (Z.bits_above_log2 y n); [apply andb_false_r | lia |].
      apply Z.log2_lt_pow2; try lia.
      apply Z.lt_le_trans with (2 ^ k); try lia.
      apply Z.pow_le_mono_r; lia.
Qed.

Lemma lor_scaled_small (x y m k : Z) :
  0 <= k -> m = 2 ^ k -> 0 <= y < m -> Z.lor (x * m) y = x * m + y.
Proof.
  intros Hk -> Hy.
  pose proof (Z.add_lor_land (x * 2 ^ k) y) as H.
  rewrite (land_mul_pow2_small x y k Hk Hy) in H. lia.
Qed.

Lemma u32_small (x : Z) : 0 <= x < 4294967296 -> u32 x = x.
Proof. intros H. unfold u32. apply Z.mod_small. exact H. Qed.

Lemma sextet_arith (t n : Z) :
  0 <= n -> Z.land (Z.shiftr t n) 63 = (t / 2 ^ n) mod 64.
Proof.
  intros Hn. rewrite Z.shiftr_div_pow2 by lia.
  change 63 with (Z.ones 6). rewrite Z.land_ones by lia. reflexivity.
Qed.

Lemma sextet0_arith (t : Z) : Z.land t 63 = t mod 64.
Proof. change 63 with (Z.ones 6). rewrite Z.land_ones by lia. reflexivity. Qed.

Lemma octet0_arith (t : Z) : Z.land t 255 = t mod 256.
Proof. change 255 with (Z.ones 8). rewrite Z.land_ones by lia. reflexivity. Qed.

Lemma octet_arith (t n : Z) :
  0 <= n -> Z.land (Z.shiftr t n) 255 = (t / 2 ^ n) mod 256.
Proof.
  intros Hn. rewrite Z.shiftr_div_pow2 by lia.
  change 255 with (Z.ones 8). rewrite Z.land_ones by lia. reflexivity.
Qed.

(** Linear arithmetic with division and remainder by constants. *)
Ltac dlia := zify; Z.div_mod_to_equations; lia.

(** ** Base64 codec *)

Module Base64Facts.
Import Base64.

(** *** The two tables *)

Lemma all_sextets_ok : forallb sextet_ok (seq 0 64) = true.
Proof. vm_compute. reflexivity. Qed.

Lemma b64_table_dec (s : Z) :
  0 <= s < 64 ->
  load b64_table (Z.to_nat s) <> 0 /\
  load b64_table (Z.to_nat s) <> PAD /\
  is_byte (load b64_table (Z.to_nat s)) /\
  load b64_dec_table (Z.to_nat (load b64_table (Z.to_nat s))) = s.
Proof.
  intros Hs.
  pose proof all_sextets_ok as H.
  rewrite forallb_forall in H.
  specialize (H (Z.to_nat s)).
  assert (Hin : In (Z.to_nat s) (seq 0 64)) by (apply in_seq; lia).
  apply H in Hin. unfold sextet_ok, is_byteb in Hin.
  rewrite Z2Nat.id in Hin by lia.
  repeat (apply andb_prop in Hin; destruct Hin as [Hin ?]).
  apply negb_true_iff in Hin.
  match goal with H : negb _ = true |- _ => apply negb_true_iff in H end.
  unfold is_byte. repeat split; try lia.
Qed.

(** *** Groups of 24 bits *)

Lemma triple_of_arith (a b c : Z) :
  is_byte a -> is_byte b -> is_byte c ->
  triple_of a b c = a * 65536 + b * 256 + c.
Proof.
  unfold is_byte, triple_of. intros Ha Hb Hc.
  rewrite !Z.shiftl_mul_pow2 by lia.
  change (2 ^ 16) with 65536. change (2 ^ 8) with 256.
  rewrite !(u32_small (_ * _)) by lia.
  rewrite (lor_scaled_small a (b * 256) 65536 16) by (reflexivity || lia).
  replace (a * 65536 + b * 256) with ((a * 256 + b) * 256) by lia.
  rewrite (lor_scaled_small (a * 256 + b) c 256 8) by (reflexivity || lia).
  rewrite u32_small by lia. lia.
Qed.

Lemma val_of_arith (s1 s2 s3 s4 : Z) :
  0 <= s1 < 64 -> 0 <= s2 < 64 -> 0 <= s3 < 64 -> 0 <= s4 < 64 ->
  val_of s1 s2 s3 s4 = s1 * 262144 + s2 * 4096 + s3 * 64 + s4.
Proof.
  intros H1 H2 H3 H4. unfold val_of.
  change (18 - 6 - 6 - 6) with 0. change (18 - 6 - 6) with 6.
  change (18 - 6) with 12.
  rewrite !Z.shiftl_mul_pow2 by lia.
  change (2 ^ 18) with 262144. change (2 ^ 12) with 4096.
  change (2 ^ 6) with 64. change (2 ^ 0) with 1.
  rewrite Z.lor_0_l.
  rewrite !(u32_small (_ * _)) by lia.
  rewrite (lor_scaled_small s1 (s2 * 4096) 262144 18) by (reflexivity || lia).
  rewrite (u32_small (_ + _)) by lia.
  replace (s1 * 262144 + s2 * 4096) with ((s1 * 64 + s2) * 4096) by lia.
  rewrite (lor_scaled_small (s1 * 64 + s2) (s3 * 64) 4096 12)
    by (reflexivity || lia).
  rewrite (u32_small (_ + _)) by lia.
  replace ((s1 * 64 + s2) * 4096 + s3 * 64)
    with (((s1 * 64 + s2) * 64 + s3) * 64) by lia.
  rewrite (lor_scaled_small _ (s4 * 1) 64 6) by (reflexivity || lia).
  rewrite (u32_small (_ + _)) by lia. lia.
Qed.

(** The sextets of a 24-bit value, and the value they rebuild. *)
Lemma sextets_range (t : Z) :
  0 <= Z.land (Z.shiftr t 18) 63 < 64 /\
  0 <= Z.land (Z.shiftr t 12) 63 < 64 /\
  0 <= Z.land (Z.shiftr t 6) 63 < 64 /\
  0 <= Z.land t 63 < 64.
Proof.
  rewrite !sextet_arith, sextet0_arith by lia.
  repeat split; apply Z.mod_pos_bound; lia.
Qed.

Lemma val_of_sextets (t : Z) :
  0 <= t < 16777216 ->
  val_of (Z.land (Z.shiftr t 18) 63) (Z.land (Z.shiftr t 12) 63)
         (Z.land (Z.shiftr t 6) 63) (Z.land t 63) = t.
Proof.
  intros Ht.
  destruct (sextets_range t) as (R1 & R2 & R3 & R4).
  rewrite val_of_arith by assumption.
  rewrite !sextet_arith, sextet0_arith by lia.
  change (2 ^ 18) with 262144. change (2 ^ 12) with 4096.
  change (2 ^ 6) with 64.
  dlia.
Qed.

Lemma octets_of_triple (a b c : Z) :
  is_byte a -> is_byte b -> is_byte c ->
  let t := a * 65536 + b * 256 + c in
  Z.land (Z.shiftr t 16) 255 = a /\
  Z.land (Z.shiftr t 8) 255 = b /\
  Z.land t 255 = c.
Proof.
  intros Ha Hb Hc t. unfold is_byte in Ha, Hb, Hc.
  rewrite !octet_arith, octet0_arith by lia.
  change (2 ^ 16) with 65536. change (2 ^ 8) with 256.
  subst t.
  repeat split; dlia.
Qed.

(** *** The encoder *)

Lemma encode_quad_shift (pre l : list Z) (k : nat) (t : Z) :
  encode_quad (pre ++ l) (length pre + k) t
  = option_map (app pre) (encode_quad l k t).
Proof.
  unfold encode_quad.
  rewrite store_app_r. destruct (store l k _) as [e1 |]; simpl; [| reflexivity].
  rewrite <- Nat.add_assoc, store_app_r.
  destruct (store e1 (k + 1) _) as [e2 |]; simpl; [| reflexivity].
  rewrite <- Nat.add_assoc, store_app_r.
  destruct (store e2 (k + 2) _) as [e3 |]; simpl; [| reflexivity].
  rewrite <- Nat.add_assoc, store_app_r. reflexivity.
Qed.

Lemma encode_quad_here (x1 x2 x3 x4 : Z) (post : list Z) (t : Z) :
  encode_quad (x1 :: x2 :: x3 :: x4 :: post) 0 t = Some (quad_chars t ++ post).
Proof. reflexivity. Qed.

Lemma encode_quad_at (pre post : list Z) (x1 x2 x3 x4 t : Z) :
  encode_quad (pre ++ x1 :: x2 :: x3 :: x4 :: post) (length pre) t
  = Some (pre ++ quad_chars t ++ post).
Proof.
  rewrite <- (Nat.add_0_r (length pre)) at 1.
  rewrite encode_quad_shift, encode_quad_here. reflexivity.
Qed.

Lemma enc_raw_length (data : list Z) :
  length (enc_raw data) = (4 * ((length data + 2) / 3))%nat.
Proof.
  induction data as [| a | a b | a b c rest IH] using list_ind3;
    try reflexivity.
  cbn [enc_raw]. rewrite length_app, IH. cbn [length quad_chars]. dlia.
Qed.

Lemma enc_text_length (data : list Z) :
  length (enc_text data) = (4 * ((length data + 2) / 3))%nat.
Proof.
  induction data as [| a | a b | a b c rest IH] using list_ind3;
    try reflexivity.
  cbn [enc_text]. rewrite length_app, IH. cbn [length quad_chars]. dlia.
Qed.

Lemma dec_raw_length (data : list Z) :
  length (dec_raw data) = (3 * ((length data + 2) / 3))%nat.
Proof.
  induction data as [| a | a b | a b c rest IH] using list_ind3;
    try reflexivity.
  cbn [dec_raw length]. rewrite IH. dlia.
Qed.

Lemma four_cells (fill : list Z) (n : nat) :
  length fill = (4 + n)%nat ->
  exists x1 x2 x3 x4 fill',
    fill = x1 :: x2 :: x3 :: x4 :: fill' /\ length fill' = n.
Proof.
  destruct fill as [| x1 [| x2 [| x3 [| x4 fill']]]]; simpl; try lia.
  intros H. exists x1, x2, x3, x4, fill'. split; [reflexivity | lia].
Qed.

Lemma encode_loop_spec (data : list Z) :
  forall pre fill post,
    length fill = length (enc_raw data) ->
    encode_loop data (length pre) (pre ++ fill ++ post)
    = Some (pre ++ enc_raw data ++ post).
Proof.
  induction data as [| a | a b | a b c rest IH] using list_ind3;
    intros pre fill post Hlen.
  - destruct fill; [reflexivity | discriminate].
  - apply (four_cells fill 0) in Hlen.
    destruct Hlen as (x1 & x2 & x3 & x4 & fill' & -> & Hnil).
    destruct fill'; [| discriminate].
    cbn [encode_loop enc_raw app]. apply encode_quad_at.
  - apply (four_cells fill 0) in Hlen.
    destruct Hlen as (x1 & x2 & x3 & x4 & fill' & -> & Hnil).
    destruct fill'; [| discriminate].
    cbn [encode_loop enc_raw app]. apply encode_quad_at.
  - cbn [enc_raw] in Hlen. rewrite length_app in Hlen.
    apply (four_cells fill (length (enc_raw rest))) in Hlen.
    destruct Hlen as (x1 & x2 & x3 & x4 & fill' & -> & Hfill).
    cbn [encode_loop enc_raw]. cbn [app].
    rewrite encode_quad_at.
    replace (pre ++ quad_chars (triple_of a b c) ++ fill' ++ post)
      with ((pre ++ quad_chars (triple_of a b c)) ++ fill' ++ post)
      by (rewrite <- app_assoc; reflexivity).
    replace (length pre + 4)%nat
      with (length (pre ++ quad_chars (triple_of a b c)))
      by (rewrite length_app; reflexivity).
    rewrite IH by assumption.
    rewrite <- !app_assoc. reflexivity.
Qed.

Lemma encode_pad_shift (pre a : list Z) (n n' len : nat) :
  (n' mod 3 = n mod 3)%nat -> (2 <= len)%nat ->
  encode_pad (pre ++ a) n' (length pre + len)
  = option_map (app pre) (encode_pad a n len).
Proof.
  intros Hmod Hlen. unfold encode_pad. rewrite Hmod.
  destruct (0 <? n mod 3)%nat; [| reflexivity].
  replace (length pre + len - 1)%nat with (length pre + (len - 1))%nat by lia.
  rewrite store_app_r.
  destruct (store a (len - 1) PAD) as [e |]; cbn [option_map];
    [| reflexivity].
  destruct (n mod 3 =? 1)%nat; [| reflexivity].
  replace (length pre + len - 2)%nat with (length pre + (len - 2))%nat by lia.
  apply store_app_r.
Qed.

Lemma encode_pad_spec (data : list Z) :
  forall post,
    data <> [] ->
    encode_pad (enc_raw data ++ post) (length data) (length (enc_raw data))
    = Some (enc_text data ++ post).
Proof.
  induction data as [| a | a b | a b c rest IH] using list_ind3;
    intros post Hne.
  - contradiction.
  - reflexivity.
  - reflexivity.
  - destruct rest as [| r rest'] eqn:E; [reflexivity |].
    rewrite <- E in *.
    assert (Hrest : rest <> []) by (rewrite E; discriminate).
    assert (Hpos : (1 <= length rest)%nat) by (rewrite E; simpl; lia).
    clear E.
    cbn [enc_raw enc_text]. rewrite <- !app_assoc.
    rewrite length_app.
    rewrite encode_pad_shift with (n := length rest).
    + rewrite IH by assumption. reflexivity.
    + cbn [length]. dlia.
    + rewrite enc_raw_length. dlia.
Qed.

Lemma encode_spec (junk : Z) (data : list Z) :
  aml_pool_base64_encode junk data = Some (enc_text data ++ [0]).
Proof.
  unfold aml_pool_base64_encode.
  destruct data as [| a data'] eqn:E; [reflexivity |].
  rewrite <- E.
  replace (length data =? 0)%nat with false
    by (subst data; reflexivity).
  unfold pool_bytes. rewrite store_repeat_last.
  rewrite <- enc_raw_length.
  pose proof (encode_loop_spec data [] (repeat junk (length (enc_raw data))) [0])
    as Hloop.
  cbn [app length] in Hloop. rewrite Hloop by apply repeat_length.
  apply encode_pad_spec. subst data. discriminate.
Qed.

(** *** The decoder on encoded text *)

Lemma reads_pad : reads PAD 0.
Proof. left. split; reflexivity. Qed.

Lemma reads_char (s : Z) : 0 <= s < 64 -> reads (load b64_table (Z.to_nat s)) s.
Proof. intros H. right. split; [exact H | reflexivity]. Qed.

Lemma decode_quad_step (n : nat) (shift val c s : Z) (rest : list Z) :
  reads c s ->
  decode_quad (S n) shift val (c :: rest)
  = decode_quad n (shift - 6) (u32 (Z.lor val (u32 (Z.shiftl s shift)))) rest.
Proof.
  intros [[-> ->] | [Hs ->]]; cbn [decode_quad].
  - reflexivity.
  - destruct (b64_table_dec s Hs) as (_ & Hpad & _ & Hdec).
    destruct (Z.eqb_spec (load b64_table (Z.to_nat s)) PAD); [contradiction |].
    rewrite Hdec.
    destruct (Z.eqb_spec s 255); [lia | reflexivity].
Qed.

Lemma decode_quad_four (c1 c2 c3 c4 s1 s2 s3 s4 : Z) (rest : list Z) :
  reads c1 s1 -> reads c2 s2 -> reads c3 s3 -> reads c4 s4 ->
  decode_quad 4 18 0 (c1 :: c2 :: c3 :: c4 :: rest)
  = Some (val_of s1 s2 s3 s4, rest).
Proof.
  intros H1 H2 H3 H4.
  rewrite (decode_quad_step _ _ _ _ _ _ H1).
  rewrite (decode_quad_step _ _ _ _ _ _ H2).
  rewrite (decode_quad_step _ _ _ _ _ _ H3).
  rewrite (decode_quad_step _ _ _ _ _ _ H4).
  reflexivity.
Qed.

Lemma decode_out_shift (pre l : list Z) (k : nat) (val : Z) :
  decode_out (pre ++ l) (length pre + k) val
  = option_map (app pre) (decode_out l k val).
Proof.
  unfold decode_out.
  rewrite store_app_r. destruct (store l k _) as [d1 |]; simpl; [| reflexivity].
  rewrite <- Nat.add_assoc, store_app_r.
  destruct (store d1 (k + 1) _) as [d2 |]; simpl; [| reflexivity].
  rewrite <- Nat.add_assoc, store_app_r. reflexivity.
Qed.

Lemma decode_out_at (pre post : list Z) (x1 x2 x3 val : Z) :
  decode_out (pre ++ x1 :: x2 :: x3 :: post) (length pre) val
  = Some (pre ++ [Z.land (Z.shiftr val 16) 255;
                  Z.land (Z.shiftr val 8) 255;
                  Z.land val 255] ++ post).
Proof.
  rewrite <- (Nat.add_0_r (length pre)) at 1.
  rewrite decode_out_shift. reflexivity.
Qed.

(** One group of encoded text decodes to the 24-bit value it came from. *)
Lemma decode_quad_full (a b c : Z) (rest : list Z) :
  is_byte a -> is_byte b -> is_byte c ->
  decode_quad 4 18 0 (quad_chars (triple_of a b c) ++ rest)
  = Some (a * 65536 + b * 256 + c, rest).
Proof.
  intros Ha Hb Hc. unfold quad_chars. cbn [app].
  destruct (sextets_range (triple_of a b c)) as (R1 & R2 & R3 & R4).
  rewrite (decode_quad_four _ _ _ _ _ _ _ _ _
             (reads_char _ R1) (reads_char _ R2)
             (reads_char _ R3) (reads_char _ R4)).
  rewrite val_of_sextets; rewrite triple_of_arith by assumption.
  - reflexivity.
  - unfold is_byte in *. lia.
Qed.

Lemma decode_quad_two (a b : Z) (rest : list Z) :
  is_byte a -> is_byte b ->
  decode_quad 4 18 0 (firstn 3 (quad_chars (triple_of a b 0)) ++ [PAD] ++ rest)
  = Some (a * 65536 + b * 256, rest).
Proof.
  intros Ha Hb. unfold quad_chars. cbn [app firstn].
  assert (H0 : is_byte 0) by (unfold is_byte; lia).
  destruct (sextets_range (triple_of a b 0)) as (R1 & R2 & R3 & R4).
  rewrite (decode_quad_four _ _ _ _ _ _ _ _ _
             (reads_char _ R1) (reads_char _ R2)
             (reads_char _ R3) reads_pad).
  assert (E4 : Z.land (triple_of a b 0) 63 = 0).
  { rewrite triple_of_arith by assumption. rewrite sextet0_arith.
    unfold is_byte in *. dlia. }
  replace (val_of (Z.land (Z.shiftr (triple_of a b 0) 18) 63)
             (Z.land (Z.shiftr (triple_of a b 0) 12) 63)
             (Z.land (Z.shiftr (triple_of a b 0) 6) 63) 0)
    with (triple_of a b 0)
    by (rewrite <- E4 at 5; symmetry; apply val_of_sextets;
        rewrite triple_of_arith by assumption; unfold is_byte in *; lia).
  rewrite triple_of_arith by assumption.
  f_equal. f_equal. lia.
Qed.

Lemma decode_quad_one (a : Z) (rest : list Z) :
  is_byte a ->
  decode_quad 4 18 0
    (firstn 2 (quad_chars (triple_of a 0 0)) ++ [PAD; PAD] ++ rest)
  = Some (a * 65536, rest).
Proof.
  intros Ha. unfold quad_chars. cbn [app firstn].
  assert (H0 : is_byte 0) by (unfold is_byte; lia).
  destruct (sextets_range (triple_of a 0 0)) as (R1 & R2 & R3 & R4).
  rewrite (decode_quad_four _ _ _ _ _ _ _ _ _
             (reads_char _ R1) (reads_char _ R2) reads_pad reads_pad).
  assert (E4 : Z.land (triple_of a 0 0) 63 = 0).
  { rewrite triple_of_arith by assumption. rewrite sextet0_arith.
    unfold is_byte in *. dlia. }
  assert (E3 : Z.land (Z.shiftr (triple_of a 0 0) 6) 63 = 0).
  { rewrite triple_of_arith by assumption. rewrite sextet_arith by lia.
    change (2 ^ 6) with 64. unfold is_byte in *. dlia. }
  replace (val_of (Z.land (Z.shiftr (triple_of a 0 0) 18) 63)
             (Z.land (Z.shiftr (triple_of a 0 0) 12) 63) 0 0)
    with (triple_of a 0 0)
    by (rewrite <- E4 at 8; rewrite <- E3 at 7; symmetry;
        apply val_of_sextets;
        rewrite triple_of_arith by assumption; unfold is_byte in *; lia).
  rewrite triple_of_arith by assumption.
  f_equal. f_equal. lia.
Qed.

Lemma three_cells (fill : list Z) (n : nat) :
  length fill = (3 + n)%nat ->
  exists x1 x2 x3 fill', fill = x1 :: x2 :: x3 :: fill' /\ length fill' = n.
Proof.
  destruct fill as [| x1 [| x2 [| x3 fill']]]; simpl; try lia.
  intros H. exists x1, x2, x3, fill'. split; [reflexivity | lia].
Qed.

Lemma decode_loop_spec (data : list Z) :
  Forall is_byte data ->
  forall fuel pre fill post,
    (length (enc_text data) <= fuel)%nat ->
    length fill = length (dec_raw data) ->
    decode_loop fuel (enc_text data) (length pre) (pre ++ fill ++ post)
    = LDone (length pre + length (dec_raw data)) (pre ++ dec_raw data ++ post).
Proof.
  assert (H0 : is_byte 0) by (unfold is_byte; lia).
  induction data as [| a | a b | a b c rest IH] using list_ind3;
    intros Hbytes fuel pre fill post Hfuel Hlen.
  - destruct fill; [| discriminate]. cbn [enc_text dec_raw app length].
    rewrite Nat.add_0_r. destruct fuel; reflexivity.
  - inversion Hbytes as [| ? ? Ha _]; subst.
    apply (three_cells fill 0) in Hlen.
    destruct Hlen as (x1 & x2 & x3 & fill' & -> & Hnil).
    destruct fill'; [| discriminate].
    destruct fuel as [| fuel]; [cbn in Hfuel; lia |].
    pose proof (decode_quad_one a [] Ha) as Hq.
    rewrite app_nil_r in Hq.
    cbn [enc_text] in *. unfold quad_chars in *. cbn [firstn app] in *.
    cbn [decode_loop]. rewrite Hq. cbn [app]. rewrite decode_out_at.
    destruct (octets_of_triple a 0 0 Ha H0 H0) as (E1 & E2 & E3).
    replace (a * 65536 + 0 * 256 + 0) with (a * 65536) in * by lia.
    rewrite E1, E2, E3.
    destruct fuel; reflexivity.
  - inversion Hbytes as [| ? ? Ha Hb']; subst.
    inversion Hb' as [| ? ? Hb _]; subst.
    apply (three_cells fill 0) in Hlen.
    destruct Hlen as (x1 & x2 & x3 & fill' & -> & Hnil).
    destruct fill'; [| discriminate].
    destruct fuel as [| fuel]; [cbn in Hfuel; lia |].
    pose proof (decode_quad_two a b [] Ha Hb) as Hq.
    rewrite app_nil_r in Hq.
    cbn [enc_text] in *. unfold quad_chars in *. cbn [firstn app] in *.
    cbn [decode_loop]. rewrite Hq. cbn [app]. rewrite decode_out_at.
    destruct (octets_of_triple a b 0 Ha Hb H0) as (E1 & E2 & E3).
    replace (a * 65536 + b * 256 + 0) with (a * 65536 + b * 256) in * by lia.
    rewrite E1, E2, E3.
    destruct fuel; reflexivity.
  - inversion Hbytes as [| ? ? Ha Hb']; subst.
    inversion Hb' as [| ? ? Hb Hc']; subst.
    inversion Hc' as [| ? ? Hc Hrest]; subst.
    cbn [dec_raw length] in Hlen.
    apply (three_cells fill (length (dec_raw rest))) in Hlen.
    destruct Hlen as (x1 & x2 & x3 & fill' & -> & Hfill).
    cbn [enc_text] in Hfuel. rewrite length_app in Hfuel.
    cbn [quad_chars length] in Hfuel.
    destruct fuel as [| fuel]; [lia |].
    pose proof (decode_quad_full a b c (enc_text rest) Ha Hb Hc) as Hq.
    cbn [enc_text]. unfold quad_chars in *. cbn [app] in *.
    cbn [decode_loop]. rewrite Hq. rewrite decode_out_at.
    destruct (octets_of_triple a b c Ha Hb Hc) as (E1 & E2 & E3).
    rewrite E1, E2, E3.
    replace (pre ++ [a; b; c] ++ fill' ++ post)
      with ((pre ++ [a; b; c]) ++ fill' ++ post)
      by (rewrite <- app_assoc; reflexivity).
    replace (length pre + 3)%nat with (length (pre ++ [a; b; c]))
      by (rewrite length_app; reflexivity).
    rewrite IH by (assumption || lia).
    rewrite length_app. cbn [length dec_raw].
    rewrite <- !app_assoc. cbn [app].
    f_equal. lia.
Qed.

Lemma quad_chars_nonzero (t : Z) : Forall (fun c => c <> 0) (quad_chars t).
Proof.
  destruct (sextets_range t) as (R1 & R2 & R3 & R4).
  unfold quad_chars.
  apply Forall_cons; [apply (b64_table_dec _ R1) |].
  apply Forall_cons; [apply (b64_table_dec _ R2) |].
  apply Forall_cons; [apply (b64_table_dec _ R3) |].
  apply Forall_cons; [apply (b64_table_dec _ R4) |].
  apply Forall_nil.
Qed.

Lemma pad_nonzero : PAD <> 0.
Proof. unfold PAD. lia. Qed.

Lemma enc_text_nonzero (data : list Z) :
  Forall (fun c => c <> 0) (enc_text data).
Proof.
  induction data as [| a | a b | a b c rest IH] using list_ind3.
  - apply Forall_nil.
  - destruct (sextets_range (triple_of a 0 0)) as (R1 & R2 & R3 & R4).
    cbn [enc_text]. unfold quad_chars. cbn [firstn app].
    apply Forall_cons; [apply (b64_table_dec _ R1) |].
    apply Forall_cons; [apply (b64_table_dec _ R2) |].
    apply Forall_cons; [apply pad_nonzero |].
    apply Forall_cons; [apply pad_nonzero |].
    apply Forall_nil.
  - destruct (sextets_range (triple_of a b 0)) as (R1 & R2 & R3 & R4).
    cbn [enc_text]. unfold quad_chars. cbn [firstn app].
    apply Forall_cons; [apply (b64_table_dec _ R1) |].
    apply Forall_cons; [apply (b64_table_dec _ R2) |].
    apply Forall_cons; [apply (b64_table_dec _ R3) |].
    apply Forall_cons; [apply pad_nonzero |].
    apply Forall_nil.
  - cbn [enc_text]. apply Forall_app.
    split; [apply quad_chars_nonzero | exact IH].
Qed.

Lemma count_pad_shift (pre s : list Z) :
  (2 <= length s)%nat ->
  count_pad (pre ++ s) (length pre + length s) = count_pad s (length s).
Proof.
  intros H. unfold count_pad.
  replace (length pre + length s - 1)%nat
    with (length pre + (length s - 1))%nat by lia.
  replace (length pre + length s - 2)%nat
    with (length pre + (length s - 2))%nat by lia.
  rewrite !load_app_r.
  replace (1 <=? length pre + length s)%nat with true
    by (symmetry; apply Nat.leb_le; lia).
  replace (2 <=? length pre + length s)%nat with true
    by (symmetry; apply Nat.leb_le; lia).
  replace (1 <=? length s)%nat with true by (symmetry; apply Nat.leb_le; lia).
  replace (2 <=? length s)%nat with true by (symmetry; apply Nat.leb_le; lia).
  reflexivity.
Qed.

Lemma not_pad (s : Z) : 0 <= s < 64 -> (load b64_table (Z.to_nat s) =? PAD) = false.
Proof.
  intros H. destruct (b64_table_dec s H) as (_ & Hp & _).
  apply Z.eqb_neq. exact Hp.
Qed.

Lemma count_pad_enc_text (data : list Z) :
  data <> [] ->
  count_pad (enc_text data) (length (enc_text data))
  = (length (dec_raw data) - length data)%nat.
Proof.
  induction data as [| a | a b | a b c rest IH] using list_ind3; intros Hne.
  - contradiction.
  - reflexivity.
  - destruct (sextets_range (triple_of a b 0)) as (_ & _ & R3 & _).
    cbn [enc_text]. unfold quad_chars. cbn [firstn app length].
    pose proof (not_pad _ R3) as N3.
    unfold count_pad, load in *. cbn [Nat.sub nth Nat.leb andb].
    rewrite N3. reflexivity.
  - destruct rest as [| r rest'] eqn:E.
    + destruct (sextets_range (triple_of a b c)) as (_ & _ & R3 & R4).
      cbn [enc_text]. unfold quad_chars. cbn [firstn app length].
      pose proof (not_pad _ R3) as N3. pose proof (not_pad _ R4) as N4.
      unfold count_pad, load in *. cbn [Nat.sub nth Nat.leb andb].
      rewrite N3, N4. reflexivity.
    + rewrite <- E in *.
      assert (Hrest : rest <> []) by (rewrite E; discriminate).
      assert (Hpos : (1 <= length rest)%nat) by (rewrite E; simpl; lia).
      clear E.
      cbn [enc_text dec_raw]. rewrite length_app.
      rewrite count_pad_shift by (rewrite enc_text_length; dlia).
      rewrite IH by assumption. cbn [length]. lia.
Qed.

Lemma dec_raw_prefix (data : list Z) :
  firstn (length data) (dec_raw data) = data.
Proof.
  induction data as [| a | a b | a b c rest IH] using list_ind3;
    try reflexivity.
  cbn [dec_raw length firstn]. rewrite IH. reflexivity.
Qed.

(** The decoder on encoded text: the array it returns and its length. *)
Lemma decode_enc_text (junk : Z) (data tail : list Z) :
  Forall is_byte data ->
  data <> [] ->
  aml_pool_base64_decode junk (enc_text data ++ 0 :: tail)
  = DecOk (upd (dec_raw data ++ [junk]) (length data) 0) (length data).
Proof.
  intros Hbytes Hne. unfold aml_pool_base64_decode.
  rewrite cstring_app_nul by apply enc_text_nonzero.
  assert (Hpos : (1 <= length data)%nat)
    by (destruct data; [contradiction | simpl; lia]).
  replace (length (enc_text data) =? 0)%nat with false
    by (symmetry; apply Nat.eqb_neq; rewrite enc_text_length; dlia).
  replace (3 * (length (enc_text data) / 4))%nat with (length (dec_raw data))
    by (rewrite enc_text_length, dec_raw_length; dlia).
  unfold pool_bytes. rewrite repeat_app. cbn [repeat].
  pose proof (decode_loop_spec data Hbytes (length (enc_text data)) []
                (repeat junk (length (dec_raw data))) [junk]) as Hloop.
  cbn [app length] in Hloop.
  rewrite Hloop by (try apply repeat_length; lia).
  cbn [Nat.add].
  rewrite count_pad_enc_text by assumption.
  assert (Hle : (length data <= length (dec_raw data))%nat)
    by (rewrite dec_raw_length; dlia).
  replace (length (dec_raw data) - (length (dec_raw data) - length data))%nat
    with (length data) by lia.
  replace (length data <? length (dec_raw data) + 1)%nat with true
    by (symmetry; apply Nat.ltb_lt; lia).
  reflexivity.
Qed.

(** C2. Base64 round trip: for every byte sequence [x], decoding the
    encoding of [x] succeeds (no store leaves an allocation, the result is
    not the failure indication), reports the output length [|x|] and returns
    exactly the bytes of [x]; encoding the empty input yields a non-null
    string of length zero, and decoding the empty string yields a non-null
    result of length zero. *)
Theorem C2_base64_roundtrip (junk : Z) (x : list Z) :
  Forall is_byte x ->
  (exists encoded decoded,
      aml_pool_base64_encode junk x = Some encoded /\
      aml_pool_base64_decode junk encoded = DecOk decoded (length x) /\
      firstn (length x) decoded = x) /\
  (exists empty,
      aml_pool_base64_encode junk [] = Some empty /\ strlen empty = 0%nat) /\
  (forall tail, exists empty,
      aml_pool_base64_decode junk (0 :: tail) = DecOk empty 0).
Proof.
  intros Hbytes. split; [| split].
  - exists (enc_text x ++ [0]).
    destruct x as [| a x'] eqn:E.
    + exists [0]. repeat split; reflexivity.
    + rewrite <- E in *.
      exists (upd (dec_raw x ++ [junk]) (length x) 0).
      split; [apply encode_spec |]. split.
      * apply decode_enc_text; [assumption | rewrite E; discriminate].
      * rewrite firstn_upd_same.
        rewrite firstn_app.
        replace (length x - length (dec_raw x))%nat with 0%nat
          by (rewrite dec_raw_length; dlia).
        rewrite dec_raw_prefix. cbn [firstn]. apply app_nil_r.
  - exists [0]. split; reflexivity.
  - intros tail. exists [0]. reflexivity.
Qed.

(** The round trip on the six bytes of the test suite. *)
Lemma C2_base64_roundtrip_witness :
  Forall is_byte [0; 255; 16; 126; 128; 170] /\
  exists encoded decoded,
    aml_pool_base64_encode 0 [0; 255; 16; 126; 128; 170] = Some encoded /\
    aml_pool_base64_decode 0 encoded = DecOk decoded 6 /\
    firstn 6 decoded = [0; 255; 16; 126; 128; 170].
Proof.
  assert (H : Forall is_byte [0; 255; 16; 126; 128; 170])
    by (repeat apply Forall_cons; try apply Forall_nil; unfold is_byte; lia).
  split; [exact H |].
  exact (proj1 (C2_base64_roundtrip 0 [0; 255; 16; 126; 128; 170] H)).
Defined.

(** *** The decoder on arbitrary text *)

Lemma all_bytes_alphabet_ok : forallb alphabet_ok (seq 0 256) = true.
Proof. vm_compute. reflexivity. Qed.

Lemma dec_table_alphabet (c : Z) :
  is_byte c ->
  (load b64_dec_table (Z.to_nat c) =? 255) = negb (in_alphabet c).
Proof.
  intros Hc. unfold is_byte in Hc.
  pose proof all_bytes_alphabet_ok as H.
  rewrite forallb_forall in H.
  specialize (H (Z.to_nat c)).
  assert (Hin : In (Z.to_nat c) (seq 0 256)) by (apply in_seq; lia).
  apply H in Hin. unfold alphabet_ok in Hin.
  rewrite Z2Nat.id in Hin by lia.
  apply Bool.eqb_prop in Hin. exact Hin.
Qed.

Lemma valid_char_alphabet (c : Z) :
  is_byte c -> valid_char c = (c =? PAD) || in_alphabet c.
Proof.
  intros Hc. unfold valid_char. rewrite dec_table_alphabet by assumption.
  rewrite negb_involutive. reflexivity.
Qed.

Lemma forallb_firstn_skipn (f : Z -> bool) (n : nat) (s : list Z) :
  forallb f s = forallb f (firstn n s) && forallb f (skipn n s).
Proof.
  rewrite <- forallb_app, firstn_skipn. reflexivity.
Qed.

Lemma decode_quad_spec (n : nat) :
  forall shift val s,
    if forallb valid_char (firstn n s)
    then exists v, decode_quad n shift val s = Some (v, skipn n s)
    else decode_quad n shift val s = None.
Proof.
  induction n as [| n IH]; intros shift val s.
  - cbn. exists val. reflexivity.
  - destruct s as [| c rest].
    + cbn. exists val. reflexivity.
    + cbn [firstn forallb skipn decode_quad]. unfold valid_char at 1.
      destruct (c =? PAD); cbn [orb andb].
      * apply IH.
      * destruct (load b64_dec_table (Z.to_nat c) =? 255); cbn [negb andb].
        -- reflexivity.
        -- apply IH.
Qed.

Lemma decode_out_ok (d : list Z) (j : nat) (v : Z) :
  (j + 3 <= length d)%nat ->
  exists d', decode_out d j v = Some d' /\ length d' = length d.
Proof.
  intros H. unfold decode_out, store.
  replace (j <? length d)%nat with true by (symmetry; apply Nat.ltb_lt; lia).
  rewrite !upd_length.
  replace (j + 1 <? length d)%nat with true
    by (symmetry; apply Nat.ltb_lt; lia).
  rewrite !upd_length.
  replace (j + 2 <? length d)%nat with true
    by (symmetry; apply Nat.ltb_lt; lia).
  eexists. split; [reflexivity |]. rewrite !upd_length. reflexivity.
Qed.

Lemma decode_out_overrun (d : list Z) (j : nat) (v : Z) :
  (length d < j + 3)%nat -> decode_out d j v = None.
Proof.
  intros H. unfold decode_out, store.
  destruct (j <? length d)%nat eqn:E0; [| reflexivity].
  rewrite !upd_length.
  destruct (j + 1 <? length d)%nat eqn:E1; [| reflexivity].
  rewrite !upd_length.
  destruct (j + 2 <? length d)%nat eqn:E2; [| reflexivity].
  apply Nat.ltb_lt in E2. lia.
Qed.

(** The chunk loop on any text, in an array of [3 * (n / 4) + 1] bytes
    past [j]: failure on an unaccepted byte, else three bytes per group of
    four, else (a last group of fewer than four) a store past the array. *)
Lemma decode_loop_outcome (fuel : nat) :
  forall s j d,
    (length s <= fuel)%nat ->
    length d = (j + 3 * (length s / 4) + 1)%nat ->
    if forallb valid_char s then
      if (length s mod 4 =? 0)%nat then
        exists d', decode_loop fuel s j d
                   = LDone (j + 3 * (length s / 4)) d' /\
                   length d' = length d
      else decode_loop fuel s j d = LOverrun
    else decode_loop fuel s j d = LInvalid.
Proof.
  induction fuel as [| fuel IH]; intros s j d Hfuel Hlen.
  - destruct s; [| simpl in Hfuel; lia].
    cbn. exists d. rewrite Nat.add_0_r. split; reflexivity.
  - destruct s as [| c s'] eqn:E.
    + cbn. exists d. rewrite Nat.add_0_r. split; reflexivity.
    + rewrite <- E in *.
      assert (Hpos : (1 <= length s)%nat) by (rewrite E; simpl; lia).
      rewrite (forallb_firstn_skipn valid_char 4 s).
      pose proof (decode_quad_spec 4 18 0 s) as Hq.
      replace (decode_loop (S fuel) s j d)
        with (match decode_quad 4 18 0 s with
              | None => LInvalid
              | Some (val, rest) =>
                  match decode_out d j val with
                  | None => LOverrun
                  | Some decoded' => decode_loop fuel rest (j + 3) decoded'
                  end
              end) by (rewrite E; reflexivity).
      clear E.
      destruct (forallb valid_char (firstn 4 s)); cbn [andb].
      * destruct Hq as [v ->].
        destruct (Nat.le_gt_cases 4 (length s)) as [Hge | Hlt].
        -- destruct (decode_out_ok d j v) as (d' & -> & Hd'); [dlia |].
           specialize (IH (skipn 4 s) (j + 3)%nat d').
           rewrite length_skipn in IH.
           replace ((length s - 4) mod 4)%nat with (length s mod 4)%nat
             in IH by dlia.
           replace (j + 3 + 3 * ((length s - 4) / 4))%nat
             with (j + 3 * (length s / 4))%nat in IH by dlia.
           rewrite Hd' in IH. apply IH; lia.
        -- rewrite decode_out_overrun by dlia.
           rewrite skipn_all2 by lia. cbn [forallb].
           replace (length s mod 4 =? 0)%nat with false
             by (symmetry; apply Nat.eqb_neq; dlia).
           reflexivity.
      * rewrite Hq. reflexivity.
Qed.

(** The three outcomes of the decoder. *)
Lemma decode_outcome (junk : Z) (b64 : list Z) :
  let str := cstring b64 in
  let n := length str in
  if forallb valid_char str then
    if (n mod 4 =? 0)%nat then
      exists d, aml_pool_base64_decode junk b64
                = DecOk d (3 * (n / 4) - count_pad str n)
    else aml_pool_base64_decode junk b64 = DecOverrun
  else aml_pool_base64_decode junk b64 = DecNull.
Proof.
  intros str n. unfold aml_pool_base64_decode. fold str. fold n.
  destruct (n =? 0)%nat eqn:E0.
  - apply Nat.eqb_eq in E0.
    assert (Hnil : str = []) by (destruct str; [reflexivity | discriminate]).
    rewrite Hnil, E0. cbn. exists [0]. reflexivity.
  - pose proof (decode_loop_outcome n str 0 (pool_bytes junk (3 * (n / 4) + 1)))
      as H.
    unfold pool_bytes in *. rewrite repeat_length in H.
    specialize (H (Nat.le_refl _) eq_refl).
    fold n in H.
    destruct (forallb valid_char str).
    + destruct (n mod 4 =? 0)%nat.
      * destruct H as (d' & -> & Hd'). cbn [Nat.add].
        destruct (3 * (n / 4) - count_pad str n <? 3 * (n / 4) + 1)%nat;
          eexists; reflexivity.
      * rewrite H. reflexivity.
    + rewrite H. reflexivity.
Qed.

Lemma forallb_false_witness (f : Z -> bool) (l : list Z) :
  forallb f l = false -> exists x, In x l /\ f x = false.
Proof.
  induction l as [| x l IH]; cbn [forallb]; intros H.
  - discriminate.
  - destruct (f x) eqn:E.
    + destruct (IH H) as (y & Hy & Hf). exists y. split; [right |]; assumption.
    + exists x. split; [left; reflexivity | exact E].
Qed.

Lemma cstring_bytes (a : list Z) : Forall is_byte a -> Forall is_byte (cstring a).
Proof.
  induction 1 as [| c t Hc _ IH]; cbn [cstring].
  - constructor.
  - destruct (c =? 0); constructor; assumption.
Qed.

Lemma count_pad_trailing (s : list Z) :
  pad_is_suffix s = true -> count_pad s (length s) = trailing_pad s.
Proof.
  unfold pad_is_suffix, trailing_pad, count_pad.
  destruct (rev s) as [| c1 [| c2 r]] eqn:E.
  - apply (f_equal (@rev Z)) in E. rewrite rev_involutive in E. subst s.
    reflexivity.
  - apply (f_equal (@rev Z)) in E. rewrite rev_involutive in E. subst s.
    cbn. destruct (c1 =? PAD); reflexivity.
  - apply (f_equal (@rev Z)) in E. rewrite rev_involutive in E. subst s.
    cbn [rev]. rewrite <- app_assoc. cbn [app].
    rewrite length_app. cbn [length].
    replace (length (rev r) + 2 - 1)%nat with (length (rev r) + 1)%nat by lia.
    replace (length (rev r) + 2 - 2)%nat with (length (rev r) + 0)%nat by lia.
    rewrite !load_app_r. unfold load. cbn [nth].
    assert (E1 : (1 <=? length (rev r) + 2)%nat = true)
      by (apply Nat.leb_le; lia).
    assert (E2 : (2 <=? length (rev r) + 2)%nat = true)
      by (apply Nat.leb_le; lia).
    rewrite E1, E2. cbn [andb].
    destruct (c2 =? PAD); intros H.
    + rewrite H. reflexivity.
    + destruct (c1 =? PAD); reflexivity.
Qed.

(** The sentence of the specification on the output length, read on the
    text "AB=C": every byte is accepted and no ['='] ends the text, so the
    sentence promises the three bytes of one group; the decoder counts the
    ['='] before the last byte and reports two.  On "QQ", accepted too, the
    stores of the one group leave the allocation of one byte. *)
Lemma C9_counterexample :
  let b64 := bytes_of_string "AB=C" in
  Forall is_byte b64 /\
  forallb (fun c => (c =? PAD) || in_alphabet c) (cstring b64) = true /\
  trailing_pad (cstring b64) = 0%nat /\
  aml_pool_base64_decode 0 b64 = DecOk [0; 16; 0; 0] 2 /\
  ~ (exists d, aml_pool_base64_decode 0 b64
               = DecOk d (3 * ((strlen b64 + 3) / 4) - trailing_pad (cstring b64))) /\
  aml_pool_base64_decode 0 (bytes_of_string "QQ") = DecOverrun.
Proof.
  cbv zeta. split; [| split; [| split; [| split; [| split]]]].
  - repeat apply Forall_cons; try apply Forall_nil; unfold is_byte; cbn; lia.
  - reflexivity.
  - reflexivity.
  - reflexivity.
  - intros [d H]. vm_compute in H. discriminate H.
  - reflexivity.
Qed.

(** C9 (amended). For every non-null input string the decoder returns the
    failure indication exactly when the string holds a byte that is neither
    in the base64 alphabet nor ['=']; for a text whose bytes are all accepted,
    whose length is a multiple of four and whose ['='] form a suffix, it
    returns a non-null result whose length is three bytes per group of four
    less the number of trailing ['='], two at most. *)
Theorem C9_decode_failure_and_length (junk : Z) (b64 : list Z) :
  Forall is_byte b64 ->
  let str := cstring b64 in
  let n := length str in
  (aml_pool_base64_decode junk b64 = DecNull <->
   exists c, In c str /\ c <> PAD /\ in_alphabet c = false) /\
  ((forall c, In c str -> c = PAD \/ in_alphabet c = true) ->
   (n mod 4 = 0)%nat ->
   pad_is_suffix str = true ->
   exists d, aml_pool_base64_decode junk b64
             = DecOk d (3 * (n / 4) - trailing_pad str)).
Proof.
  intros Hbytes str n.
  assert (Hstr : Forall is_byte str) by (apply cstring_bytes; assumption).
  rewrite Forall_forall in Hstr.
  pose proof (decode_outcome junk b64) as Hout. cbv zeta in Hout.
  fold str in Hout. fold n in Hout.
  split.
  - destruct (forallb valid_char str) eqn:Hv.
    + split.
      * intros Hnull. destruct (n mod 4 =? 0)%nat.
        -- destruct Hout as [d Hd]. congruence.
        -- congruence.
      * intros (c & Hin & Hpad & Halpha).
        rewrite forallb_forall in Hv. specialize (Hv c Hin).
        rewrite valid_char_alphabet in Hv by (apply Hstr; assumption).
        rewrite Halpha in Hv.
        destruct (Z.eqb_spec c PAD); [contradiction | discriminate].
    + split; [| intros _; exact Hout].
      intros _. apply forallb_false_witness in Hv.
      destruct Hv as (c & Hin & Hc). exists c.
      rewrite valid_char_alphabet in Hc by (apply Hstr; assumption).
      apply orb_false_iff in Hc. destruct Hc as [Hp Ha].
      apply Z.eqb_neq in Hp. repeat split; assumption.
  - intros Hvalid Hmod Hsuffix.
    assert (Hv : forallb valid_char str = true).
    { apply forallb_forall. intros c Hin.
      rewrite valid_char_alphabet by (apply Hstr; assumption).
      destruct (Hvalid c Hin) as [-> | ->]; [reflexivity | apply orb_true_r]. }
    rewrite Hv in Hout. rewrite Hmod in Hout. cbn [Nat.eqb] in Hout.
    rewrite <- (count_pad_trailing str Hsuffix). exact Hout.
Qed.

(** The amended statement on "SGk=", the encoding of "Hi". *)
Lemma C9_decode_failure_and_length_witness :
  let b64 := bytes_of_string "SGk=" ++ [0] in
  Forall is_byte b64 /\
  (aml_pool_base64_decode 0 b64 = DecNull <->
   exists c, In c (cstring b64) /\ c <> PAD /\ in_alphabet c = false) /\
  exists d, aml_pool_base64_decode 0 b64
            = DecOk d (3 * (4 / 4) - trailing_pad (cstring b64)).
Proof.
  cbv zeta.
  assert (H : Forall is_byte (bytes_of_string "SGk=" ++ [0]))
    by (repeat apply Forall_cons; try apply Forall_nil; unfold is_byte;
        cbn; lia).
  split; [exact H |].
  destruct (C9_decode_failure_and_length 0 _ H) as [Hiff Hlen].
  split; [exact Hiff |].
  assert (Hvalid : forall c,
             In c (cstring (bytes_of_string "SGk=" ++ [0])) ->
             c = PAD \/ in_alphabet c = true).
  { intros c Hin. cbn in Hin.
    destruct Hin as [<- | [<- | [<- | [<- | []]]]];
      (left; reflexivity) || (right; reflexivity). }
  exact (Hlen Hvalid eq_refl eq_refl).
Defined.

Lemma table_in_alphabet :
  forallb (fun n => in_alphabet (load b64_table n)) (seq 0 64) = true.
Proof. vm_compute. reflexivity. Qed.

Lemma sextet_char_in_alphabet (t : Z) :
  in_alphabet (load b64_table (Z.to_nat (Z.land t 63))) = true.
Proof.
  pose proof table_in_alphabet as H. rewrite forallb_forall in H.
  apply H. apply in_seq.
  rewrite sextet0_arith.
  pose proof (Z.mod_pos_bound t 64 ltac:(lia)). lia.
Qed.

Lemma quad_chars_in_alphabet (t : Z) :
  Forall (fun c => in_alphabet c = true) (quad_chars t).
Proof.
  unfold quad_chars. repeat constructor; apply sextet_char_in_alphabet.
Qed.

Lemma enc_text_shape (data : list Z) :
  exists body,
    enc_text data = body ++ repeat PAD (pad_count (length data)) /\
    Forall (fun c => in_alphabet c = true) body.
Proof.
  induction data as [| a | a b | a b c rest IH] using list_ind3.
  - exists []. split; [reflexivity | constructor].
  - exists (firstn 2 (quad_chars (triple_of a 0 0))).
    split; [reflexivity |].
    unfold quad_chars. cbn [firstn].
    repeat constructor; apply sextet_char_in_alphabet.
  - exists (firstn 3 (quad_chars (triple_of a b 0))).
    split; [reflexivity |].
    unfold quad_chars. cbn [firstn].
    repeat constructor; apply sextet_char_in_alphabet.
  - destruct IH as (body & Hb & Hall).
    exists (quad_chars (triple_of a b c) ++ body).
    split.
    + cbn [enc_text]. rewrite Hb, <- app_assoc. do 2 f_equal.
      unfold pad_count. cbn [length]. f_equal. dlia.
    + apply Forall_app. split; [apply quad_chars_in_alphabet | exact Hall].
Qed.

(** X6. The encoder on any data: it returns, without a store outside its
    allocation, a text of [4 * ceil(n / 3)] characters followed by the
    terminator; the text is made of characters of the base64 alphabet and
    then of as many ['='] as bytes are missing to a multiple of three (none,
    one or two). *)
Theorem encode_text_shape (junk : Z) (data : list Z) :
  exists body,
    aml_pool_base64_encode junk data
    = Some (body ++ repeat PAD (pad_count (length data)) ++ [0]) /\
    Forall (fun c => in_alphabet c = true) body /\
    (length body + pad_count (length data)
     = 4 * ((length data + 2) / 3))%nat /\
    (pad_count (length data) <= 2)%nat.
Proof.
  destruct (enc_text_shape data) as (body & Hb & Hall).
  exists body. rewrite encode_spec, Hb, <- app_assoc.
  split; [reflexivity |]. split; [exact Hall |].
  split.
  - rewrite <- (enc_text_length data), Hb, length_app, repeat_length.
    reflexivity.
  - unfold pad_count. dlia.
Qed.

(** X7. The decoder stores beyond the array it allocated exactly on the
    texts made of accepted characters (alphabet and ['=']) whose length is
    not a multiple of four: it allocates [3 * (n / 4) + 1] bytes and writes
    three bytes for the incomplete group as well. *)
Theorem decode_overrun_iff (junk : Z) (b64 : list Z) :
  Forall is_byte b64 ->
  let str := cstring b64 in
  aml_pool_base64_decode junk b64 = DecOverrun <->
  (forall c, In c str -> c = PAD \/ in_alphabet c = true) /\
  (length str mod 4 <> 0)%nat.
Proof.
  intros Hbytes str.
  assert (Hstr : Forall is_byte str) by (apply cstring_bytes; assumption).
  rewrite Forall_forall in Hstr.
  pose proof (decode_outcome junk b64) as Hout. cbv zeta in Hout.
  fold str in Hout.
  assert (Hvalid : forallb valid_char str = true <->
                   forall c, In c str -> c = PAD \/ in_alphabet c = true).
  { rewrite forallb_forall. split; intros H c Hin.
    - specialize (H c Hin).
      rewrite valid_char_alphabet in H by (apply Hstr; assumption).
      apply orb_true_iff in H. destruct H as [H | H]; [left | right; exact H].
      apply Z.eqb_eq. exact H.
    - rewrite valid_char_alphabet by (apply Hstr; assumption).
      destruct (H c Hin) as [-> | ->]; [reflexivity | apply orb_true_r]. }
  destruct (forallb valid_char str) eqn:Hv.
  - destruct (Nat.eqb_spec (length str mod 4) 0) as [Hm | Hm].
    + destruct Hout as [d Hd]. rewrite Hd.
      split; [discriminate | intros [_ H]; contradiction].
    + split; [| intros _; exact Hout].
      intros _. split; [apply Hvalid; reflexivity | exact Hm].
  - rewrite Hout. split; [discriminate |].
    intros [H _]. apply Hvalid in H. discriminate.
Qed.

Lemma decode_overrun_iff_witness :
  aml_pool_base64_decode 0 [81; 81; 0] = DecOverrun <->
  (forall c, In c (cstring [81; 81; 0]) -> c = PAD \/ in_alphabet c = true) /\
  Nat.modulo (length (cstring [81; 81; 0])) 4 <> 0%nat.
Proof.
  apply (decode_overrun_iff 0 [81; 81; 0]).
  repeat constructor; unfold is_byte; lia.
Defined.

End Base64Facts.


(** ** Tokenizers *)

Module SplitFacts.
Import Split.

Lemma segments_nonempty (d : Z) (s : list Z) : segments d s <> [].
Proof.
  destruct s as [| c s']; cbn [segments]; [discriminate |].
  destruct (c =? d); [discriminate |].
  destruct (segments d s'); discriminate.
Qed.

Lemma join_segments (d : Z) (s : list Z) : join d (segments d s) = s.
Proof.
  induction s as [| c s' IH]; [reflexivity |].
  cbn [segments].
  pose proof (segments_nonempty d s') as Hne.
  destruct (Z.eqb_spec c d) as [-> | Hcd].
  - destruct (segments d s') as [| seg segs] eqn:E; [contradiction |].
    cbn [join app]. cbn [join] in IH. rewrite IH. reflexivity.
  - destruct (segments d s') as [| seg segs] eqn:E; [contradiction |].
    destruct segs as [| seg' segs'].
    + cbn [join] in *. rewrite IH. reflexivity.
    + cbn [join] in *. rewrite <- IH. reflexivity.
Qed.

Lemma occurrences_cons (d c : Z) (s : list Z) :
  occurrences d (c :: s)
  = ((if Z.eqb c d then 1 else 0) + occurrences d s)%nat.
Proof.
  unfold occurrences. cbn [count_occ].
  destruct (Z.eq_dec c d) as [E | E].
  - rewrite (proj2 (Z.eqb_eq c d) E). reflexivity.
  - rewrite (proj2 (Z.eqb_neq c d) E). reflexivity.
Qed.

Lemma segments_length (d : Z) (s : list Z) :
  length (segments d s) = S (occurrences d s).
Proof.
  induction s as [| c s' IH]; [reflexivity |].
  rewrite occurrences_cons. cbn [segments].
  destruct (c =? d).
  - cbn [length]. rewrite IH. reflexivity.
  - pose proof (segments_nonempty d s') as Hne.
    destruct (segments d s') as [| seg segs]; [contradiction |].
    cbn [length] in *. lia.
Qed.

Lemma count_splits_spec (d : Z) (p : list Z) :
  forall num, count_splits d p num = (num + occurrences d (cstring p))%nat.
Proof.
  induction p as [| c p' IH]; intros num; cbn [count_splits cstring].
  - unfold occurrences. cbn. lia.
  - destruct (c =? 0).
    + unfold occurrences. cbn. lia.
    + rewrite IH, occurrences_cons. destruct (Z.eqb c d); lia.
Qed.

Lemma skipn_app_exact (pre b : list Z) : skipn (length pre) (pre ++ b) = b.
Proof. induction pre as [| x pre IH]; [reflexivity | exact IH]. Qed.

Lemma token_at_app (pre b : list Z) : token_at (pre ++ b) (length pre) = cstring b.
Proof. unfold token_at. rewrite skipn_app_exact. reflexivity. Qed.

Lemma tokens_of_some (buf : list Z) (offs : list nat) :
  tokens_of buf (map Some offs ++ [None]) = map (token_at buf) offs.
Proof.
  induction offs as [| o offs IH]; [reflexivity |].
  cbn [map app tokens_of]. rewrite IH. reflexivity.
Qed.

(** The second loop on a terminated text: the rewritten text holds the first
    segment, and the stored pointers address the other segments. *)
Lemma split_loop_spec (d : Z) (s : list Z) :
  Forall (fun c => c <> 0) s ->
  forall pre tail,
  exists b offs,
    split_loop d (s ++ 0 :: tail) (length pre) = (b, map Some offs) /\
    cstring b = hd [] (segments d s) /\
    map (token_at (pre ++ b)) offs = tl (segments d s).
Proof.
  induction 1 as [| c s' Hc _ IH]; intros pre tail.
  - exists (0 :: tail), []. repeat split.
  - cbn [app split_loop segments].
    destruct (Z.eqb_spec c 0); [contradiction |].
    destruct (IH (pre ++ [c]) tail) as (b & offs & Hloop & Hhd & Htl).
    pose proof (segments_nonempty d s') as Hne.
    replace (S (length pre)) with (length (pre ++ [c]))
      by (rewrite length_app; cbn; lia).
    destruct (Z.eqb_spec c d) as [Hcd | Hcd].
    + destruct (IH (pre ++ [0]) tail) as (b0 & offs0 & Hloop0 & Hhd0 & Htl0).
      rewrite length_app in Hloop, Hloop0 |- *. cbn [length] in *.
      rewrite Hloop0.
      exists (0 :: b0), (S (length pre) :: offs0).
      split; [rewrite Nat.add_1_r; reflexivity |].
      split; [reflexivity |].
      cbn [tl map].
      replace (pre ++ 0 :: b0) with ((pre ++ [0]) ++ b0)
        by (rewrite <- app_assoc; reflexivity).
      rewrite Htl0.
      replace (S (length pre)) with (length (pre ++ [0]))
        by (rewrite length_app; cbn; lia).
      rewrite token_at_app, Hhd0.
      destruct (segments d s'); [contradiction | reflexivity].
    + rewrite Hloop.
      exists (c :: b), offs.
      split; [reflexivity |].
      replace (pre ++ c :: b) with ((pre ++ [c]) ++ b)
        by (rewrite <- app_assoc; reflexivity).
      rewrite Htl. cbn [cstring].
      destruct (Z.eqb_spec c 0); [contradiction |].
      rewrite Hhd.
      destruct (segments d s'); [contradiction |]. split; reflexivity.
Qed.

(** C7. The plain splitter: for every non-null input string and every
    delimiter it returns one token more than the delimiter occurs in the
    string, the tokens are the segments between the delimiters (empty ones
    included), the pointer array ends in NULL, and joining the tokens with
    the delimiter gives the string back; "a,b,,c," yields the five tokens
    "a", "b", "", "c", "". *)
Theorem C7_split_roundtrip (d : Z) (p : list Z) :
  let s := cstring p in
  let res := aml_pool_split d (Some p) in
  (exists offs,
      sr_array res = map Some offs ++ [None] /\
      length offs = S (occurrences d s)) /\
  sr_num res = S (occurrences d s) /\
  tokens_of (sr_buf res) (sr_array res) = segments d s /\
  join d (tokens_of (sr_buf res) (sr_array res)) = s /\
  map (fun t => bytes_of_string t) ["a"; "b"; ""; "c"; ""]%string
  = let ex := aml_pool_split 44 (Some (bytes_of_string "a,b,,c,")) in
    tokens_of (sr_buf ex) (sr_array ex).
Proof.
  intros s res.
  assert (Htok : exists offs,
             sr_array res = map Some offs ++ [None] /\
             tokens_of (sr_buf res) (sr_array res) = segments d s /\
             sr_num res = S (occurrences d s)).
  { subst res. unfold aml_pool_split, _aml_pool_split, aml_pool_strdup.
    cbn [option_map]. fold s.
    rewrite count_splits_spec.
    rewrite (cstring_app_nul s []) by apply cstring_nonzero.
    destruct (split_loop_spec d s (cstring_nonzero p) [] [])
      as (b & offs & Hloop & Hhd & Htl).
    cbn [length app] in Hloop, Htl. rewrite Hloop.
    cbn [sr_array sr_buf sr_num].
    exists (0%nat :: offs). split; [reflexivity |].
    split; [| reflexivity].
    change (Some 0%nat :: map Some offs ++ [None])
      with (map Some (0%nat :: offs) ++ [None]).
    rewrite tokens_of_some. cbn [map]. rewrite Htl.
    change (token_at b 0) with (cstring b). rewrite Hhd.
    pose proof (segments_nonempty d s) as Hne.
    destruct (segments d s); [contradiction | reflexivity]. }
  destruct Htok as (offs & Harr & Htoks & Hnum).
  split; [| split; [| split; [| split]]].
  - exists offs. split; [exact Harr |].
    rewrite <- (segments_length d s), <- Htoks, Harr, tokens_of_some.
    rewrite length_map. reflexivity.
  - exact Hnum.
  - exact Htoks.
  - rewrite Htoks. apply join_segments.
  - reflexivity.
Qed.

(** C8. The escape-aware splitter on [a\,b,c\\,d\,\,e] with delimiter
    [','] and escape ['\']: exactly three tokens, "a,b", then "c" followed
    by one backslash, then "d,,e"; the escape characters are gone and the
    escaped delimiters stay inside their token. *)
Theorem C8_escape_split_example :
  exists res,
    aml_pool_split_with_escape 44 92
      (Some (bytes_of_string "a\,b,c\\,d\,\,e")) = Some res /\
    sr_num res = 3%nat /\
    sr_array res = [Some 0%nat; Some 4%nat; Some 7%nat; None] /\
    tokens_of (sr_buf res) (sr_array res)
    = [bytes_of_string "a,b"; bytes_of_string "c\"; bytes_of_string "d,,e"].
Proof.
  eexists. split; [vm_compute; reflexivity |].
  repeat split.
Qed.

(** *** Dropping the empty tokens *)

Lemma tokens_of_some_none (buf : list Z) (offs : list nat)
  (rest : list (option nat)) :
  tokens_of buf (map Some offs ++ None :: rest) = map (token_at buf) offs.
Proof.
  induction offs as [| o offs IH]; [reflexivity |].
  cbn [map app tokens_of]. rewrite IH. reflexivity.
Qed.

Lemma token_at_empty (buf : list Z) (o : nat) :
  (o < length buf)%nat ->
  token_at buf o = [] <-> nth o buf 0 = 0.
Proof.
  unfold token_at. revert o. induction buf as [| c buf IH]; intros o Ho.
  - cbn in Ho. lia.
  - destruct o as [| o]; cbn [skipn nth cstring].
    + destruct (Z.eqb_spec c 0); split; congruence.
    + apply IH. cbn in Ho. lia.
Qed.

Lemma kept_tokens (buf : list Z) (offs : list nat) :
  Forall (fun o => (o < length buf)%nat) offs ->
  map (token_at buf) (kept buf offs)
  = nonempty_tokens (map (token_at buf) offs).
Proof.
  induction 1 as [| o offs Ho _ IH]; [reflexivity |].
  cbn [kept filter map nonempty_tokens]. fold (kept buf offs).
  fold (nonempty_tokens (map (token_at buf) offs)).
  pose proof (token_at_empty buf o Ho) as E.
  destruct (Z.eqb_spec (nth o buf 0) 0) as [Hz | Hz]; cbn [negb].
  - rewrite (proj2 E Hz). exact IH.
  - destruct (token_at buf o) eqn:T.
    + exfalso. apply Hz. apply E. reflexivity.
    + cbn [map]. rewrite T, IH. reflexivity.
Qed.

Lemma store_ptr_mid (pre : list (option nat)) (x v : option nat)
  (post : list (option nat)) :
  store_ptr (pre ++ x :: post) (length pre) v = Some (pre ++ v :: post).
Proof.
  unfold store_ptr. rewrite length_app. cbn [length].
  replace (length pre <? length pre + S (length post))%nat with true
    by (symmetry; apply Nat.ltb_lt; lia).
  rewrite firstn_app, Nat.sub_diag, firstn_all. cbn [firstn].
  rewrite app_nil_r.
  replace (S (length pre)) with (length pre + 1)%nat by lia.
  rewrite skipn_app.
  rewrite skipn_all2 by lia.
  replace (length pre + 1 - length pre)%nat with 1%nat by lia.
  reflexivity.
Qed.

Lemma nth_error_mid {A : Type} (pre : list A) (x : A) (post : list A) :
  nth_error (pre ++ x :: post) (length pre) = Some x.
Proof.
  rewrite nth_error_app2 by lia. rewrite Nat.sub_diag. reflexivity.
Qed.

Lemma nth_mid {A : Type} (pre : list A) (x d : A) (post : list A) :
  nth (length pre) (pre ++ x :: post) d = x.
Proof.
  rewrite app_nth2 by lia. rewrite Nat.sub_diag. reflexivity.
Qed.

Lemma nth_error_in_range (buf : list Z) (o : nat) :
  (o < length buf)%nat -> nth_error buf o = Some (nth o buf 0).
Proof. intros H. apply nth_error_nth'. exact H. Qed.

(** The loop keeps, in front, the entries whose token is not empty; the
    cells between the write and the read position hold stale entries. *)
Lemma compact_loop_spec (buf : list Z) (rest : list nat) :
  Forall (fun o => (o < length buf)%nat) rest ->
  forall (front : list nat) (stale : list (option nat)),
  exists stale',
    compact_loop buf (map Some front ++ stale ++ map Some rest ++ [None])
      (length front) (length front + length stale) (length rest)
    = Some (map Some (front ++ kept buf rest) ++ stale' ++ [None],
            length (front ++ kept buf rest)) /\
    (length (front ++ kept buf rest) + length stale'
     = length front + length stale + length rest)%nat.
Proof.
  induction 1 as [| o rest Ho _ IH]; intros front stale.
  - exists stale. cbn [compact_loop kept filter map app length].
    rewrite !app_nil_r. split; [reflexivity | lia].
  - cbn [compact_loop length map].
    assert (Hrd : nth_error
              (map Some front ++ stale ++ (Some o :: map Some rest) ++ [None])
              (length front + length stale) = Some (Some o)).
    { rewrite app_assoc.
      replace (length front + length stale)%nat
        with (length (map Some front ++ stale))
        by (rewrite length_app, length_map; reflexivity).
      cbn [app]. apply nth_error_mid. }
    unfold first_char. cbn [app] in *. rewrite Hrd.
    rewrite (nth_error_in_range buf o Ho).
    cbn [kept filter]. fold (kept buf rest).
    destruct (Z.eqb_spec (nth o buf 0) 0) as [Hz | Hz]; cbn [negb].
    + destruct (IH front (stale ++ [Some o])) as (stale' & Hl & Hlen).
      exists stale'.
      rewrite (length_app stale [Some o]) in Hl, Hlen.
      cbn [length] in Hl, Hlen.
      replace (S (length front + length stale))
        with (length front + (length stale + 1))%nat by lia.
      rewrite <- app_assoc in Hl. cbn [app] in Hl.
      rewrite Hl. split; [reflexivity | lia].
    + assert (Hnth : nth (length front + length stale)
                (map Some front ++ stale ++ Some o :: map Some rest ++ [None])
                None = Some o).
      { rewrite app_assoc.
        replace (length front + length stale)%nat
          with (length (map Some front ++ stale))
          by (rewrite length_app, length_map; reflexivity).
        apply nth_mid. }
      rewrite Hnth.
      destruct (IH (front ++ [o]) (tl (stale ++ [Some o])))
        as (stale' & Hl & Hlen).
      exists stale'.
      assert (Hst : store_ptr
                (map Some front ++ stale ++ Some o :: map Some rest ++ [None])
                (length front) (Some o)
              = Some (map Some (front ++ [o]) ++ tl (stale ++ [Some o])
                        ++ map Some rest ++ [None])).
      { rewrite map_app. cbn [map]. rewrite <- app_assoc. cbn [app].
        replace (length front) with (length (map Some front))
          by apply length_map.
        destruct stale as [| x stale]; cbn [app tl].
        - apply store_ptr_mid.
        - rewrite store_ptr_mid. rewrite <- app_assoc. reflexivity. }
      rewrite Hst.
      assert (Hlt : length (tl (stale ++ [Some o])) = length stale).
      { destruct stale; cbn [app tl length]; [reflexivity |].
        rewrite length_app. cbn. lia. }
      rewrite (length_app front [o]) in Hl, Hlen.
      cbn [length] in Hl, Hlen.
      rewrite Hlt in Hl, Hlen.
      replace (S (length front)) with (length front + 1)%nat by lia.
      replace (S (length front + length stale))
        with (length front + 1 + length stale)%nat by lia.
      rewrite Hl. rewrite <- !app_assoc. cbn [app].
      split; [reflexivity |].
      rewrite <- !app_assoc in Hlen. cbn [app] in Hlen. lia.
Qed.

Lemma filter_length_le {A : Type} (f : A -> bool) (l : list A) :
  (length (filter f l) <= length l)%nat.
Proof.
  induction l as [| x l IH]; cbn; [lia |].
  destruct (f x); cbn; lia.
Qed.

(** [drop_empty] on the result of a splitter. *)
Lemma drop_empty_spec (buf : list Z) (offs : list nat) :
  Forall (fun o => (o < length buf)%nat) offs ->
  exists res,
    drop_empty {| sr_array := map Some offs ++ [None]; sr_buf := buf;
                  sr_num := length offs |} = Some res /\
    sr_buf res = buf /\
    tokens_of (sr_buf res) (sr_array res)
    = nonempty_tokens (map (token_at buf) offs) /\
    sr_num res = length (nonempty_tokens (map (token_at buf) offs)) /\
    nth_error (sr_array res) (sr_num res) = Some None.
Proof.
  intros Hoffs.
  destruct (compact_loop_spec buf offs Hoffs [] []) as (stale & Hl & Hlen).
  cbn [map app length Nat.add] in Hl, Hlen.
  unfold drop_empty. cbn [sr_array sr_buf sr_num]. rewrite Hl.
  assert (Hk : length (map (token_at buf) (kept buf offs))
               = length (kept buf offs)) by apply length_map.
  rewrite (kept_tokens buf offs Hoffs) in Hk.
  replace (length (kept buf offs))
    with (length (map (@Some nat) (kept buf offs)))
    by apply length_map.
  destruct stale as [| x stale]; cbn [app].
  - rewrite store_ptr_mid. eexists. split; [reflexivity |].
    cbn [sr_array sr_buf sr_num].
    split; [reflexivity |].
    rewrite tokens_of_some_none, nth_error_mid, length_map.
    rewrite (kept_tokens buf offs Hoffs). repeat split. symmetry. exact Hk.
  - rewrite store_ptr_mid. eexists. split; [reflexivity |].
    cbn [sr_array sr_buf sr_num].
    split; [reflexivity |].
    rewrite tokens_of_some_none, nth_error_mid, length_map.
    rewrite (kept_tokens buf offs Hoffs). repeat split. symmetry. exact Hk.
Qed.


Lemma split_loop_bounds (d : Z) (s : list Z) :
  Forall (fun c => c <> 0) s ->
  forall pos tail b wr,
    split_loop d (s ++ 0 :: tail) pos = (b, wr) ->
    length b = (length s + S (length tail))%nat /\
    Forall (fun w => exists o, w = Some o /\ (o <= pos + length s)%nat) wr.
Proof.
  induction 1 as [| c s' Hc _ IH]; intros pos tail b wr.
  - cbn [app split_loop Z.eqb]. intros E. inversion E. subst.
    split; [reflexivity | constructor].
  - cbn [app split_loop].
    destruct (Z.eqb_spec c 0); [contradiction |].
    destruct (split_loop d (s' ++ 0 :: tail) (S pos)) as [b' wr'] eqn:E.
    destruct (IH (S pos) tail b' wr' E) as (Hlen & Hwr).
    assert (Hwr' : Forall (fun w => exists o,
                       w = Some o /\ (o <= pos + length (c :: s'))%nat) wr').
    { eapply Forall_impl; [| exact Hwr]. cbn beta.
      intros w (o & -> & Ho). exists o. split; [reflexivity |].
      cbn [length]. lia. }
    destruct (c =? d); intros E'; inversion E'; subst; cbn [length].
    + split; [lia |]. constructor; [| exact Hwr'].
      exists (S pos). split; [reflexivity | lia].
    + split; [lia | exact Hwr'].
Qed.

(** The plain splitter on a terminated text, with the pointers it stores. *)
Lemma split_shape (d : Z) (p : list Z) :
  exists buf offs,
    aml_pool_split d (Some p)
    = {| sr_array := map Some offs ++ [None]; sr_buf := buf;
         sr_num := length offs |} /\
    map (token_at buf) offs = segments d (cstring p) /\
    Forall (fun o => (o < length buf)%nat) offs.
Proof.
  unfold aml_pool_split, _aml_pool_split, aml_pool_strdup.
  cbn [option_map]. set (s := cstring p).
  rewrite count_splits_spec.
  rewrite (cstring_app_nul s []) by apply cstring_nonzero.
  destruct (split_loop_spec d s (cstring_nonzero p) [] [])
    as (b & offs & Hloop & Hhd & Htl).
  cbn [length app] in Hloop, Htl.
  destruct (split_loop_bounds d s (cstring_nonzero p) 0 [] _ _ Hloop)
    as (Hlen & Hwr).
  rewrite Hloop.
  exists b, (0%nat :: offs).
  assert (Hsegs : map (token_at b) (0%nat :: offs) = segments d s).
  { cbn [map]. rewrite Htl.
    change (token_at b 0) with (cstring b). rewrite Hhd.
    pose proof (segments_nonempty d s) as Hne.
    destruct (segments d s); [contradiction | reflexivity]. }
  split; [| split].
  - assert (Hn : length (0%nat :: offs) = (1 + occurrences d s)%nat).
    { rewrite <- (length_map (token_at b)), Hsegs, segments_length.
      reflexivity. }
    rewrite Hn. reflexivity.
  - exact Hsegs.
  - constructor; [rewrite Hlen; lia |].
    apply Forall_forall. intros o Ho.
    rewrite Forall_forall in Hwr.
    destruct (Hwr (Some o) (in_map Some _ _ Ho)) as (o' & E & Hle).
    inversion E. subst o'. rewrite Hlen. cbn [length] in *. lia.
Qed.

(** *** The escape-aware splitter *)

Lemma esc_segments_nonempty (d e : Z) (s : list Z) (esc : bool) :
  esc_segments d e s esc <> [].
Proof.
  revert esc. induction s as [| c s IH]; intros esc; cbn [esc_segments].
  - discriminate.
  - destruct esc.
    + destruct (esc_segments d e s false); discriminate.
    + destruct (c =? e); [apply IH |].
      destruct (c =? d); [discriminate |].
      destruct (esc_segments d e s false); discriminate.
Qed.

Lemma join_cons (d : Z) (t : list Z) (toks : list (list Z)) :
  toks <> [] -> join d (t :: toks) = t ++ d :: join d toks.
Proof. destruct toks; [contradiction | reflexivity]. Qed.

Lemma join_cons_first (d c : Z) (segs : list (list Z)) :
  segs <> [] -> join d (cons_first c segs) = c :: join d segs.
Proof.
  destruct segs as [| seg [| seg' segs]]; [contradiction | |]; reflexivity.
Qed.

Lemma starts_cons_first (pos : nat) (c : Z) (segs : list (list Z)) :
  segs <> [] ->
  tl (starts pos (cons_first c segs)) = tl (starts (S pos) segs).
Proof.
  destruct segs as [| seg segs]; [contradiction |]. intros _.
  cbn [cons_first starts tl length]. f_equal. lia.
Qed.

Lemma starts_nonempty (pos : nat) (segs : list (list Z)) :
  segs <> [] -> starts pos segs = pos :: tl (starts pos segs).
Proof. destruct segs; [contradiction | reflexivity]. Qed.

Lemma length_cons_first (c : Z) (segs : list (list Z)) :
  segs <> [] -> length (cons_first c segs) = length segs.
Proof. destruct segs; [contradiction | reflexivity]. Qed.

Lemma length_starts (pos : nat) (segs : list (list Z)) :
  length (starts pos segs) = length segs.
Proof.
  revert pos. induction segs as [| seg segs IH]; intros pos; cbn;
    [| rewrite IH]; reflexivity.
Qed.

Lemma store_here (done mid R : list Z) (ch x : Z) :
  store (done ++ mid ++ ch :: R) (length done) x
  = Some ((done ++ [x]) ++ tl (mid ++ [ch]) ++ R).
Proof.
  replace (length done) with (length done + 0)%nat by lia.
  rewrite store_app_r. rewrite <- app_assoc.
  destruct mid as [| m mid]; cbn [app tl]; unfold store; cbn.
  - reflexivity.
  - rewrite <- app_assoc. reflexivity.
Qed.

Lemma load_here (done mid R : list Z) (ch : Z) :
  load (done ++ mid ++ ch :: R) (length done + length mid) = ch.
Proof.
  rewrite load_app_r. unfold load. apply nth_mid.
Qed.

Lemma length_tl_snoc (mid : list Z) (ch : Z) :
  length (tl (mid ++ [ch])) = length mid.
Proof.
  destruct mid; cbn [app tl length]; [reflexivity |].
  rewrite length_app. cbn. lia.
Qed.

(** The second pass: [done] is what was written, [mid] the cells between
    the write and the read offset, [rest] the text still to read. *)
Lemma escape_loop_spec (d e : Z) (rest : list Z) :
  Forall (fun c => c <> 0) rest ->
  forall fuel done mid tail res esc slots,
    (length rest < fuel)%nat ->
    (length res + length (esc_segments d e rest esc) <= S slots)%nat ->
    exists mid',
      escape_loop fuel d e slots
        {| es_buf := done ++ mid ++ rest ++ 0 :: tail;
           es_current := length done;
           es_result := res |}
        (length done + length mid) esc
      = Some {| es_buf := (done ++ join 0 (esc_segments d e rest esc))
                          ++ mid' ++ 0 :: tail;
                es_current :=
                  length (done ++ join 0 (esc_segments d e rest esc));
                es_result :=
                  res ++ map Some
                    (tl (starts (length done) (esc_segments d e rest esc))) |}
      /\ (length (join 0 (esc_segments d e rest esc)) + length mid'
          = length mid + length rest)%nat.
Proof.
  induction 1 as [| ch rest Hch _ IH];
    intros fuel done mid tail res esc slots Hfuel Hslots.
  - destruct fuel as [| fuel]; [cbn in Hfuel; lia |].
    exists mid. cbn [escape_loop es_buf esc_segments join starts tl map app].
    rewrite load_here. cbn [Z.eqb].
    rewrite !app_nil_r. split; [reflexivity | cbn; lia].
  - destruct fuel as [| fuel]; [cbn in Hfuel; lia |].
    cbn [length] in Hfuel.
    cbn [escape_loop es_buf es_current es_result app].
    rewrite load_here.
    destruct (Z.eqb_spec ch 0); [contradiction |].
    pose proof (esc_segments_nonempty d e rest false) as Hne.
    assert (Keep : (length res + length (esc_segments d e rest false)
                    <= S slots)%nat ->
            exists mid',
              match store (done ++ mid ++ ch :: rest ++ 0 :: tail)
                      (length done) ch with
              | Some b =>
                  escape_loop fuel d e slots
                    {| es_buf := b; es_current := S (length done);
                       es_result := res |} (S (length done + length mid))
                    false
              | None => None
              end
              = Some {| es_buf :=
                          (done ++ join 0
                             (cons_first ch (esc_segments d e rest false)))
                          ++ mid' ++ 0 :: tail;
                        es_current :=
                          length (done ++ join 0
                             (cons_first ch (esc_segments d e rest false)));
                        es_result :=
                          res ++ map Some
                            (tl (starts (length done)
                               (cons_first ch
                                  (esc_segments d e rest false)))) |}
              /\ (length (join 0
                     (cons_first ch (esc_segments d e rest false)))
                  + length mid' = length mid + S (length rest))%nat).
    { intros Hs.
      rewrite store_here.
      destruct (IH fuel (done ++ [ch]) (tl (mid ++ [ch])) tail res false
                  slots ltac:(lia) Hs) as (mid' & Hl & Hlen).
      rewrite length_app, length_tl_snoc in Hl. cbn [length] in Hl.
      replace (S (length done)) with (length done + 1)%nat by lia.
      replace (S (length done + length mid))
        with (length done + 1 + length mid)%nat by lia.
      exists mid'. rewrite Hl.
      rewrite (join_cons_first 0 ch _ Hne).
      rewrite (starts_cons_first (length done) ch _ Hne).
      rewrite length_tl_snoc in Hlen.
      replace (S (length done)) with (length done + 1)%nat by lia.
      split.
      - f_equal. f_equal.
        + rewrite <- !app_assoc. reflexivity.
        + rewrite <- !app_assoc. reflexivity.
      - cbn [length]. lia. }
    destruct esc.
    + cbn [esc_segments] in Hslots |- *.
      rewrite (length_cons_first ch _ Hne) in Hslots.
      exact (Keep Hslots).
    + cbn [esc_segments] in Hslots |- *.
      destruct (Z.eqb_spec ch e) as [He | He].
      * destruct (IH fuel done (mid ++ [ch]) tail res true slots
                    ltac:(lia) Hslots) as (mid' & Hl & Hlen).
        rewrite length_app in Hl, Hlen. cbn [length] in Hl, Hlen.
        rewrite <- app_assoc in Hl. cbn [app] in Hl.
        replace (S (length done + length mid))
          with (length done + (length mid + 1))%nat by lia.
        exists mid'. rewrite Hl. split; [reflexivity | cbn [length]; lia].
      * destruct (Z.eqb_spec ch d) as [Hd | Hd].
        -- cbn [length] in Hslots.
           rewrite store_here.
           replace (length res <? slots)%nat with true
             by (symmetry; apply Nat.ltb_lt;
                 destruct (esc_segments d e rest false);
                 [contradiction | cbn [length] in Hslots; lia]).
           destruct (IH fuel (done ++ [0]) (tl (mid ++ [ch])) tail
                       (res ++ [Some (S (length done))]) false slots
                       ltac:(lia)
                       ltac:(rewrite length_app; cbn [length]; lia))
             as (mid' & Hl & Hlen).
           rewrite length_app, length_tl_snoc in Hl. cbn [length] in Hl.
           replace (length done + 1)%nat with (S (length done)) in Hl by lia.
           cbn [Nat.add] in Hl.
           exists mid'. rewrite Hl.
           rewrite (join_cons 0 [] _ Hne). cbn [app starts tl length].
           rewrite Nat.add_0_r.
           replace (length done + 1)%nat with (S (length done)) by lia.
           rewrite (starts_nonempty (S (length done)) _ Hne).
           rewrite length_tl_snoc in Hlen.
           split.
           ++ f_equal. f_equal.
              ** rewrite <- !app_assoc. reflexivity.
              ** rewrite <- !app_assoc. reflexivity.
              ** rewrite <- app_assoc. reflexivity.
           ++ cbn [length]. lia.
        -- rewrite (length_cons_first ch _ Hne) in Hslots.
           exact (Keep Hslots).
Qed.

Lemma count_escaped_spec (d e : Z) (s : list Z) :
  Forall (fun c => c <> 0) s ->
  forall tail esc count,
    S (count_escaped d e (s ++ 0 :: tail) esc count)
    = (count + length (esc_segments d e s esc))%nat.
Proof.
  induction 1 as [| c s Hc _ IH]; intros tail esc count.
  - cbn. lia.
  - cbn [app count_escaped esc_segments].
    destruct (Z.eqb_spec c 0); [contradiction |].
    pose proof (esc_segments_nonempty d e s false) as Hne.
    destruct esc.
    + rewrite (length_cons_first c _ Hne). apply IH.
    + destruct (c =? e); [apply IH |].
      destruct (c =? d).
      * cbn [length]. rewrite <- Nat.add_succ_comm. apply IH.
      * rewrite (length_cons_first c _ Hne). apply IH.
Qed.

Lemma esc_segments_nonzero (d e : Z) (s : list Z) :
  Forall (fun c => c <> 0) s ->
  forall esc, Forall (Forall (fun c => c <> 0)) (esc_segments d e s esc).
Proof.
  assert (CF : forall c segs,
             c <> 0 -> Forall (Forall (fun c => c <> 0)) segs ->
             Forall (Forall (fun c => c <> 0)) (cons_first c segs)).
  { intros c [| seg segs] Hc Hs; cbn [cons_first].
    - repeat constructor. exact Hc.
    - inversion Hs; subst. constructor; [constructor |]; assumption. }
  induction 1 as [| c s Hc _ IH]; intros esc; cbn [esc_segments].
  - repeat constructor.
  - destruct esc; [apply CF; auto |].
    destruct (c =? e); [apply IH |].
    destruct (c =? d); [constructor; [constructor | apply IH] |].
    apply CF; auto.
Qed.

(** Tokens laid out one after the other, each with its terminator. *)
Lemma tokens_at_starts (segs : list (list Z)) :
  Forall (Forall (fun c => c <> 0)) segs ->
  forall pre tail,
    map (token_at (pre ++ join 0 segs ++ 0 :: tail))
        (starts (length pre) segs) = segs.
Proof.
  induction 1 as [| seg segs Hseg Hsegs IH]; intros pre tail;
    [reflexivity |].
  cbn [starts map].
  destruct segs as [| seg' segs'].
  - cbn [join starts map]. rewrite token_at_app.
    rewrite cstring_app_nul by exact Hseg. reflexivity.
  - rewrite join_cons by discriminate.
    replace ((seg ++ 0 :: join 0 (seg' :: segs')) ++ 0 :: tail)
      with (seg ++ 0 :: join 0 (seg' :: segs') ++ 0 :: tail)
      by (rewrite <- app_assoc; reflexivity).
    rewrite token_at_app.
    rewrite cstring_app_nul by exact Hseg.
    f_equal.
    specialize (IH (pre ++ seg ++ [0]) tail).
    rewrite !length_app in IH. cbn [length] in IH.
    rewrite Nat.add_assoc in IH.
    rewrite <- !app_assoc in IH. cbn [app] in IH.
    exact IH.
Qed.

Lemma starts_bound (segs : list (list Z)) :
  forall pos,
    Forall (fun o => (o <= pos + length (join 0 segs))%nat)
      (starts pos segs).
Proof.
  induction segs as [| seg segs IH]; intros pos; cbn [starts];
    [constructor |].
  constructor; [lia |].
  destruct segs as [| seg' segs'].
  - constructor.
  - rewrite join_cons by discriminate.
    eapply Forall_impl; [| apply IH]. cbn beta. intros o Ho.
    rewrite length_app. cbn [length]. lia.
Qed.

(** The escape-aware splitter on any text: what it returns. *)
Lemma escape_split_shape (d e : Z) (p : list Z) :
  let segs := esc_segments d e (cstring p) false in
  exists junk,
    aml_pool_split_with_escape d e (Some p)
    = Some {| sr_array := map Some (starts 0 segs) ++ [None];
              sr_buf := join 0 segs ++ 0 :: junk;
              sr_num := length (starts 0 segs) |}.
Proof.
  intros segs.
  unfold aml_pool_split_with_escape, _aml_pool_split_with_escape.
  cbn [option_map]. unfold aml_pool_strdup.
  rewrite (cstring_app_nul (cstring p) []) by apply cstring_nonzero.
  pose proof (count_escaped_spec d e (cstring p) (cstring_nonzero p)
                [] false 1) as Hcount.
  fold segs in Hcount. cbn [Nat.add] in Hcount.
  injection Hcount as Hcount. rewrite Hcount.
  destruct (escape_loop_spec d e (cstring p) (cstring_nonzero p)
              (length (cstring p ++ [0]) + 1) [] [] [] [Some 0%nat] false
              (length segs + 1))
    as (mid' & Hl & Hlen).
  { rewrite length_app. cbn [length]. lia. }
  { fold segs. cbn [length]. lia. }
  fold segs in Hl, Hlen. cbn [app length Nat.add] in Hl.
  rewrite Hl. cbn [es_buf es_current es_result].
  pose proof (esc_segments_nonempty d e (cstring p) false) as Hne.
  fold segs in Hne.
  assert (Hst : store (join 0 segs ++ mid' ++ [0]) (length (join 0 segs)) 0
                = Some (join 0 segs ++ 0 :: tl (mid' ++ [0]))).
  { pose proof (store_app_r (join 0 segs) (mid' ++ [0]) 0 0) as H.
    rewrite Nat.add_0_r in H. rewrite H. destruct mid'; reflexivity. }
  rewrite Hst.
  assert (Hs : starts 0 segs = 0%nat :: tl (starts 0 segs))
    by (apply starts_nonempty; exact Hne).
  assert (Htl : length (tl (starts 0 segs)) = (length segs - 1)%nat).
  { rewrite <- (length_starts 0 segs). rewrite Hs at 2. cbn [length]. lia. }
  set (ptrs := tl (starts 0 segs)) in *. rewrite Hs.
  cbn [length map]. rewrite length_map, Htl.
  assert (Hpos : (0 < length segs)%nat).
  { destruct segs; [contradiction | cbn; lia]. }
  replace (S (length segs - 1) <? length segs + 1)%nat with true
    by (symmetry; apply Nat.ltb_lt; lia).
  exists (tl (mid' ++ [0])). reflexivity.
Qed.


Lemma esc_segments_no_escape (d e : Z) (s : list Z) :
  ~ In e s -> esc_segments d e s false = segments d s.
Proof.
  induction s as [| c s IH]; intros Hin; [reflexivity |].
  cbn [esc_segments segments].
  destruct (Z.eqb_spec c e) as [E | E].
  - exfalso. apply Hin. left. exact E.
  - rewrite IH by (intros H; apply Hin; right; exact H).
    destruct (c =? d); reflexivity.
Qed.

(** Puts the token [t] in front of the first segment. *)
Lemma esc_segments_escaped (d e : Z) (t r : list Z) :
  esc_segments d e (escape_token d e t ++ r) false
  = match esc_segments d e r false with
    | seg :: segs => (t ++ seg) :: segs
    | [] => [t]
    end.
Proof.
  pose proof (esc_segments_nonempty d e r false) as Hne.
  induction t as [| c t IH].
  - cbn [escape_token flat_map app].
    destruct (esc_segments d e r false); [contradiction | reflexivity].
  - cbn [escape_token flat_map]. fold (escape_token d e t).
    rewrite <- app_assoc.
    destruct (Z.eqb_spec c d) as [Hd | Hd]; cbn [orb].
    + cbn [app esc_segments]. rewrite Z.eqb_refl. rewrite IH.
      destruct (esc_segments d e r false); [contradiction | reflexivity].
    + destruct (Z.eqb_spec c e) as [He | He].
      * cbn [app esc_segments]. rewrite Z.eqb_refl. rewrite IH.
        destruct (esc_segments d e r false); [contradiction | reflexivity].
      * cbn [app esc_segments].
        rewrite (proj2 (Z.eqb_neq c e) He), (proj2 (Z.eqb_neq c d) Hd).
        rewrite IH.
        destruct (esc_segments d e r false); [contradiction | reflexivity].
Qed.

Lemma esc_segments_join (d e : Z) (toks : list (list Z)) :
  d <> e -> toks <> [] ->
  esc_segments d e (join d (map (escape_token d e) toks)) false = toks.
Proof.
  intros Hde. induction toks as [| t toks IH]; intros Hne; [contradiction |].
  destruct toks as [| t2 toks].
  - cbn [map join].
    rewrite <- (app_nil_r (escape_token d e t)), esc_segments_escaped.
    cbn [esc_segments]. rewrite app_nil_r. reflexivity.
  - cbn [map]. rewrite join_cons by discriminate.
    rewrite esc_segments_escaped. cbn [esc_segments].
    rewrite (proj2 (Z.eqb_neq d e) Hde), Z.eqb_refl.
    change (escape_token d e t2 :: map (escape_token d e) toks)
      with (map (escape_token d e) (t2 :: toks)).
    rewrite IH by discriminate. rewrite app_nil_r. reflexivity.
Qed.

Lemma cstring_all (s : list Z) :
  Forall (fun c => c <> 0) s -> cstring s = s.
Proof.
  intros H. rewrite <- (app_nil_r s) at 1.
  induction H as [| c s Hc _ IH]; [reflexivity |].
  cbn [app cstring]. destruct (Z.eqb_spec c 0); [contradiction |].
  rewrite IH. reflexivity.
Qed.

Lemma escape_token_nonzero (d e : Z) (t : list Z) :
  e <> 0 -> Forall (fun c => c <> 0) t ->
  Forall (fun c => c <> 0) (escape_token d e t).
Proof.
  intros He. induction 1 as [| c t Hc _ IH]; [constructor |].
  cbn [escape_token flat_map]. fold (escape_token d e t).
  destruct ((c =? d) || (c =? e)); cbn [app]; repeat constructor; auto.
Qed.

Lemma join_nonzero (d : Z) (toks : list (list Z)) :
  d <> 0 -> Forall (Forall (fun c => c <> 0)) toks ->
  Forall (fun c => c <> 0) (join d toks).
Proof.
  intros Hd. induction 1 as [| t toks Ht Htoks IH]; [constructor |].
  destruct toks as [| t2 toks]; [exact Ht |].
  rewrite join_cons by discriminate.
  apply Forall_app. split; [exact Ht |]. constructor; [exact Hd | exact IH].
Qed.

Lemma tokens_of_shape (segs : list (list Z)) (junk : list Z) :
  Forall (Forall (fun c => c <> 0)) segs ->
  tokens_of (join 0 segs ++ 0 :: junk) (map Some (starts 0 segs) ++ [None])
  = segs.
Proof.
  intros H. rewrite tokens_of_some.
  exact (tokens_at_starts segs H [] junk).
Qed.

Lemma starts_in_range (segs : list (list Z)) (junk : list Z) :
  Forall (fun o => lt o (length (join 0 segs ++ 0 :: junk)))
    (starts 0 segs).
Proof.
  eapply Forall_impl; [| apply (starts_bound segs 0)]. cbn beta.
  intros o Ho. rewrite length_app. cbn [length]. lia.
Qed.

(** X1. [aml_pool_split2] returns the tokens of the plain splitter that are
    not empty, in their order: for every string and delimiter the call
    succeeds, the tokens are the non-empty segments between the delimiters,
    [*num_splits] is their number and the array entry after them is NULL.
    A NULL string gives no token. *)
Theorem split2_drops_empty_tokens (d : Z) (p : list Z) :
  (exists res,
      aml_pool_split2 d (Some p) = Some res /\
      tokens_of (sr_buf res) (sr_array res)
      = nonempty_tokens (segments d (cstring p)) /\
      sr_num res = length (nonempty_tokens (segments d (cstring p))) /\
      nth_error (sr_array res) (sr_num res) = Some None) /\
  (exists res,
      aml_pool_split2 d None = Some res /\
      sr_num res = 0%nat /\ tokens_of (sr_buf res) (sr_array res) = []).
Proof.
  split.
  - change (aml_pool_split2 d (Some p))
      with (drop_empty (aml_pool_split d (Some p))).
    destruct (split_shape d p) as (buf & offs & Hsplit & Htoks & Hrange).
    rewrite Hsplit.
    destruct (drop_empty_spec buf offs Hrange)
      as (res & Hres & Hbuf & Ht & Hn & Hnull).
    exists res. rewrite Htoks in Ht, Hn. auto.
  - eexists. split; [reflexivity |]. split; reflexivity.
Qed.

(** X2. The escape-aware splitter on any string, delimiter and escape
    character: the call completes without a store outside the copy or the
    pointer array, the tokens are the segments between the delimiters that
    are not escaped, with every escape character removed and the character
    after it kept, [*num_splits] is the number of tokens, and the pointer
    array ends in NULL. *)
Theorem escape_split_tokens (d e : Z) (p : list Z) :
  exists res,
    aml_pool_split_with_escape d e (Some p) = Some res /\
    tokens_of (sr_buf res) (sr_array res)
    = esc_segments d e (cstring p) false /\
    sr_num res = length (esc_segments d e (cstring p) false) /\
    exists offs,
      sr_array res = map Some offs ++ [None] /\ length offs = sr_num res.
Proof.
  destruct (escape_split_shape d e p) as (junk & Hres).
  eexists. split; [exact Hres |]. cbn [sr_buf sr_array sr_num].
  split; [| split].
  - apply tokens_of_shape. apply esc_segments_nonzero. apply cstring_nonzero.
  - apply length_starts.
  - eexists. split; reflexivity.
Qed.

(** X3. [aml_pool_split_with_escape2] returns the tokens of the
    escape-aware splitter that are not empty, in their order, with their
    number in [*num_splits] and NULL after them. *)
Theorem escape_split2_drops_empty_tokens (d e : Z) (p : list Z) :
  exists res,
    aml_pool_split_with_escape2 d e (Some p) = Some res /\
    tokens_of (sr_buf res) (sr_array res)
    = nonempty_tokens (esc_segments d e (cstring p) false) /\
    sr_num res
    = length (nonempty_tokens (esc_segments d e (cstring p) false)) /\
    nth_error (sr_array res) (sr_num res) = Some None.
Proof.
  unfold aml_pool_split_with_escape2, _aml_pool_split_with_escape2.
  cbn [option_map]. unfold aml_pool_strdup.
  destruct (escape_split_shape d e (cstring p ++ [0])) as (junk & Hres).
  unfold aml_pool_split_with_escape in Hres. cbn [option_map] in Hres.
  unfold aml_pool_strdup in Hres.
  rewrite !(cstring_app_nul (cstring p) []) in Hres by apply cstring_nonzero.
  rewrite Hres.
  set (segs := esc_segments d e (cstring p) false) in *.
  destruct (drop_empty_spec (join 0 segs ++ 0 :: junk) (starts 0 segs)
              (starts_in_range segs junk))
    as (res & Hd & Hbuf & Ht & Hn & Hnull).
  exists res.
  assert (Htok : map (token_at (join 0 segs ++ 0 :: junk)) (starts 0 segs)
                 = segs).
  { apply (tokens_at_starts segs) with (pre := []).
    apply esc_segments_nonzero. apply cstring_nonzero. }
  rewrite Htok in Ht, Hn. auto.
Qed.

(** X4. On a string in which the escape character does not occur, the
    escape-aware splitter returns the tokens and the count of the plain
    splitter. *)
Theorem escape_split_without_escapes (d e : Z) (p : list Z) :
  ~ In e (cstring p) ->
  exists res,
    aml_pool_split_with_escape d e (Some p) = Some res /\
    tokens_of (sr_buf res) (sr_array res)
    = tokens_of (sr_buf (aml_pool_split d (Some p)))
        (sr_array (aml_pool_split d (Some p))) /\
    sr_num res = sr_num (aml_pool_split d (Some p)).
Proof.
  intros Hin.
  destruct (escape_split_shape d e p) as (junk & Hres).
  destruct (split_shape d p) as (buf & offs & Hsplit & Htoks & Hrange).
  eexists. split; [exact Hres |]. rewrite Hsplit.
  cbn [sr_buf sr_array sr_num].
  rewrite tokens_of_shape
    by (apply esc_segments_nonzero; apply cstring_nonzero).
  rewrite tokens_of_some, Htoks, length_starts.
  rewrite (esc_segments_no_escape d e (cstring p) Hin).
  split; [reflexivity |].
  rewrite <- Htoks, length_map. reflexivity.
Qed.

Lemma escape_split_without_escapes_witness :
  exists res,
    aml_pool_split_with_escape 44 92 (Some [97; 44; 98; 0]) = Some res /\
    tokens_of (sr_buf res) (sr_array res)
    = tokens_of (sr_buf (aml_pool_split 44 (Some [97; 44; 98; 0])))
        (sr_array (aml_pool_split 44 (Some [97; 44; 98; 0]))) /\
    sr_num res = sr_num (aml_pool_split 44 (Some [97; 44; 98; 0])).
Proof.
  apply (escape_split_without_escapes 44 92 [97; 44; 98; 0]).
  cbn. intros [H | [H | [H | []]]]; discriminate H.
Defined.

(** X5. Escaping round trip: write each token with the escape character in
    front of every delimiter and escape character it holds, join the tokens
    with the delimiter, and the escape-aware splitter gives the tokens
    back (delimiter and escape distinct and not NUL, tokens free of NUL, at
    least one token). *)
Theorem escape_split_roundtrip (d e : Z) (toks : list (list Z)) :
  d <> e -> d <> 0 -> e <> 0 -> toks <> [] ->
  Forall (Forall (fun c => c <> 0)) toks ->
  exists res,
    aml_pool_split_with_escape d e
      (Some (join d (map (escape_token d e) toks) ++ [0])) = Some res /\
    tokens_of (sr_buf res) (sr_array res) = toks /\
    sr_num res = length toks.
Proof.
  intros Hde Hd He Hne Htoks.
  set (text := join d (map (escape_token d e) toks)).
  assert (Htext : Forall (fun c => c <> 0) text).
  { apply join_nonzero; [exact Hd |].
    apply Forall_forall. intros t Ht. apply in_map_iff in Ht.
    destruct Ht as (t0 & <- & Hin).
    apply escape_token_nonzero; [exact He |].
    rewrite Forall_forall in Htoks. apply Htoks. exact Hin. }
  destruct (escape_split_shape d e (text ++ [0])) as (junk & Hres).
  rewrite (cstring_app_nul text [] Htext) in Hres.
  unfold text in Hres at 2 3 4.
  rewrite (esc_segments_join d e toks Hde Hne) in Hres.
  eexists. split; [exact Hres |]. cbn [sr_buf sr_array sr_num].
  split; [apply tokens_of_shape; exact Htoks | apply length_starts].
Qed.

Lemma escape_split_roundtrip_witness :
  exists res,
    aml_pool_split_with_escape 44 92
      (Some (join 44 (map (escape_token 44 92) [[97; 44]; [92; 98]]) ++ [0]))
    = Some res /\
    tokens_of (sr_buf res) (sr_array res) = [[97; 44]; [92; 98]] /\
    sr_num res = length [[97; 44]; [92; 98]].
Proof.
  apply (escape_split_roundtrip 44 92 [[97; 44]; [92; 98]]);
    try discriminate.
  repeat constructor; discriminate.
Defined.

Lemma segments_free (d : Z) (s : list Z) :
  Forall (fun t => ~ In d t) (segments d s).
Proof.
  induction s as [| c s IH]; [repeat constructor; intros [] |].
  cbn [segments].
  destruct (Z.eqb_spec c d) as [E | E].
  - constructor; [intros [] | exact IH].
  - destruct (segments d s) as [| seg segs]; [repeat constructor |].
    + intros [H | []]. congruence.
    + inversion IH as [| ? ? Hseg Hsegs]; subst.
      constructor; [| exact Hsegs].
      intros [H | H]; [congruence | exact (Hseg H)].
Qed.

Lemma segments_nonzero (d : Z) (s : list Z) :
  Forall (fun c => c <> 0) s ->
  Forall (Forall (fun c => c <> 0)) (segments d s).
Proof.
  induction 1 as [| c s Hc _ IH]; [repeat constructor |].
  cbn [segments].
  destruct (c =? d); [constructor; [constructor | exact IH] |].
  destruct (segments d s) as [| seg segs]; [repeat constructor; exact Hc |].
  inversion IH; subst. constructor; [constructor |]; assumption.
Qed.

(** X26. The tokens of the plain splitter never hold the delimiter or a
    NUL: for every string and delimiter, no token that [aml_pool_split]
    returns contains the delimiter, and every token is a proper C
    string. *)
Theorem split_tokens_free_of_delimiter (d : Z) (p : list Z) :
  let res := aml_pool_split d (Some p) in
  Forall (fun t => ~ In d t /\ Forall (fun c => c <> 0) t)
    (tokens_of (sr_buf res) (sr_array res)).
Proof.
  intros res. subst res.
  destruct (split_shape d p) as (buf & offs & -> & Htoks & _).
  cbn [sr_buf sr_array]. rewrite tokens_of_some, Htoks.
  pose proof (segments_free d (cstring p)) as H1.
  pose proof (segments_nonzero d (cstring p) (cstring_nonzero p)) as H2.
  rewrite Forall_forall in *. intros t Ht. split; [apply H1 | apply H2]; exact Ht.
Qed.

End SplitFacts.

(** ** Copies of string arrays *)

Module StrdupFacts.
Import Strdup.

(** *** Bytes and words *)

Lemma le_bytes_length (n : nat) (v : Z) : length (le_bytes n v) = n.
Proof.
  revert v. induction n as [| n IH]; intros v; cbn [le_bytes length];
    [| rewrite IH]; reflexivity.
Qed.

Lemma le_value_le_bytes (n : nat) :
  forall v, 0 <= v < 256 ^ Z.of_nat n -> le_value (le_bytes n v) = v.
Proof.
  induction n as [| n IH]; intros v Hv.
  - cbn in *. lia.
  - cbn [le_bytes le_value].
    rewrite Nat2Z.inj_succ, Z.pow_succ_r in Hv by lia.
    rewrite IH.
    + symmetry. rewrite Z.add_comm. apply Z_div_mod_eq_full.
    + split; [apply Z.div_pos; lia |].
      apply Z.div_lt_upper_bound; lia.
Qed.

Lemma le_value_word (v : Z) :
  0 <= v < 2 ^ 64 -> le_value (le_bytes 8 v) = v.
Proof. intros H. apply le_value_le_bytes. exact H. Qed.

Lemma store_bytes_app (bs : list Z) :
  forall pre old post,
    length old = length bs ->
    store_bytes (pre ++ old ++ post) (length pre) bs
    = Some (pre ++ bs ++ post).
Proof.
  induction bs as [| b bs IH]; intros pre old post Hlen.
  - destruct old; [reflexivity | discriminate].
  - destruct old as [| o old]; [discriminate |].
    cbn [store_bytes app].
    pose proof (store_app_r pre (o :: old ++ post) 0 b) as Hst.
    rewrite Nat.add_0_r in Hst. rewrite Hst.
    unfold store. cbn [length Nat.ltb Nat.leb upd option_map].
    specialize (IH (pre ++ [b]) old post ltac:(cbn in Hlen; lia)).
    rewrite length_app in IH. cbn [length] in IH.
    rewrite Nat.add_1_r in IH.
    rewrite <- app_assoc in IH. cbn [app] in IH. rewrite IH.
    rewrite <- app_assoc. reflexivity.
Qed.

Lemma copy_string_spec (s : list Z) :
  forall pre old post,
    length old = (strlen s + 1)%nat ->
    copy_string (pre ++ old ++ post) (length pre) s
    = Some (pre ++ (cstring s ++ [0]) ++ post,
            (length pre + strlen s + 1)%nat).
Proof.
  assert (Hend : forall pre o post,
             match store (pre ++ o :: post) (length pre) 0 with
             | Some mem' => Some (mem', S (length pre))
             | None => None
             end
             = Some (pre ++ 0 :: post, (length pre + 0 + 1)%nat)).
  { intros pre o post.
    pose proof (store_app_r pre (o :: post) 0 0) as Hst.
    rewrite Nat.add_0_r in Hst. rewrite Hst.
    unfold store. cbn [length Nat.ltb Nat.leb upd option_map].
    f_equal. f_equal. lia. }
  unfold strlen.
  induction s as [| c s IH]; intros pre old post Hlen.
  - cbn [cstring length] in *.
    destruct old as [| o [| o' old]]; try discriminate.
    cbn [copy_string app]. apply Hend.
  - cbn [copy_string cstring] in *.
    destruct (Z.eqb_spec c 0) as [-> | Hc].
    + cbn [length] in *.
      destruct old as [| o [| o' old]]; try discriminate.
      cbn [app]. apply Hend.
    + cbn [length] in *.
      destruct old as [| o old]; [discriminate |].
      cbn [app].
      pose proof (store_app_r pre (o :: old ++ post) 0 c) as Hst.
      rewrite Nat.add_0_r in Hst. rewrite Hst.
      unfold store. cbn [length Nat.ltb Nat.leb upd option_map].
      specialize (IH (pre ++ [c]) old post ltac:(cbn in Hlen; lia)).
      rewrite length_app in IH. cbn [length] in IH.
      rewrite Nat.add_1_r in IH.
      rewrite <- app_assoc in IH. cbn [app] in IH. rewrite IH.
      rewrite <- !app_assoc. cbn [app]. f_equal. f_equal. lia.
Qed.


(** *** The copy of the first [n] entries *)

Lemma str_bytes_cons (s : list Z) (ss : list (list Z)) :
  str_bytes (s :: ss) = (cstring s ++ [0]) ++ str_bytes ss.
Proof. reflexivity. Qed.

Lemma str_bytes_length_cons (s : list Z) (ss : list (list Z)) :
  length (str_bytes (s :: ss))
  = (strlen s + 1 + length (str_bytes ss))%nat.
Proof.
  rewrite str_bytes_cons, !length_app. cbn [length]. unfold strlen. lia.
Qed.

Lemma firstn_skipn_length (l : list Z) (k : nat) :
  (k <= length l)%nat -> length (firstn k l) = k.
Proof. intros H. rewrite length_firstn. lia. Qed.

(** The loop of [aml_pool_strdupan]: [pdone] and [pold] are the pointer
    array, written and not yet written, [sdone] and [sold] the same for
    the bytes of the strings. *)
Lemma copy_entries_spec (base : Z) (ss : list (list Z)) :
  forall pdone pold sdone sold rest rp m,
    rp = length pdone ->
    m = (length pdone + length pold + length sdone)%nat ->
    (8 * length ss <= length pold)%nat ->
    (length (str_bytes ss) <= length sold)%nat ->
    copy_entries base (pdone ++ pold ++ sdone ++ sold) rp m
      (map Some ss ++ rest) (length ss)
    = Some ((pdone ++ concat (map (le_bytes 8) (str_addrs base m ss)))
            ++ skipn (8 * length ss) pold
            ++ (sdone ++ str_bytes ss)
            ++ skipn (length (str_bytes ss)) sold,
            (rp + 8 * length ss)%nat).
Proof.
  induction ss as [| s ss IH];
    intros pdone pold sdone sold rest rp m Hrp Hm Hp Hs.
  - cbn [length map app copy_entries str_addrs concat str_bytes].
    rewrite Nat.mul_0_r, Nat.add_0_r. cbn [skipn]. rewrite !app_nil_r.
    reflexivity.
  - cbn [length map app copy_entries str_addrs concat] in *.
    rewrite str_bytes_length_cons in Hs.
    (* the pointer *)
    rewrite <- (firstn_skipn 8 pold) at 1.
    rewrite <- !app_assoc. subst rp.
    unfold store_word.
    rewrite (store_bytes_app (le_bytes 8 (base + Z.of_nat m)) pdone
               (firstn 8 pold))
      by (rewrite le_bytes_length, length_firstn; lia).
    (* the string *)
    set (k := (strlen s + 1)%nat).
    rewrite <- (firstn_skipn k sold) at 1.
    replace (pdone ++ le_bytes 8 (base + Z.of_nat m) ++ skipn 8 pold
             ++ sdone ++ firstn k sold ++ skipn k sold)
      with ((pdone ++ le_bytes 8 (base + Z.of_nat m) ++ skipn 8 pold
             ++ sdone) ++ firstn k sold ++ skipn k sold)
      by (rewrite <- !app_assoc; reflexivity).
    assert (Hpre : length (pdone ++ le_bytes 8 (base + Z.of_nat m)
                           ++ skipn 8 pold ++ sdone) = m).
    { rewrite !length_app, le_bytes_length, length_skipn. lia. }
    rewrite <- Hpre at 2.
    rewrite copy_string_spec by (rewrite length_firstn; lia).
    rewrite Hpre.
    (* the other entries *)
    specialize (IH (pdone ++ le_bytes 8 (base + Z.of_nat m))
                  (skipn 8 pold) (sdone ++ cstring s ++ [0])
                  (skipn k sold) rest (length pdone + 8)%nat
                  (m + strlen s + 1)%nat).
    replace ((pdone ++ le_bytes 8 (base + Z.of_nat m) ++ skipn 8 pold
              ++ sdone) ++ (cstring s ++ [0]) ++ skipn k sold)
      with ((pdone ++ le_bytes 8 (base + Z.of_nat m)) ++ skipn 8 pold
            ++ (sdone ++ cstring s ++ [0]) ++ skipn k sold)
      by (rewrite <- !app_assoc; reflexivity).
    rewrite IH.
    + rewrite !skipn_skipn.
      rewrite str_bytes_length_cons, str_bytes_cons.
      f_equal. f_equal.
      * rewrite <- !app_assoc.
        replace (8 * length ss + 8)%nat with (8 * S (length ss))%nat by lia.
        replace (length (str_bytes ss) + k)%nat
          with (strlen s + 1 + length (str_bytes ss))%nat by lia.
        reflexivity.
      * lia.
    + rewrite length_app, le_bytes_length. reflexivity.
    + rewrite !length_app, le_bytes_length, length_skipn.
      cbn [length]. unfold strlen in *. lia.
    + rewrite length_skipn. lia.
    + rewrite length_skipn. lia.
Qed.

Lemma count_bytes_in_arrayn_spec (ss : list (list Z)) :
  forall rest len,
    0 <= len ->
    len + Z.of_nat (length (str_bytes ss)) < 2 ^ 64 ->
    count_bytes_in_arrayn (map Some ss ++ rest) (length ss) len
    = Some (len + Z.of_nat (length (str_bytes ss))).
Proof.
  induction ss as [| s ss IH]; intros rest len Hlen Hfit.
  - cbn. f_equal. lia.
  - rewrite str_bytes_length_cons in *.
    cbn [length map app count_bytes_in_arrayn].
    unfold sz. rewrite (Z.mod_small (Z.of_nat (strlen s) + 1)) by lia.
    rewrite Z.mod_small by lia.
    rewrite IH by lia. f_equal. lia.
Qed.

Lemma count_bytes_in_arrayn_null (ss : list (list Z)) :
  forall rest len,
    count_bytes_in_arrayn (map Some ss ++ None :: rest) (S (length ss)) len
    = None.
Proof.
  induction ss as [| s ss IH]; intros rest len; [reflexivity |].
  cbn [length map app]. cbn [count_bytes_in_arrayn]. apply IH.
Qed.

(** Reading pointers and strings back. *)
Lemma pointers_concat (vs : list Z) :
  Forall (fun v => 0 <= v < 2 ^ 64) vs ->
  forall pre rest k,
    length pre = (8 * k)%nat ->
    map (fun i => load_word (pre ++ concat (map (le_bytes 8) vs) ++ rest)
                    (8 * i))
        (seq k (length vs)) = vs.
Proof.
  induction 1 as [| v vs Hv _ IH]; intros pre rest k Hpre; [reflexivity |].
  cbn [length seq map concat]. f_equal.
  - unfold load_word. rewrite <- Hpre.
    rewrite skipn_app, skipn_all, Nat.sub_diag. cbn [skipn app].
    rewrite <- app_assoc.
    rewrite firstn_app, le_bytes_length, Nat.sub_diag, firstn_O.
    rewrite app_nil_r.
    rewrite firstn_all2 by (rewrite le_bytes_length; lia).
    apply le_value_word. exact Hv.
  - specialize (IH (pre ++ le_bytes 8 v) rest (S k)).
    rewrite <- !app_assoc in IH |- *. apply IH.
    rewrite length_app, le_bytes_length. lia.
Qed.

Lemma strings_at_addrs (base : Z) (ss : list (list Z)) :
  forall pre tail,
    map (string_at base (pre ++ str_bytes ss ++ tail))
        (str_addrs base (length pre) ss)
    = map cstring ss.
Proof.
  induction ss as [| s ss IH]; intros pre tail; [reflexivity |].
  cbn [str_addrs map]. f_equal.
  - unfold string_at.
    replace (Z.to_nat (base + Z.of_nat (length pre) - base))
      with (length pre) by lia.
    rewrite skipn_app, skipn_all, Nat.sub_diag. cbn [skipn app].
    rewrite str_bytes_cons, <- !app_assoc. cbn [app].
    apply cstring_app_nul. apply cstring_nonzero.
  - specialize (IH (pre ++ cstring s ++ [0]) tail).
    rewrite !length_app in IH. cbn [length] in IH.
    unfold strlen.
    replace (length pre + (length (cstring s) + 1))%nat
      with (length pre + length (cstring s) + 1)%nat in IH by lia.
    rewrite str_bytes_cons.
    rewrite <- !app_assoc in IH |- *. exact IH.
Qed.

Lemma str_addrs_range (base : Z) (ss : list (list Z)) :
  forall m,
    Forall (fun p => base + Z.of_nat m <= p
                     < base + Z.of_nat m + Z.of_nat (length (str_bytes ss)))
      (str_addrs base m ss).
Proof.
  induction ss as [| s ss IH]; intros m; [constructor |].
  cbn [str_addrs]. rewrite str_bytes_length_cons.
  constructor; [lia |].
  eapply Forall_impl; [| apply IH]. cbn beta. intros p Hp. lia.
Qed.

Lemma str_addrs_length (base : Z) (ss : list (list Z)) (m : nat) :
  length (str_addrs base m ss) = length ss.
Proof.
  revert m. induction ss as [| s ss IH]; intros m; cbn;
    [| rewrite IH]; reflexivity.
Qed.

(** X24. [aml_pool_strdupan] makes a deep copy of the first [n] entries:
    when none of them is NULL and the block fits the address space, it
    returns one block of [8 * (n + 1)] bytes plus the strings with their
    terminators; the block starts with [n] pointers followed by NULL, each
    pointer is an address inside the block, after the pointer array, and
    the string there is the one of the corresponding entry.  A NULL array
    gives NULL; a NULL among the first [n] entries is passed to [strlen],
    which is undefined. *)
Theorem strdupan_deep_copy (junk base : Z) (ss : list (list Z))
  (rest : string_array) :
  let n := length ss in
  let len := 8 * (Z.of_nat n + 1) + Z.of_nat (length (str_bytes ss)) in
  0 <= base -> base + len < 2 ^ 64 ->
  (exists mem ptrs,
      aml_pool_strdupan junk base (Some (map Some ss ++ rest)) n
      = Some (RBlock base mem) /\
      Z.of_nat (length mem) = len /\
      pointers mem (n + 1) = ptrs ++ [0] /\
      map (string_at base mem) ptrs = map cstring ss /\
      Forall (fun p => base + 8 * (Z.of_nat n + 1) <= p < base + len) ptrs) /\
  aml_pool_strdupan junk base None n = Some RNull /\
  aml_pool_strdupan junk base (Some (map Some ss ++ None :: rest)) (S n)
  = None.
Proof.
  intros n len Hbase Hfit.
  split; [| split; [reflexivity |]];
    [| unfold aml_pool_strdupan;
       rewrite count_bytes_in_arrayn_null; reflexivity].
  assert (Elen : len = 8 * (Z.of_nat n + 1)
                       + Z.of_nat (length (str_bytes ss))) by reflexivity.
  unfold aml_pool_strdupan.
  assert (Hlen0 : sz (8 * (Z.of_nat n + 1)) = 8 * (Z.of_nat n + 1))
    by (apply Z.mod_small; lia).
  rewrite Hlen0.
  rewrite count_bytes_in_arrayn_spec by lia. fold len.
  set (np := (8 * (n + 1))%nat).
  set (ns := length (str_bytes ss)).
  replace (Z.to_nat len) with (np + ns)%nat by lia.
  rewrite repeat_app.
  pose proof (copy_entries_spec base ss [] (repeat junk np) []
                (repeat junk ns) rest 0%nat np) as Hloop.
  cbn [app length Nat.add] in Hloop. fold n in Hloop.
  rewrite Hloop; clear Hloop;
    [| reflexivity | rewrite repeat_length; lia
     | rewrite repeat_length; subst np; fold n; lia
     | rewrite repeat_length; subst ns; lia].
  fold n. fold ns.
  set (addrs := str_addrs base np ss).
  set (pb := concat (map (le_bytes 8) addrs)).
  assert (Hpb : length pb = (8 * n)%nat).
  { subst pb. clear. subst addrs n.
    generalize np. induction ss as [| s ss IH]; intros m; [reflexivity |].
    cbn [str_addrs map concat length].
    rewrite length_app, le_bytes_length, IH. lia. }
  assert (Hold : skipn (8 * n) (repeat junk np) = repeat junk 8).
  { subst np. replace (8 * (n + 1))%nat with (8 * n + 8)%nat by lia.
    rewrite repeat_app, skipn_app, repeat_length, Nat.sub_diag.
    rewrite skipn_all2 by (rewrite repeat_length; lia). reflexivity. }
  rewrite Hold.
  rewrite (skipn_all2 (repeat junk ns)) by (rewrite repeat_length; lia).
  rewrite app_nil_r.
  unfold store_word. rewrite <- Hpb.
  rewrite (store_bytes_app (le_bytes 8 0) pb (repeat junk 8))
    by (rewrite le_bytes_length, repeat_length; reflexivity).
  exists (pb ++ le_bytes 8 0 ++ str_bytes ss), addrs.
  split; [reflexivity |].
  assert (Hrange : Forall (fun p => base + 8 * (Z.of_nat n + 1) <= p
                                    < base + len) addrs).
  { eapply Forall_impl; [| apply (str_addrs_range base ss np)].
    cbn beta. intros p Hp. subst np len ns. lia. }
  split; [| split; [| split]].
  - rewrite !length_app, Hpb, le_bytes_length. subst len ns. lia.
  - unfold pointers.
    assert (Hcat : pb ++ le_bytes 8 0 ++ str_bytes ss
                   = [] ++ concat (map (le_bytes 8) (addrs ++ [0]))
                     ++ str_bytes ss).
    { rewrite map_app, concat_app. cbn [map concat app].
      rewrite app_nil_r, <- app_assoc. reflexivity. }
    rewrite Hcat.
    replace (n + 1)%nat with (length (addrs ++ [0]))
      by (rewrite length_app; subst addrs; rewrite str_addrs_length;
          reflexivity).
    apply pointers_concat; [| reflexivity].
    apply Forall_app. split.
    + eapply Forall_impl; [| exact Hrange]. cbn beta. intros p Hp. lia.
    + repeat constructor; lia.
  - replace (pb ++ le_bytes 8 0 ++ str_bytes ss)
      with ((pb ++ le_bytes 8 0) ++ str_bytes ss ++ [])
      by (rewrite app_nil_r, <- app_assoc; reflexivity).
    subst addrs.
    replace np with (length (pb ++ le_bytes 8 0))
      by (rewrite length_app, Hpb, le_bytes_length; subst np; lia).
    apply strings_at_addrs.
  - exact Hrange.
Qed.

Lemma strdupan_deep_copy_witness :
  let ss := [[104; 105; 0]; [0]] in
  let len := 8 * (Z.of_nat (length ss) + 1)
             + Z.of_nat (length (str_bytes ss)) in
  (0 <= 4096 /\ 4096 + len < 2 ^ 64) /\
  exists mem ptrs,
    aml_pool_strdupan 0 4096 (Some (map Some ss ++ [None])) (length ss)
    = Some (RBlock 4096 mem) /\
    Z.of_nat (length mem) = len /\
    pointers mem (length ss + 1) = ptrs ++ [0] /\
    map (string_at 4096 mem) ptrs = map cstring ss /\
    Forall (fun p => 4096 + 8 * (Z.of_nat (length ss) + 1) <= p
                     < 4096 + len) ptrs.
Proof.
  cbv zeta.
  assert (H : 0 <= 4096 /\
              4096 + (8 * (Z.of_nat (length [[104; 105; 0]; [0]]) + 1)
                      + Z.of_nat (length (str_bytes [[104; 105; 0]; [0]])))
              < 2 ^ 64) by (cbn; lia).
  split; [exact H |].
  exact (proj1 (strdupan_deep_copy 0 4096 [[104; 105; 0]; [0]] [None]
                  (proj1 H) (proj2 H))).
Defined.


(** *** The copy up to the first NULL *)

Lemma nth0_upd (mem : list Z) (i : nat) (v : Z) :
  (0 < i)%nat -> nth 0 (upd mem i v) 0 = nth 0 mem 0.
Proof.
  intros Hi. destruct mem as [| x mem]; [reflexivity |].
  destruct i as [| i]; [lia | reflexivity].
Qed.

Lemma store_in_range (mem : list Z) (i : nat) (v : Z) :
  (i < length mem)%nat -> store mem i v = Some (upd mem i v).
Proof.
  intros H. unfold store. rewrite (proj2 (Nat.ltb_lt _ _) H). reflexivity.
Qed.

Lemma nth0_upd0 (mem : list Z) (v : Z) :
  (0 < length mem)%nat -> nth 0 (upd mem 0 v) 0 = v.
Proof. destruct mem; cbn; [lia | reflexivity]. Qed.

Lemma store_bytes_ok (bs : list Z) :
  forall mem off,
    (off + length bs <= length mem)%nat ->
    exists mem',
      store_bytes mem off bs = Some mem' /\
      length mem' = length mem /\
      ((0 < off)%nat -> nth 0 mem' 0 = nth 0 mem 0).
Proof.
  induction bs as [| b bs IH]; intros mem off Hfit.
  - exists mem. repeat split.
  - cbn [store_bytes length] in *.
    rewrite store_in_range by lia.
    destruct (IH (upd mem off b) (S off)) as (mem' & E & Hlen & Hkeep).
    { rewrite upd_length. lia. }
    exists mem'. split; [exact E |].
    rewrite upd_length in Hlen. split; [exact Hlen |].
    intros Hoff. rewrite Hkeep by lia. apply nth0_upd. exact Hoff.
Qed.

Lemma copy_string_ok (s : list Z) :
  forall mem m,
    (m + strlen s + 1 <= length mem)%nat ->
    exists mem',
      copy_string mem m s = Some (mem', (m + strlen s + 1)%nat) /\
      length mem' = length mem /\
      ((0 < m)%nat -> nth 0 mem' 0 = nth 0 mem 0) /\
      (m = 0%nat -> nth 0 mem' 0 = hd 0 (cstring s ++ [0])).
Proof.
  assert (Hend : forall mem m,
             (m + 0 + 1 <= length mem)%nat ->
             exists mem',
               match store mem m 0 with
               | Some mem' => Some (mem', S m)
               | None => None
               end = Some (mem', (m + 0 + 1)%nat) /\
               length mem' = length mem /\
               ((0 < m)%nat -> nth 0 mem' 0 = nth 0 mem 0) /\
               (m = 0%nat -> nth 0 mem' 0 = 0)).
  { intros mem m Hfit. rewrite store_in_range by lia.
    exists (upd mem m 0).
    split; [f_equal; f_equal; lia |].
    split; [apply upd_length |].
    split; [apply nth0_upd |].
    intros ->. apply nth0_upd0. lia. }
  unfold strlen.
  induction s as [| c s IH]; intros mem m Hfit.
  - cbn [copy_string cstring length app hd] in *. apply Hend. exact Hfit.
  - cbn [copy_string cstring] in *.
    destruct (Z.eqb_spec c 0) as [-> | Hc].
    + cbn [length app hd] in *. apply Hend. exact Hfit.
    + cbn [length app hd] in *.
      rewrite store_in_range by lia.
      destruct (IH (upd mem m c) (S m)) as (mem' & E & Hlen & Hkeep & _).
      { rewrite upd_length. lia. }
      exists mem'. rewrite E.
      split; [f_equal; f_equal; lia |].
      rewrite upd_length in Hlen. split; [exact Hlen |].
      split.
      * intros Hm. rewrite Hkeep by lia. apply nth0_upd. exact Hm.
      * intros ->. rewrite Hkeep by lia. apply nth0_upd0. lia.
Qed.

Lemma copy_until_null_ok (base : Z) (ss : list (list Z)) :
  forall mem rp m rest,
    (rp + 8 * length ss <= length mem)%nat ->
    (m + length (str_bytes ss) <= length mem)%nat ->
    exists mem',
      copy_until_null base mem rp m (map Some ss ++ None :: rest)
      = Some (mem', (rp + 8 * length ss)%nat) /\
      length mem' = length mem /\
      ((0 < rp)%nat -> (0 < m)%nat -> nth 0 mem' 0 = nth 0 mem 0).
Proof.
  induction ss as [| s ss IH]; intros mem rp m rest Hp Hs.
  - exists mem. cbn [map app copy_until_null length].
    split; [f_equal; f_equal; lia |]. split; reflexivity.
  - cbn [map app copy_until_null length] in *.
    rewrite str_bytes_length_cons in Hs.
    unfold store_word.
    destruct (store_bytes_ok (le_bytes 8 (base + Z.of_nat m)) mem rp)
      as (mem1 & -> & Hl1 & Hk1).
    { rewrite le_bytes_length. lia. }
    destruct (copy_string_ok s mem1 m) as (mem2 & -> & Hl2 & Hk2 & _).
    { rewrite Hl1. lia. }
    destruct (IH mem2 (rp + 8)%nat (m + strlen s + 1)%nat rest)
      as (mem' & -> & Hl & Hk).
    { rewrite Hl2, Hl1. lia. }
    { rewrite Hl2, Hl1. lia. }
    exists mem'. split; [f_equal; f_equal; lia |].
    split; [congruence |].
    intros Hrp Hm. rewrite Hk by lia. rewrite Hk2 by lia. apply Hk1. lia.
Qed.

Lemma count_bytes_in_array_spec (ss : list (list Z)) :
  forall rest len,
    0 <= len ->
    len + 8 * Z.of_nat (length ss) + Z.of_nat (length (str_bytes ss))
    < 2 ^ 64 ->
    count_bytes_in_array (map Some ss ++ None :: rest) len
    = Some (len + 8 * Z.of_nat (length ss)
            + Z.of_nat (length (str_bytes ss))).
Proof.
  induction ss as [| s ss IH]; intros rest len Hlen Hfit.
  - cbn. f_equal. lia.
  - rewrite str_bytes_length_cons in *.
    cbn [length map app count_bytes_in_array] in *.
    unfold sz. rewrite (Z.mod_small (Z.of_nat (strlen s) + 8 + 1)) by lia.
    rewrite Z.mod_small by lia.
    rewrite IH by lia. f_equal. lia.
Qed.

(** X25. [aml_pool_strdupa] writes the strings over the pointer array.
    The number of entries is counted but never stored, so the strings are
    copied from offset 0 of the block on.  For an array with at least one
    string the call returns a block of the size computed, and the first
    byte of the block, which belongs to the first pointer, holds the first
    character of the first string (its terminator if the string is
    empty).  An array that holds NULL only gives one NULL pointer, and a
    NULL array gives NULL. *)
Theorem strdupa_strings_over_pointers (junk base : Z) (s0 : list Z)
  (ss : list (list Z)) (rest : string_array) :
  let len := 8 + 8 * Z.of_nat (length (s0 :: ss))
             + Z.of_nat (length (str_bytes (s0 :: ss))) in
  len < 2 ^ 64 ->
  (exists mem,
      aml_pool_strdupa junk base (Some (map Some (s0 :: ss) ++ None :: rest))
      = Some (RBlock base mem) /\
      Z.of_nat (length mem) = len /\
      nth 0 mem 0 = hd 0 (cstring s0 ++ [0])) /\
  (exists mem,
      aml_pool_strdupa junk base (Some (None :: rest))
      = Some (RBlock base mem) /\ pointers mem 1 = [0]) /\
  aml_pool_strdupa junk base None = Some RNull.
Proof.
  intros len Hfit.
  assert (Elen : len = 8 + 8 * Z.of_nat (length (s0 :: ss))
                       + Z.of_nat (length (str_bytes (s0 :: ss))))
    by reflexivity.
  split; [| split; [| reflexivity]].
  - unfold aml_pool_strdupa.
    rewrite count_bytes_in_array_spec by lia. rewrite <- Elen.
    set (mem0 := repeat junk (Z.to_nat len)).
    assert (Hl0 : length mem0 = Z.to_nat len) by apply repeat_length.
    rewrite str_bytes_length_cons in Elen. cbn [length] in Elen.
    change (8 * 0)%nat with 0%nat.
    cbn [map app copy_until_null].
    unfold store_word.
    destruct (store_bytes_ok (le_bytes 8 (base + Z.of_nat 0)) mem0 0)
      as (mem1 & -> & Hl1 & _).
    { rewrite le_bytes_length. lia. }
    destruct (copy_string_ok s0 mem1 0) as (mem2 & -> & Hl2 & _ & Hfirst).
    { rewrite Hl1. lia. }
    destruct (copy_until_null_ok base ss mem2 (0 + 8)%nat
                (0 + strlen s0 + 1)%nat rest)
      as (mem3 & -> & Hl3 & Hk3).
    { rewrite Hl2, Hl1. lia. }
    { rewrite Hl2, Hl1. lia. }
    destruct (store_bytes_ok (le_bytes 8 0) mem3
                (0 + 8 + 8 * length ss)%nat)
      as (mem4 & -> & Hl4 & Hk4).
    { rewrite le_bytes_length, Hl3, Hl2, Hl1. lia. }
    exists mem4. split; [reflexivity |].
    split; [rewrite Hl4, Hl3, Hl2, Hl1; lia |].
    rewrite Hk4 by lia. rewrite Hk3 by lia. apply Hfirst. reflexivity.
  - eexists. split; [reflexivity |]. reflexivity.
Qed.

Lemma strdupa_strings_over_pointers_witness :
  let len := 8 + 8 * Z.of_nat (length [[104; 105; 0]])
             + Z.of_nat (length (str_bytes [[104; 105; 0]])) in
  len < 2 ^ 64 /\
  exists mem,
    aml_pool_strdupa 0 4096 (Some (map Some [[104; 105; 0]] ++ [None]))
    = Some (RBlock 4096 mem) /\
    Z.of_nat (length mem) = len /\
    nth 0 mem 0 = hd 0 (cstring [104; 105; 0] ++ [0]).
Proof.
  cbv zeta.
  assert (H : 8 + 8 * Z.of_nat (length [[104; 105; 0]])
              + Z.of_nat (length (str_bytes [[104; 105; 0]])) < 2 ^ 64)
    by (cbn; lia).
  split; [exact H |].
  exact (proj1 (strdupa_strings_over_pointers 0 4096 [104; 105; 0] [] []
                  H)).
Defined.

End StrdupFacts.


(** ** Regions *)

Module PoolFacts.
Import Pool.

Lemma sz_small_pool (x : Z) : 0 <= x < 2 ^ 64 -> sz x = x.
Proof. intros H. apply Z.mod_small. exact H. Qed.

Lemma pow64_val : 2 ^ 64 = 18446744073709551616.
Proof. reflexivity. Qed.

Lemma land_small_4096 (m : Z) : 0 <= m < 4096 -> Z.land m 4096 = 0.
Proof.
  intros H. rewrite Z.land_comm.
  exact (land_mul_pow2_small 1 m 12 ltac:(lia) H).
Qed.

Lemma land7_mod (x : Z) : Z.land x 7 = x mod 8.
Proof. change 7 with (Z.ones 3). rewrite Z.land_ones by lia. reflexivity. Qed.

(** [~(a - 1)] keeps the multiples of the power of two [a]. *)
Lemma align_mask (a x : Z) :
  is_pow2 a -> 0 <= x < 2 ^ 64 ->
  Z.land x (sz (Z.lnot (sz (a - 1)))) = a * (x / a).
Proof.
  intros (k & Hk & ->) Hx.
  assert (Hpos : 0 < 2 ^ k) by (apply Z.pow_pos_nonneg; lia).
  assert (Hle : 2 ^ k < 2 ^ 64) by (apply Z.pow_lt_mono_r; lia).
  unfold sz at 2. rewrite Z.mod_small by lia.
  replace (2 ^ k - 1) with (Z.ones k) by (rewrite Z.ones_equiv; lia).
  unfold sz. rewrite <- Z.land_ones by lia.
  rewrite Z.land_assoc, (Z.land_comm x), <- Z.land_assoc.
  rewrite (Z.land_ones x 64) by lia.
  rewrite (Z.mod_small x) by lia.
  rewrite Z.land_comm, <- Z.ldiff_land.
  rewrite Z.ldiff_ones_r by lia.
  rewrite Z.shiftl_mul_pow2, Z.shiftr_div_pow2 by lia. lia.
Qed.

(** The padding [aml_pool_aalloc] computes brings the cursor to the next
    multiple of the alignment. *)
Lemma aligned_padding (a cur : Z) :
  is_pow2 a -> 0 <= cur ->
  let t := a * ((cur + a - 1) / a) in
  sz (Z.land (sz (cur + a - 1)) (sz (Z.lnot (sz (a - 1)))) - cur) = t - cur /\
  cur <= t < cur + a.
Proof.
  intros Ha Hcur t.
  assert (Hrange : 0 <= sz (cur + a - 1) < 2 ^ 64)
    by (apply Z.mod_pos_bound; lia).
  rewrite (align_mask a _ Ha Hrange).
  destruct Ha as (k & Hk & ->).
  assert (Hpos : 0 < 2 ^ k) by (apply Z.pow_pos_nonneg; lia).
  assert (Hle : 2 ^ k < 2 ^ 64) by (apply Z.pow_lt_mono_r; lia).
  assert (Hsplit : 2 ^ 64 = 2 ^ k * 2 ^ (64 - k))
    by (rewrite <- Z.pow_add_r by lia; f_equal; lia).
  set (x := cur + 2 ^ k - 1) in *.
  assert (Ht : cur <= t < cur + 2 ^ k).
  { subst t. pose proof (Z.mul_div_le x (2 ^ k) Hpos).
    pose proof (Z.mul_succ_div_gt x (2 ^ k) Hpos). lia. }
  split; [| exact Ht].
  unfold sz at 2.
  rewrite (Z.mod_eq x (2 ^ 64)) by lia.
  set (j := x / 2 ^ 64).
  replace (x - 2 ^ 64 * j) with (x + (- (2 ^ (64 - k) * j)) * 2 ^ k)
    by (rewrite Hsplit; ring).
  rewrite Z.div_add by lia.
  replace (2 ^ k * (x / 2 ^ k + - (2 ^ (64 - k) * j)) - cur)
    with ((t - cur) + (- j) * 2 ^ 64)
    by (subst t; rewrite Hsplit; ring).
  unfold sz. rewrite Z.mod_add by lia.
  apply Z.mod_small. lia.
Qed.

Section RegionFacts.

Context {L : Layout}.

(** Splits a monadic equation at its first call. *)
Ltac bind_inv H :=
  unfold bind in H;
  match type of H with
  | match ?m ?s with _ => _ end = Some _ =>
      let E := fresh "E" in
      destruct (m s) as [[? ?] |] eqn:E; [| discriminate H]
  end.

(** *** Clearing *)

Lemma last_cons_default {A : Type} (x d : A) (l : list A) :
  last (x :: l) d = last l x.
Proof.
  revert x d. induction l as [| y l IH]; intros x d; [reflexivity |].
  change (last (x :: y :: l) d) with (last (y :: l) d).
  rewrite (IH y d), (IH y x). reflexivity.
Qed.

Lemma clear_blocks_sub (cur : aml_pool_node_t) (prevs : list aml_pool_node_t)
  (s : sys) :
  clear_blocks true cur prevs s = Some (last prevs cur, s).
Proof.
  revert cur. induction prevs as [| prev prevs IH]; intros cur.
  - reflexivity.
  - cbn [clear_blocks]. unfold bind, ret. rewrite IH.
    rewrite last_cons_default. reflexivity.
Qed.

Lemma clear_blocks_root (cur : aml_pool_node_t)
  (prevs : list aml_pool_node_t) (s : sys) :
  clear_blocks false cur prevs s
  = Some (last prevs cur,
          {| sys_next := sys_next s;
             sys_log := sys_log s ++
                        map Free (map node_addr (removelast (cur :: prevs))) |}).
Proof.
  revert cur s. induction prevs as [| prev prevs IH]; intros cur s.
  - cbn. rewrite app_nil_r. destruct s; reflexivity.
  - cbn [clear_blocks]. unfold bind, aml_free. rewrite IH.
    cbn [sys_next sys_log]. rewrite <- app_assoc.
    rewrite last_cons_default. reflexivity.
Qed.

(** [aml_pool_clear] always returns, at the first block. *)
Lemma aml_pool_clear_spec (h : aml_pool_t) (s : sys) :
  exists s',
    aml_pool_clear h s
    = Some (mk_pool (self h) (first_block h) []
                    (node_addr (first_block h) + sizeof_aml_pool_node_t)
                    (minimum_growth_size h) 0
                    (sz ((endp (first_block h)
                          - (node_addr (first_block h) + sizeof_aml_pool_node_t))
                         + headers))
                    (pool h), s') /\
    s' = (if is_sub h then s
          else {| sys_next := sys_next s;
                  sys_log := sys_log s ++
                    map Free (map node_addr
                                (removelast (current h :: older h))) |}).
Proof.
  unfold aml_pool_clear, bind, first_block.
  destruct (is_sub h) eqn:E.
  - rewrite clear_blocks_sub. eexists. split; reflexivity.
  - rewrite clear_blocks_root. eexists. split; reflexivity.
Qed.

(** *** What the allocation family keeps *)

Lemma same_region_refl (h : aml_pool_t) : same_region h h.
Proof. repeat split. Qed.

Lemma same_region_trans (h1 h2 h3 : aml_pool_t) :
  same_region h1 h2 -> same_region h2 h3 -> same_region h1 h3.
Proof.
  unfold same_region. intros (A1 & A2 & A3 & A4) (B1 & B2 & B3 & B4).
  repeat split; congruence.
Qed.

Lemma grow_same_region (h : aml_pool_t) (len : Z) (s s' : sys) (r : Z)
  (h' : aml_pool_t) :
  _aml_pool_alloc_grow h len s = Some ((r, h'), s') -> same_region h h'.
Proof.
  destruct h as [hself hcur hold hcurp hmgs hsize hused hpool].
  cbn [_aml_pool_alloc_grow pool minimum_growth_size older current
       curp size used self].
  intros H. bind_inv H.
  unfold ret in H. inversion H; subst; clear H.
  unfold same_region, first_block, is_sub.
  cbn [self older current minimum_growth_size pool].
  repeat split.
  - apply last_cons_default.
  - destruct hpool as [parent |].
    + bind_inv E. unfold ret in E. inversion E; subst. reflexivity.
    + bind_inv E. unfold ret in E. inversion E; subst. reflexivity.
Qed.

Lemma alloc_same_region (h : aml_pool_t) (len : Z) (s s' : sys) (r : Z)
  (h' : aml_pool_t) :
  aml_pool_alloc h len s = Some ((r, h'), s') -> same_region h h'.
Proof.
  unfold aml_pool_alloc, alloc_with.
  destruct (_ <=? _).
  - unfold ret. intros H. inversion H; subst. repeat split.
  - apply grow_same_region.
Qed.

Lemma ualloc_same_region (h : aml_pool_t) (len : Z) (s s' : sys) (r : Z)
  (h' : aml_pool_t) :
  aml_pool_ualloc h len s = Some ((r, h'), s') -> same_region h h'.
Proof.
  unfold aml_pool_ualloc, ualloc_with.
  destruct (_ <=? _).
  - unfold ret. intros H. inversion H; subst. repeat split.
  - apply grow_same_region.
Qed.

Lemma aalloc_same_region (h : aml_pool_t) (a len : Z) (s s' : sys) (r : Z)
  (h' : aml_pool_t) :
  aml_pool_aalloc h a len s = Some ((r, h'), s') -> same_region h h'.
Proof.
  unfold aml_pool_aalloc.
  destruct (_ <=? _).
  - unfold ret. intros H. inversion H; subst. repeat split.
  - intros H. bind_inv H. unfold ret in H. inversion H; subst.
    destruct p as [b hb]. apply grow_same_region in E. exact E.
Qed.

Lemma strdupvf_same_region (h : aml_pool_t) (text : list Z) (s s' : sys)
  (r : Z) (h' : aml_pool_t) :
  aml_pool_strdupvf h text s = Some ((r, h'), s') -> same_region h h'.
Proof.
  unfold aml_pool_strdupvf.
  destruct (_ <? _).
  - unfold ret. intros H. inversion H; subst. repeat split.
  - apply ualloc_same_region.
Qed.

Lemma run_call_same_region (h h' : aml_pool_t) (c : alloc_call) (s s' : sys) :
  run_call h c s = Some (h', s') -> same_region h h'.
Proof.
  destruct c; cbn [run_call]; intros H;
    try (destruct (in_payload _ _ _); [| discriminate H]);
    bind_inv H;
    unfold ret in H; inversion H; subst; destruct p as [r hr]; cbn [snd].
  - eapply alloc_same_region; eassumption.
  - eapply ualloc_same_region; eassumption.
  - eapply aalloc_same_region; eassumption.
  - eapply strdupvf_same_region; eassumption.
Qed.

Lemma run_calls_same_region (cs : list alloc_call) :
  forall h h' s s',
    run_calls h cs s = Some (h', s') -> same_region h h'.
Proof.
  induction cs as [| c cs IH]; intros h h' s s' H.
  - cbn in H. inversion H; subst. apply same_region_refl.
  - cbn [run_calls] in H. bind_inv H.
    eapply same_region_trans.
    + eapply run_call_same_region; eassumption.
    + eapply IH; eassumption.
Qed.

(** *** Footprint *)

(** An allocation that fits the current block, through [aml_pool_alloc],
    [aml_pool_ualloc] or [aml_pool_strdupvf]: the counter is not touched and
    the system allocator is not called. *)
Lemma alloc_in_block_keeps_used (h : aml_pool_t) (len : Z) (s : sys) :
  align_word (curp h) + len <= endp (current h) ->
  exists r h',
    aml_pool_alloc h len s = Some ((r, h'), s) /\
    aml_pool_used h' = aml_pool_used h /\ current h' = current h.
Proof.
  intros Hfit. unfold aml_pool_alloc, alloc_with.
  rewrite (proj2 (Z.leb_le _ _) Hfit).
  eexists. eexists. split; [reflexivity |]. split; reflexivity.
Qed.

Lemma strdupvf_in_block_keeps_used (h : aml_pool_t) (text : list Z) (s : sys) :
  Z.of_nat (length text) < sz (endp (current h) - curp h) ->
  exists r h',
    aml_pool_strdupvf h text s = Some ((r, h'), s) /\
    aml_pool_used h' = aml_pool_used h /\ current h' = current h.
Proof.
  intros Hfit. unfold aml_pool_strdupvf.
  rewrite (proj2 (Z.ltb_lt _ _) Hfit).
  eexists. eexists. split; [reflexivity |]. split; reflexivity.
Qed.

(** The same through [aml_pool_aalloc]: the counter grows by the padding
    and the size, although nothing is drawn from the system allocator. *)
Lemma aalloc_in_block_adds_to_used (h : aml_pool_t) (a len : Z) (s : sys) :
  let aligned :=
    Z.land (sz (curp h + a - 1)) (sz (Z.lnot (sz (a - 1)))) in
  let padding := sz (aligned - curp h) in
  sz (curp h + padding + len) <= endp (current h) ->
  exists r h',
    aml_pool_aalloc h a len s = Some ((r, h'), s) /\
    aml_pool_used h' = sz (aml_pool_used h + sz (padding + len)) /\
    current h' = current h.
Proof.
  intros aligned padding Hfit. unfold aml_pool_aalloc.
  fold aligned. fold padding.
  rewrite (proj2 (Z.leb_le _ _) Hfit).
  eexists. eexists. split; [reflexivity |]. split; reflexivity.
Qed.

(** Growth of a region that is not a sub-region: one call to the system
    allocator, and the counter grows by the length asked for. *)
Lemma grow_root_used (h : aml_pool_t) (len : Z) (s : sys) :
  pool h = None ->
  let block_size :=
    if len <? minimum_growth_size h then minimum_growth_size h else len in
  let n := sz (sizeof_aml_pool_node_t + block_size) in
  exists r h',
    _aml_pool_alloc_grow h len s
    = Some ((r, h'),
            {| sys_next := sys_next s + 16 * ((n + 15) / 16) + 16;
               sys_log := sys_log s ++ [Malloc (sys_next s) n] |}) /\
    aml_pool_used h' = sz (aml_pool_used h + n).
Proof.
  destruct h as [hself hcur hold hcurp hmgs hsize hused hpool].
  intros Hp block_size n. cbn [pool] in Hp. subst hpool.
  cbn [minimum_growth_size] in block_size.
  cbn [_aml_pool_alloc_grow pool minimum_growth_size older current
       curp size used self].
  fold block_size. fold n.
  eexists. eexists. split; reflexivity.
Qed.

(** *** Sub-regions *)



(** *** Clearing after creation *)

Lemma frees_app_free (log : list sys_event) (addrs : list Z) :
  frees (log ++ map Free addrs) = frees log ++ addrs.
Proof.
  induction log as [| e log IH]; cbn [app frees].
  - induction addrs as [| a addrs IHa]; cbn [map frees]; congruence.
  - destruct e; rewrite IH; reflexivity.
Qed.

Lemma init_shape (n : Z) (s s1 : sys) (h : aml_pool_t) :
  _aml_pool_init n s = Some (h, s1) ->
  older h = [] /\ pool h = None /\ size h = 0 /\
  curp h = node_addr (current h) + sizeof_aml_pool_node_t.
Proof.
  unfold _aml_pool_init, abort.
  destruct (n =? 0); [discriminate |].
  intros H. bind_inv H.
  destruct (_ <? headers); [discriminate |].
  unfold aml_pool_set_minimum_growth_size, abort, ret in H.
  destruct (round_initial n =? 0); [discriminate |].
  inversion H; subst. repeat split.
Qed.

(** A region created by [init], after any calls of the allocation family
    that leave the cursor in the current block and the block in the address
    space: [clear()] returns; it releases every block but the first, and
    leaves the first block, the cursor and [size()] as [init] left them;
    [used()] is then the size of the first block and of the two headers. *)
Lemma clear_after_init_calls (n : Z) (cs : list alloc_call) (s s1 s2 : sys)
  (h h2 : aml_pool_t) :
  _aml_pool_init n s = Some (h, s1) ->
  Forall in_blocks (h :: run_states h cs s1) ->
  run_calls h cs s1 = Some (h2, s2) ->
  exists h3 s3,
    aml_pool_clear h2 s2 = Some (h3, s3) /\
    current h3 = current h /\ older h3 = [] /\ curp h3 = curp h /\
    aml_pool_size h3 = aml_pool_size h /\
    frees (sys_log s3)
    = frees (sys_log s2) ++ map node_addr (removelast (current h2 :: older h2)) /\
    aml_pool_used h3 = sz ((endp (current h) - curp h) + headers).
Proof.
  intros Hinit _ Hcalls.
  destruct (init_shape _ _ _ _ Hinit) as (Hold & Hpool & Hsize & Hcurp).
  apply run_calls_same_region in Hcalls.
  destruct Hcalls as (_ & Hfirst & _ & Hsub).
  unfold first_block in Hfirst at 2. rewrite Hold in Hfirst. cbn [last] in Hfirst.
  unfold is_sub in Hsub at 2. rewrite Hpool in Hsub.
  destruct (aml_pool_clear_spec h2 s2) as (s3 & Hclear & Hs3).
  rewrite Hsub in Hs3. rewrite Hfirst in Hclear.
  eexists. exists s3. split; [exact Hclear |].
  cbn [current older curp]. unfold aml_pool_size, aml_pool_used.
  cbn [current curp size used].
  rewrite Hsize, <- Hcurp.
  repeat split.
  subst s3. cbn [sys_log]. apply frees_app_free.
Qed.

(** *** Creation *)

Lemma round_initial_bounds (n : Z) :
  0 < n < 2 ^ 63 ->
  n <= round_initial n < n + 8 /\ round_initial n mod 8 = 0.
Proof.
  intros Hn. unfold round_initial. rewrite !land7_mod.
  change (2 ^ 63) with 9223372036854775808 in Hn.
  pose proof (Z.mod_pos_bound n 8 ltac:(lia)) as Hm.
  unfold sz. rewrite pow64_val.
  rewrite (Z.mod_small (8 - n mod 8)) by lia.
  pose proof (Z.mod_pos_bound (8 - n mod 8) 8 ltac:(lia)) as Hm2.
  rewrite (Z.mod_small (n + _)) by lia.
  split; [lia |].
  Z.div_mod_to_equations. lia.
Qed.

(** X8. Creation of a region.  The size asked for is rounded up to a
    multiple of eight.  If the rounded size is smaller than the two headers,
    the headers are cleared beyond the end of the allocation and the call
    has no defined result; otherwise it succeeds with one call of the
    system allocator: of the rounded size when bit 12 of it is clear (the
    block is then that much less the headers), of the rounded size and the
    headers when it is set.  [size()] is the size of the block and the
    cursor is at its start. *)
Theorem init_outcome (n : Z) (s : sys) :
  0 < n < 2 ^ 63 ->
  0 <= sizeof_aml_pool_t -> 0 <= sizeof_aml_pool_node_t -> headers <= 4096 ->
  let m := round_initial n in
  (n <= m < n + 8 /\ m mod 8 = 0) /\
  (m < headers -> _aml_pool_init n s = None) /\
  (headers <= m ->
   exists h s',
     _aml_pool_init n s = Some (h, s') /\
     sys_log s'
     = sys_log s ++
       [Malloc (sys_next s) (if Z.land m 4096 =? 0 then m else m + headers)] /\
     aml_pool_size h = (if Z.land m 4096 =? 0 then m - headers else m) /\
     minimum_growth_size h = m /\
     self h = sys_next s /\ older h = [] /\ pool h = None /\
     curp h = sys_next s + headers /\
     cursor_ok h /\ endp (current h) - curp h = aml_pool_size h).
Proof.
  intros Hn Hp Hnode Hh m.
  pose proof (round_initial_bounds n Hn) as Hm. fold m in Hm.
  change (2 ^ 63) with 9223372036854775808 in Hn.
  split; [exact Hm |].
  unfold _aml_pool_init.
  replace (n =? 0) with false by (symmetry; apply Z.eqb_neq; lia).
  fold m. unfold headers in *.
  unfold aml_pool_set_minimum_growth_size.
  replace (m =? 0) with false by (symmetry; apply Z.eqb_neq; lia).
  unfold bind, aml_malloc, abort, ret.
  split.
  - intros Hsmall.
    rewrite (land_small_4096 m) by lia. cbn [Z.eqb].
    replace (sz (sz (m - (sizeof_aml_pool_t + sizeof_aml_pool_node_t))
                 + (sizeof_aml_pool_t + sizeof_aml_pool_node_t))) with m.
    + rewrite (proj2 (Z.ltb_lt _ _) Hsmall). reflexivity.
    + unfold sz. rewrite pow64_val.
      rewrite Zplus_mod_idemp_l.
      replace (m - (sizeof_aml_pool_t + sizeof_aml_pool_node_t)
               + (sizeof_aml_pool_t + sizeof_aml_pool_node_t)) with m by ring.
      symmetry. apply Z.mod_small. lia.
  - intros Hbig.
    destruct (Z.land m 4096 =? 0).
    + rewrite (sz_small_pool (m - _)) by (rewrite pow64_val; lia).
      replace (m - (sizeof_aml_pool_t + sizeof_aml_pool_node_t)
               + (sizeof_aml_pool_t + sizeof_aml_pool_node_t)) with m by ring.
      rewrite (sz_small_pool m) by (rewrite pow64_val; lia).
      replace (m <? _) with false by (symmetry; apply Z.ltb_ge; lia).
      eexists. eexists. split; [reflexivity |].
      cbn [sys_log]. split; [reflexivity |].
      unfold aml_pool_size, cursor_ok.
      cbn [size current endp curp node_addr minimum_growth_size self older
           pool].
      replace (0 + (sys_next s + sizeof_aml_pool_t + sizeof_aml_pool_node_t
                    + (m - (sizeof_aml_pool_t + sizeof_aml_pool_node_t))
                    - (sys_next s + sizeof_aml_pool_t
                       + sizeof_aml_pool_node_t)))
        with (m - (sizeof_aml_pool_t + sizeof_aml_pool_node_t)) by ring.
      rewrite sz_small_pool by (rewrite pow64_val; lia).
      repeat split; lia.
    + rewrite (sz_small_pool (m + _)) by (rewrite pow64_val; lia).
      replace (m + _ <? _) with false by (symmetry; apply Z.ltb_ge; lia).
      eexists. eexists. split; [reflexivity |].
      cbn [sys_log]. split; [reflexivity |].
      unfold aml_pool_size, cursor_ok.
      cbn [size current endp curp node_addr minimum_growth_size self older
           pool].
      replace (0 + (sys_next s + sizeof_aml_pool_t + sizeof_aml_pool_node_t
                    + m
                    - (sys_next s + sizeof_aml_pool_t
                       + sizeof_aml_pool_node_t)))
        with m by ring.
      rewrite sz_small_pool by (rewrite pow64_val; lia).
      repeat split; lia.
Qed.


(** *** Allocation *)

Lemma malloc_spec (len : Z) (s s' : sys) (a : Z) :
  aml_malloc (sz len) s = Some (a, s') ->
  a = sys_next s /\
  sys_log s' = sys_log s ++ [Malloc (sys_next s) (sz len)] /\
  sys_next s < sys_next s'.
Proof.
  unfold aml_malloc.
  assert (Hk : 0 <= 16 * ((sz len + 15) / 16)).
  { assert (0 <= sz len) by (apply Z.mod_pos_bound; reflexivity).
    pose proof (Z.div_pos (sz len + 15) 16 ltac:(lia) ltac:(lia)). lia. }
  set (k := 16 * ((sz len + 15) / 16)) in *.
  intros H. injection H as <- <-.
  split; [reflexivity |]. split; [reflexivity |].
  cbn [sys_next]. lia.
Qed.

Lemma grow_shape (h : aml_pool_t) (len : Z) (s s' : sys) (r : Z)
  (h' : aml_pool_t) :
  _aml_pool_alloc_grow h len s = Some ((r, h'), s') ->
  r = node_addr (current h') + sizeof_aml_pool_node_t /\
  curp h' = r + len /\
  endp (current h')
  = r + (if len <? minimum_growth_size h then minimum_growth_size h
         else len) /\
  older h' = current h :: older h.
Proof.
  destruct h as [hself hcur hold hcurp hmgs hsize hused hpool].
  cbn [_aml_pool_alloc_grow pool minimum_growth_size older current
       curp size used self].
  intros H. bind_inv H.
  unfold ret in H. inversion H; subst; clear H.
  cbn [current node_addr endp curp older]. repeat split.
Qed.

(** X9. [aml_pool_aalloc] with a power of two as alignment, on a region
    whose cursor lies in its current block.  When the cursor, the alignment
    and the size together do not pass 2^64, the address returned is a
    multiple of the alignment; the [size] bytes from it on lie in the
    current block of the region, between the header of the block and the
    cursor, and the cursor stays inside the block; either the block is the
    one the region had, the address is at or after the old cursor and the
    system allocator is not called, or the region has a new block in front
    of its chain.  When the aligned cursor is in the block and adding the
    size to it passes 2^64, the sum wraps around: the call returns the
    aligned cursor without a call of the system allocator, and the cursor
    is left below it, at the aligned cursor plus the size less 2^64. *)
Theorem aalloc_aligned_in_block (h : aml_pool_t) (a len : Z) (s : sys) :
  is_pow2 a -> 0 <= len < 2 ^ 64 ->
  0 <= sizeof_aml_pool_node_t ->
  cursor_ok h -> in_memory (current h) ->
  let t := a * ((curp h + a - 1) / a) in
  (curp h + a + len <= 2 ^ 64 ->
   forall r h' s',
     aml_pool_aalloc h a len s = Some ((r, h'), s') ->
     in_memory (current h') ->
     r mod a = 0 /\
     node_addr (current h') + sizeof_aml_pool_node_t <= r /\
     r + len <= curp h' /\
     cursor_ok h' /\
     ((current h' = current h /\ older h' = older h /\ curp h <= r /\
       s' = s) \/
      older h' = current h :: older h)) /\
  (t <= endp (current h) -> 2 ^ 64 <= t + len ->
   exists h',
     aml_pool_aalloc h a len s = Some ((t, h'), s) /\
     current h' = current h /\ older h' = older h /\
     curp h' = t + len - 2 ^ 64 /\ curp h' < t).
Proof.
  intros Ha Hlen Hnode [Hlo Hhi] [Hm0 Hm1] t.
  assert (Hapos : 0 < a).
  { destruct Ha as (k & Hk & ->). apply Z.pow_pos_nonneg; lia. }
  assert (Hmul : forall x, (a * x) mod a = 0).
  { intros x. rewrite Z.mul_comm. apply Z.mod_mul. lia. }
  assert (Hcur : 0 <= curp h) by lia.
  destruct (aligned_padding a (curp h) Ha Hcur) as (Hpad & Ht).
  fold t in Hpad, Ht.
  assert (Hsum : curp h + (t - curp h) = t) by ring.
  split.
  - intros Hfar r h' s' H [Hmem0 Hmem1].
    unfold aml_pool_aalloc in H. rewrite Hpad, Hsum in H.
    rewrite (sz_small_pool t) in H by lia.
    rewrite (sz_small_pool (t + len)) in H by lia.
    destruct (Z.leb_spec (t + len) (endp (current h))) as [Hfit | Hfit].
    + unfold ret in H. inversion H; subst r h' s'; clear H.
      unfold cursor_ok. cbn [current node_addr endp curp older].
      split; [apply Hmul |].
      split; [lia |]. split; [lia |]. split; [lia |].
      left. repeat split. lia.
    + bind_inv H. unfold ret in H. destruct p as [block hb].
      cbn [fst snd] in H. inversion H; subst r h' s'; clear H.
      destruct (grow_shape _ _ _ _ _ _ E) as (Hr & Hcurp & Hend & Hold).
      assert (Htot : sz (len + a - 1) = len + a - 1)
        by (apply sz_small_pool; lia).
      rewrite Htot in *.
      assert (Hbs : len + a - 1
                    <= (if len + a - 1 <? minimum_growth_size h
                        then minimum_growth_size h else len + a - 1)).
      { destruct (Z.ltb_spec (len + a - 1) (minimum_growth_size h)); lia. }
      assert (Hblock : 0 <= block + a - 1 < 2 ^ 64) by lia.
      rewrite (sz_small_pool (block + a - 1)) by exact Hblock.
      rewrite (align_mask a _ Ha Hblock).
      pose proof (Z.mul_div_le (block + a - 1) a Hapos).
      pose proof (Z.mul_succ_div_gt (block + a - 1) a Hapos).
      unfold cursor_ok.
      split; [apply Hmul |].
      split; [lia |]. split; [lia |]. split; [lia |].
      right. exact Hold.
  - intros Hin Hwrap.
    assert (Hw : sz (t + len) = t + len - 2 ^ 64).
    { unfold sz. symmetry. rewrite pow64_val in *.
      apply (Z.mod_unique _ _ 1); lia. }
    unfold aml_pool_aalloc. rewrite Hpad, Hsum, Hw.
    rewrite (sz_small_pool t) by lia. rewrite Hw.
    replace (t + len - 2 ^ 64 <=? endp (current h)) with true
      by (symmetry; apply Z.leb_le; lia).
    eexists. split; [reflexivity |].
    cbn [current older curp]. repeat split. lia.
Qed.

(** X10. [aml_pool_strdupvf] on a text of [n] characters.  The address
    returned has room for the text and its terminator inside the current
    block, and the cursor is right after the terminator.  When the text is
    shorter than what is left of the block it is placed at the old cursor,
    without a call of the system allocator; otherwise the region gets a new
    block and the text is at its start. *)
Theorem strdupvf_in_block (h : aml_pool_t) (text : list Z) (s s' : sys)
  (r : Z) (h' : aml_pool_t) :
  cursor_ok h -> endp (current h) - curp h < 2 ^ 64 ->
  aml_pool_strdupvf h text s = Some ((r, h'), s') ->
  let n := Z.of_nat (length text) in
  node_addr (current h') + sizeof_aml_pool_node_t <= r /\
  curp h' = r + n + 1 /\
  cursor_ok h' /\
  (n < endp (current h) - curp h ->
   r = curp h /\ current h' = current h /\ older h' = older h /\ s' = s) /\
  (endp (current h) - curp h <= n ->
   r = node_addr (current h') + sizeof_aml_pool_node_t /\
   older h' = current h :: older h).
Proof.
  intros [Hlo Hhi] Hspan H n.
  unfold aml_pool_strdupvf in H. fold n in H.
  rewrite (sz_small_pool (endp (current h) - curp h)) in H by lia.
  destruct (Z.ltb_spec n (endp (current h) - curp h)) as [Hfit | Hfit].
  - unfold ret in H. inversion H; subst; clear H.
    unfold cursor_ok. cbn [current node_addr endp curp older].
    split; [lia |]. split; [lia |]. split; [lia |].
    split; [intros _; repeat split | intros Hge; lia].
  - unfold aml_pool_ualloc, ualloc_with in H.
    destruct (Z.leb_spec (curp h + (n + 1)) (endp (current h)));
      [lia |].
    destruct (grow_shape _ _ _ _ _ _ H) as (Hr & Hcur & Hend & Hold).
    unfold cursor_ok.
    assert (Hbs : n + 1
                  <= (if n + 1 <? minimum_growth_size h
                      then minimum_growth_size h else n + 1)).
    { destruct (Z.ltb_spec (n + 1) (minimum_growth_size h)); lia. }
    split; [lia |]. split; [lia |]. split; [lia |].
    split; [intros Hlt; lia | intros _; split; assumption].
Qed.

(** *** Clearing and destroying *)

Lemma clear_of_cleared (h : aml_pool_t) (s : sys) :
  older h = [] ->
  aml_pool_clear h s
  = Some (mk_pool (self h) (current h) []
                  (node_addr (current h) + sizeof_aml_pool_node_t)
                  (minimum_growth_size h) 0
                  (sz ((endp (current h)
                        - (node_addr (current h) + sizeof_aml_pool_node_t))
                       + headers))
                  (pool h), s).
Proof.
  intros Hold. unfold aml_pool_clear. rewrite Hold.
  cbn [clear_blocks]. reflexivity.
Qed.

(** X11. Clearing twice is clearing once: the second [aml_pool_clear]
    returns the region as the first one left it and calls no system
    operation. *)
Theorem clear_twice (h : aml_pool_t) (s : sys) :
  exists h1 s1,
    aml_pool_clear h s = Some (h1, s1) /\
    aml_pool_clear h1 s1 = Some (h1, s1).
Proof.
  destruct (aml_pool_clear_spec h s) as (s1 & Hc & _).
  eexists. exists s1. split; [exact Hc |].
  rewrite clear_of_cleared by reflexivity. reflexivity.
Qed.

(** A call on a region that is not a sub-region either leaves the chain of
    blocks and the system allocator alone or puts one block, drawn from the
    system allocator, in front of the chain. *)
Lemma grow_root_chain (h : aml_pool_t) (len : Z) (s s' : sys) (r : Z)
  (h' : aml_pool_t) :
  pool h = None ->
  _aml_pool_alloc_grow h len s = Some ((r, h'), s') ->
  exists n,
    sys_log s' = sys_log s ++ [Malloc (sys_next s) n] /\
    sys_next s < sys_next s' /\
    current h' = {| node_addr := sys_next s; endp := endp (current h') |} /\
    older h' = current h :: older h.
Proof.
  destruct h as [hself hcur hold hcurp hmgs hsize hused hpool].
  cbn [pool]. intros ->.
  cbn [_aml_pool_alloc_grow pool minimum_growth_size older current
       curp size used self].
  intros H. unfold bind in H.
  destruct (aml_malloc _ s) as [[a s0] |] eqn:E; [| discriminate H].
  unfold ret in H. inversion H; subst; clear H.
  destruct (malloc_spec _ _ _ _ E) as (-> & Hlog & Hnext).
  cbn [current older endp fst].
  eexists. split; [exact Hlog |]. split; [exact Hnext |].
  split; reflexivity.
Qed.

Lemma run_call_root_chain (h h' : aml_pool_t) (c : alloc_call) (s s' : sys) :
  pool h = None ->
  run_call h c s = Some (h', s') ->
  (s' = s /\ current h' = current h /\ older h' = older h) \/
  (exists n,
      sys_log s' = sys_log s ++ [Malloc (sys_next s) n] /\
      sys_next s < sys_next s' /\
      current h' = {| node_addr := sys_next s; endp := endp (current h') |} /\
      older h' = current h :: older h).
Proof.
  intros Hp H.
  destruct c; cbn [run_call] in H;
    try (destruct (in_payload _ _ _); [| discriminate H]);
    bind_inv H;
    unfold ret in H; inversion H; subst; clear H;
    destruct p as [r hr]; cbn [snd].
  - unfold aml_pool_alloc, alloc_with in E. destruct (_ <=? _) in E.
    + unfold ret in E. inversion E; subst. left. repeat split.
    + right. eapply grow_root_chain; eassumption.
  - unfold aml_pool_ualloc, ualloc_with in E. destruct (_ <=? _) in E.
    + unfold ret in E. inversion E; subst. left. repeat split.
    + right. eapply grow_root_chain; eassumption.
  - unfold aml_pool_aalloc in E. destruct (_ <=? _) in E.
    + unfold ret in E. inversion E; subst. left. repeat split.
    + bind_inv E. unfold ret in E. inversion E; subst.
      destruct p as [b hb]. right. eapply grow_root_chain; eassumption.
  - unfold aml_pool_strdupvf in E. destruct (_ <? _) in E.
    + unfold ret in E. inversion E; subst. left. repeat split.
    + unfold aml_pool_ualloc, ualloc_with in E. destruct (_ <=? _) in E.
      * unfold ret in E. inversion E; subst. left. repeat split.
      * right. eapply grow_root_chain; eassumption.
Qed.

Lemma mallocs_app (l1 l2 : list sys_event) :
  mallocs (l1 ++ l2) = mallocs l1 ++ mallocs l2.
Proof.
  induction l1 as [| e l1 IH]; [reflexivity |].
  destruct e; cbn [app mallocs]; rewrite IH; reflexivity.
Qed.

Lemma frees_app (l1 l2 : list sys_event) :
  frees (l1 ++ l2) = frees l1 ++ frees l2.
Proof.
  induction l1 as [| e l1 IH]; [reflexivity |].
  destruct e; cbn [app frees]; rewrite IH; reflexivity.
Qed.

Lemma mallocs_frees (addrs : list Z) : mallocs (map Free addrs) = [].
Proof. induction addrs; [reflexivity | assumption]. Qed.

Lemma frees_frees (addrs : list Z) : frees (map Free addrs) = addrs.
Proof. induction addrs as [| a l IH]; cbn; congruence. Qed.

Lemma chain_inv_call (log0 : list sys_event) (h h' : aml_pool_t)
  (c : alloc_call) (s s' : sys) :
  chain_inv log0 h s ->
  run_call h c s = Some (h', s') ->
  chain_inv log0 h' s'.
Proof.
  intros (Hp & Hm & Hf & Hnd & Hlt) H.
  pose proof (run_call_same_region _ _ _ _ _ H) as (Hself & _ & _ & Hsub).
  assert (Hp' : pool h' = None).
  { unfold is_sub in Hsub. rewrite Hp in Hsub.
    destruct (pool h'); [discriminate | reflexivity]. }
  destruct (run_call_root_chain _ _ _ _ _ Hp H)
    as [(-> & Hc & Ho) | (n & Hlog & Hnext & Hc & Ho)].
  - unfold chain_inv. rewrite Hself, Hc, Ho. auto.
  - unfold chain_inv. rewrite Hself, Ho, Hlog.
    rewrite mallocs_app, frees_app. cbn [mallocs frees].
    rewrite app_nil_r.
    assert (Hrl : removelast (current h' :: current h :: older h)
                  = current h' :: removelast (current h :: older h))
      by reflexivity.
    assert (Hna : node_addr (current h') = sys_next s)
      by (rewrite Hc; reflexivity).
    rewrite Hrl. cbn [map rev]. rewrite Hna.
    set (blocks := rev (map node_addr (removelast (current h :: older h))))
      in *.
    split; [exact Hp' |].
    split; [rewrite Hm, <- app_assoc; reflexivity |].
    split; [exact Hf |].
    split.
    + change (self h :: blocks ++ [sys_next s])
        with ((self h :: blocks) ++ [sys_next s]).
      apply NoDup_app; [exact Hnd | repeat constructor; intros [] |].
      intros x Hx [<- | []].
      rewrite Forall_forall in Hlt. specialize (Hlt _ Hx). lia.
    + change (self h :: blocks ++ [sys_next s])
        with ((self h :: blocks) ++ [sys_next s]).
      apply Forall_app. split.
      * eapply Forall_impl; [| exact Hlt]. cbn beta. intros; lia.
      * repeat constructor. exact Hnext.
Qed.

Lemma chain_inv_calls (log0 : list sys_event) (cs : list alloc_call) :
  forall h h' s s',
    chain_inv log0 h s ->
    run_calls h cs s = Some (h', s') ->
    chain_inv log0 h' s'.
Proof.
  induction cs as [| c cs IH]; intros h h' s s' Hinv H.
  - cbn in H. inversion H; subst. exact Hinv.
  - cbn [run_calls] in H. bind_inv H.
    eapply IH; [| eassumption].
    eapply chain_inv_call; eassumption.
Qed.

Lemma chain_inv_init (n : Z) (s s1 : sys) (h : aml_pool_t) :
  _aml_pool_init n s = Some (h, s1) ->
  chain_inv (sys_log s) h s1.
Proof.
  unfold _aml_pool_init, abort.
  destruct (n =? 0); [discriminate |].
  intros H. bind_inv H.
  destruct (_ <? headers); [discriminate |].
  unfold aml_pool_set_minimum_growth_size, abort, ret in H.
  destruct (round_initial n =? 0); [discriminate |].
  inversion H; subst; clear H.
  destruct (malloc_spec _ _ _ _ E) as (-> & Hlog & Hnext).
  unfold chain_inv.
  cbn [pool self current older removelast map rev].
  rewrite Hlog, mallocs_app, frees_app. cbn [mallocs frees].
  rewrite app_nil_r.
  split; [reflexivity |]. split; [reflexivity |]. split; [reflexivity |].
  split; [repeat constructor; intros [] |].
  repeat constructor. exact Hnext.
Qed.

(** X12. No block is lost or released twice.  For a region created by
    [_aml_pool_init], after any calls of the allocation family that leave
    the cursor in the current block and the block in the address space,
    [aml_pool_destroy] returns; the blocks the system allocator handed out
    since the creation are all at distinct addresses, and the calls of the
    system release operation made by [aml_pool_destroy] are exactly these
    addresses, each once, the newest block first and the region itself
    last. *)
Theorem destroy_releases_every_block (n : Z) (cs : list alloc_call)
  (s s1 s2 : sys) (h h2 : aml_pool_t) :
  _aml_pool_init n s = Some (h, s1) ->
  Forall in_blocks (h :: run_states h cs s1) ->
  run_calls h cs s1 = Some (h2, s2) ->
  exists addrs s3,
    aml_pool_destroy h2 s2 = Some (None, s3) /\
    mallocs (sys_log s3) = mallocs (sys_log s) ++ addrs /\
    frees (sys_log s3) = frees (sys_log s) ++ rev addrs /\
    NoDup addrs /\ hd 0 addrs = self h.
Proof.
  intros Hinit _ Hcalls.
  pose proof (chain_inv_calls _ _ _ _ _ _ (chain_inv_init _ _ _ _ Hinit)
                Hcalls) as (Hp & Hm & Hf & Hnd & _).
  pose proof (run_calls_same_region _ _ _ _ _ Hcalls) as (Hself & _).
  destruct (aml_pool_clear_spec h2 s2) as (s3 & Hclear & Hs3).
  unfold is_sub in Hs3. rewrite Hp in Hs3.
  unfold aml_pool_destroy, bind. rewrite Hclear. cbn [pool]. rewrite Hp.
  unfold aml_free, ret. cbn [self].
  exists (self h2 :: rev (map node_addr (removelast (current h2 :: older h2)))).
  eexists. split; [reflexivity |].
  subst s3. cbn [sys_log].
  rewrite !mallocs_app, !frees_app, mallocs_frees, frees_frees.
  cbn [mallocs frees]. rewrite !app_nil_r.
  split; [exact Hm |].
  split.
  - rewrite Hf. cbn [rev]. rewrite rev_involutive, <- app_assoc. reflexivity.
  - split; [exact Hnd | exact Hself].
Qed.

(** X13. [aml_pool_clear] brings a region back to where
    [_aml_pool_init] left it: after any calls of the allocation family that
    leave the cursor in the current block and the block in the address
    space, the cleared region has the first block, the cursor, [size()] and
    the growth size of the new region, and no other block, so that every
    field but the counter of [used()] is as after the creation. *)
Theorem clear_restores_init (n : Z) (cs : list alloc_call) (s s1 s2 : sys)
  (h h2 : aml_pool_t) :
  _aml_pool_init n s = Some (h, s1) ->
  Forall in_blocks (h :: run_states h cs s1) ->
  run_calls h cs s1 = Some (h2, s2) ->
  exists s3,
    aml_pool_clear h2 s2
    = Some (mk_pool (self h) (current h) (older h) (curp h)
                    (minimum_growth_size h) (size h)
                    (sz ((endp (current h) - curp h) + headers)) (pool h),
            s3).
Proof.
  intros Hinit _ Hcalls.
  destruct (init_shape _ _ _ _ Hinit) as (Hold & Hpool & Hsize & Hcurp).
  pose proof (run_calls_same_region _ _ _ _ _ Hcalls)
    as (Hself & Hfirst & Hmgs & Hsub).
  unfold first_block in Hfirst at 2. rewrite Hold in Hfirst.
  cbn [last] in Hfirst.
  assert (Hp2 : pool h2 = None).
  { unfold is_sub in Hsub. rewrite Hpool in Hsub.
    destruct (pool h2); [discriminate | reflexivity]. }
  destruct (aml_pool_clear_spec h2 s2) as (s3 & Hclear & _).
  exists s3. rewrite Hclear, Hfirst, Hself, Hmgs, Hp2, Hold, Hpool, Hsize.
  rewrite <- Hcurp. reflexivity.
Qed.

End RegionFacts.

(** *** The claims on the release layout *)

(** C3. [used()] as a footprint.  A region of 4096 bytes draws 4160 bytes
    from the system allocator and [used()] is 4160; an aligned allocation of
    32 bytes that fits the current block draws nothing, and [used()] becomes
    4192, where the claim has it unchanged.  The word-aligned allocation of
    the same 32 bytes leaves it at 4160. *)
Theorem C3_aalloc_in_block_changes_used :
  exists h s r h',
    @_aml_pool_init release64 4096 sys0 = Some (h, s) /\
    aml_pool_used h = 4160 /\ live_bytes (sys_log s) = 4160 /\
    @aml_pool_aalloc release64 h 16 32 s = Some ((r, h'), s) /\
    current h' = current h /\ older h' = [] /\
    aml_pool_used h' = 4192 /\
    exists r2 h2,
      @aml_pool_alloc release64 h 32 s = Some ((r2, h2), s) /\
      aml_pool_used h2 = 4160.
Proof.
  eexists. eexists. eexists. eexists.
  split; [vm_compute; reflexivity |].
  split; [reflexivity |].
  split; [reflexivity |].
  split; [vm_compute; reflexivity |].
  split; [reflexivity |].
  split; [reflexivity |].
  split; [reflexivity |].
  eexists. eexists. split; [vm_compute; reflexivity | reflexivity].
Qed.

(** C4. [clear()] against the state after [init].  On a region of 1024
    bytes [clear()] leaves the block, the cursor and [size()] as [init] left
    them, and the system allocator still holds the 1024 bytes of the one
    allocation; but [used()] was 1088 after [init] and is 1024 after
    [clear()], where the claim has the same value. *)
Theorem C4_clear_used_differs_from_init :
  exists h s h',
    @_aml_pool_init release64 1024 sys0 = Some (h, s) /\
    @aml_pool_clear release64 h s = Some (h', s) /\
    current h' = current h /\ older h' = [] /\ curp h' = curp h /\
    aml_pool_size h' = aml_pool_size h /\
    live_bytes (sys_log s) = 1024 /\
    aml_pool_used h = 1088 /\
    aml_pool_used h' = 1024.
Proof.
  eexists. eexists. eexists.
  split; [vm_compute; reflexivity |].
  split; [vm_compute; reflexivity |].
  repeat split.
Qed.

Lemma region_1024_init :
  @_aml_pool_init release64 1024 sys0 = Some (region_1024, sys_1024).
Proof. vm_compute. reflexivity. Qed.

(** The states listed lie in their blocks: the list is computed, and each
    state gives inequalities between numerals. *)
Ltac in_blocks_run :=
  match goal with
  | |- Forall _ ?l => let l' := eval vm_compute in l in change l with l'
  end;
  repeat first [apply Forall_nil | apply Forall_cons];
  cbn [in_blocks pool]; unfold cursor_ok, in_memory;
  cbn [current curp node_addr endp sizeof_aml_pool_node_t release64];
  rewrite ?pow64_val; repeat split; lia.



(** *** The same on the release layout *)

Lemma init_outcome_witness :
  (0 < 1024 < 2 ^ 63 /\ @headers release64 <= 4096) /\
  exists h s',
    @_aml_pool_init release64 1024 sys0 = Some (h, s') /\
    aml_pool_size h = 960 /\
    sys_log s' = [Malloc 4096 1024].
Proof.
  split; [cbn; lia |].
  destruct (@init_outcome release64 1024 sys0) as (_ & _ & Hbig);
    [cbn; lia | cbn; lia | cbn; lia | cbn; lia |].
  destruct Hbig as (h & s' & Hinit & Hlog & Hsize & _);
    [vm_compute; discriminate |].
  exists h, s'. split; [exact Hinit |]. split; [exact Hsize | exact Hlog].
Defined.

(** An aligned allocation in [region_1024], and one whose size takes the
    cursor over 2^64. *)
Lemma aalloc_aligned_in_block_witness :
  (exists r h' s',
      @aml_pool_aalloc release64 region_1024 128 32 sys_1024
      = Some ((r, h'), s') /\
      r = 4224 /\ r mod 128 = 0 /\ r + 32 <= curp h' /\
      @cursor_ok release64 h') /\
  (exists h',
      @aml_pool_aalloc release64 region_1024 8 (2 ^ 64 - 8) sys_1024
      = Some ((4160, h'), sys_1024) /\
      curp h' = 4152).
Proof.
  assert (Hc : @cursor_ok release64 region_1024)
    by (unfold cursor_ok; cbn; lia).
  assert (Hm : in_memory (current region_1024))
    by (unfold in_memory; cbn; lia).
  assert (Hp128 : is_pow2 128) by (exists 7; split; [lia | reflexivity]).
  assert (Hp8 : is_pow2 8) by (exists 3; split; [lia | reflexivity]).
  split.
  - eexists. eexists. eexists.
    split; [vm_compute; reflexivity |].
    split; [reflexivity |].
    destruct (@aalloc_aligned_in_block release64 region_1024 128 32
                sys_1024 Hp128
                ltac:(rewrite pow64_val; lia) ltac:(cbn; lia) Hc Hm)
      as [Hfar _].
    destruct (Hfar ltac:(cbn [region_1024 curp]; rewrite pow64_val; lia) 4224
                {| self := 4096;
                   current := {| node_addr := 4144; endp := 5120 |};
                   older := [];
                   curp := 4256;
                   minimum_growth_size := 1024;
                   size := 0;
                   used := 1184;
                   pool := None |} sys_1024)
      as (Hmod & _ & Hend & Hcur & _).
    + vm_compute. reflexivity.
    + unfold in_memory. cbn. lia.
    + split; [exact Hmod |]. split; [exact Hend | exact Hcur].
  - destruct (@aalloc_aligned_in_block release64 region_1024 8 (2 ^ 64 - 8)
                sys_1024 Hp8
                ltac:(rewrite pow64_val; lia) ltac:(cbn; lia) Hc Hm)
      as [_ Hwrap].
    change (8 * ((curp region_1024 + 8 - 1) / 8)) with 4160 in Hwrap.
    destruct Hwrap as (h' & Hcall & _ & _ & Hcurp & _).
    + cbn [region_1024 current endp]. lia.
    + rewrite pow64_val. lia.
    + exists h'. split; [exact Hcall |]. rewrite Hcurp, pow64_val.
      reflexivity.
Defined.

Lemma strdupvf_in_block_witness :
  exists r h' s',
    @aml_pool_strdupvf release64 region_1024 [104; 105] sys_1024
    = Some ((r, h'), s') /\
    r = 4160 /\ curp h' = 4163 /\ @cursor_ok release64 h'.
Proof.
  eexists. eexists. eexists.
  split; [vm_compute; reflexivity |].
  split; [reflexivity |].
  destruct (@strdupvf_in_block release64 region_1024 [104; 105]
              sys_1024 sys_1024 4160
              {| self := 4096;
                 current := {| node_addr := 4144; endp := 5120 |};
                 older := [];
                 curp := 4163;
                 minimum_growth_size := 1024;
                 size := 0;
                 used := 1088;
                 pool := None |})
    as (_ & Hcurp & Hcur & _).
  - unfold cursor_ok. cbn. lia.
  - cbn. lia.
  - vm_compute. reflexivity.
  - split; [exact Hcurp | exact Hcur].
Defined.

Lemma destroy_releases_every_block_witness :
  exists h2 s2,
    @run_calls release64 region_1024 [Aalloc 16 2000; Strdupvf [104; 105]]
      sys_1024 = Some (h2, s2) /\
    exists addrs s3,
      @aml_pool_destroy release64 h2 s2 = Some (None, s3) /\
      mallocs (sys_log s3) = mallocs (sys_log sys0) ++ addrs /\
      frees (sys_log s3) = frees (sys_log sys0) ++ rev addrs /\
      NoDup addrs /\ hd 0 addrs = self region_1024.
Proof.
  eexists. eexists.
  split; [vm_compute; reflexivity |].
  refine (@destroy_releases_every_block release64 1024
            [Aalloc 16 2000; Strdupvf [104; 105]] sys0 sys_1024 _
            region_1024 _ region_1024_init _ _).
  - in_blocks_run.
  - vm_compute. reflexivity.
Defined.

Lemma clear_restores_init_witness :
  exists h2 s2,
    @run_calls release64 region_1024 [Aalloc 16 2000; Strdupvf [104; 105]]
      sys_1024 = Some (h2, s2) /\
    exists s3, @aml_pool_clear release64 h2 s2 = Some (region_1024_cleared, s3).
Proof.
  eexists. eexists.
  split; [vm_compute; reflexivity |].
  refine (@clear_restores_init release64 1024
            [Aalloc 16 2000; Strdupvf [104; 105]] sys0 sys_1024 _
            region_1024 _ region_1024_init _ _).
  - in_blocks_run.
  - vm_compute. reflexivity.
Defined.

End PoolFacts.


(** ** Buffers *)

Module BufferFacts.
Import Buffer.

(** *** Stores through [h->data] *)

Lemma wf_span_ok (h : aml_buffer_t) : wf h -> span_ok (data h) (size h).
Proof.
  unfold wf, span_ok, data_span. cbn [data size].
  intros (Hl & Hs & Hm & Hsent). repeat split; try assumption; lia.
Qed.

Lemma span_ok_wf (d : storage) (l s : Z) (p : bool) :
  span_ok d s -> 0 <= l <= s -> wf (mk_buffer d l s p).
Proof.
  unfold wf, span_ok, data_span. cbn [data size length].
  intros (H0 & Hs & Hm & Hsent) Hl. repeat split; try assumption; lia.
Qed.

Lemma set_byte_zero : set_byte 0 0 0 = 0.
Proof. reflexivity. Qed.

Lemma data_store_inv (h h' : aml_buffer_t) (i v : Z) :
  data_store h i v = Some h' ->
  0 <= i < data_span h /\
  length h' = length h /\ pool h' = pool h /\
  data_span h' = data_span h /\
  match data h with
  | Sentinel => data h' = Sentinel /\ size h' = set_byte (size h) i v
  | Block b => data h' = Block (upd b (Z.to_nat i) v) /\ size h' = size h
  end.
Proof.
  unfold data_store.
  destruct ((0 <=? i) && (i <? data_span h)) eqn:E; [| discriminate].
  apply andb_prop in E. destruct E as [E1 E2].
  apply Z.leb_le in E1. apply Z.ltb_lt in E2.
  unfold data_span in *.
  destruct (data h) as [| b] eqn:Hd; intros H; inversion H; subst;
    cbn [data length size pool]; rewrite ?upd_length; repeat split; lia.
Qed.

Lemma data_store_ok (h : aml_buffer_t) (i v : Z) :
  0 <= i < data_span h -> exists h', data_store h i v = Some h'.
Proof.
  intros [H1 H2]. unfold data_store.
  rewrite (proj2 (Z.leb_le _ _) H1), (proj2 (Z.ltb_lt _ _) H2). cbn [andb].
  destruct (data h); eexists; reflexivity.
Qed.

Lemma nth_upd_same (a : list Z) (i : nat) (v d : Z) :
  (i < List.length a)%nat -> nth i (upd a i v) d = v.
Proof.
  revert i. induction a as [| x a IH]; intros i H.
  - simpl in H. lia.
  - destruct i as [| i]; [reflexivity |].
    simpl in H |- *. apply IH. lia.
Qed.

(** The store that ends most operations: [h->length = l; h->data[l] = 0]. *)
Lemma finish_spec (d : storage) (l s : Z) (p : bool) (h' : aml_buffer_t) :
  span_ok d s ->
  0 <= l <= s ->
  data_store (mk_buffer d l s p) l 0 = Some h' ->
  wf h' /\ terminated h' /\ length h' = l /\ size h' = s /\ pool h' = p.
Proof.
  intros Hok Hl Hst.
  pose proof Hok as (H0 & Hs & Hm & Hsent).
  apply data_store_inv in Hst.
  destruct Hst as (Hi & Hlen & Hpool & Hspan & Hdata).
  cbn [data length size pool] in *.
  unfold data_span in Hs, Hm, Hi, Hspan. cbn [data] in Hs, Hm, Hi, Hspan.
  destruct d as [| b].
  - destruct Hdata as [Hd Hsz].
    assert (s = 0) by (apply Hsent; reflexivity). subst s.
    assert (El : l = 0) by lia.
    rewrite El in Hsz, Hlen |- *. rewrite set_byte_zero in Hsz.
    split; [| split; [| repeat split; assumption]].
    + unfold wf, data_span. rewrite Hd, Hlen, Hsz. repeat split; try lia.
    + unfold terminated, data_load, data_span, data_bytes.
      rewrite Hd, Hlen, Hsz. reflexivity.
  - destruct Hdata as [Hd Hsz].
    split; [| split; [| repeat split; assumption]].
    + unfold wf, data_span. rewrite Hd, Hlen, Hsz, upd_length.
      repeat split; try lia. discriminate.
    + unfold terminated, data_load, data_span, data_bytes.
      rewrite Hd, Hlen, upd_length.
      rewrite (proj2 (Z.leb_le _ _) (proj1 Hi)).
      rewrite (proj2 (Z.ltb_lt _ _) (proj2 Hi)). cbn [andb].
      rewrite nth_upd_same by lia. reflexivity.
Qed.

Lemma finish_ok (d : storage) (l s : Z) (p : bool) :
  span_ok d s -> 0 <= l <= s ->
  exists h', data_store (mk_buffer d l s p) l 0 = Some h'.
Proof.
  intros (H0 & Hs & Hm & Hsent) Hl. apply data_store_ok.
  unfold data_span in *. cbn [data] in *. lia.
Qed.

(** *** Arithmetic on [size_t] *)

Lemma sz_small (x : Z) : 0 <= x < 2 ^ 64 -> sz x = x.
Proof. intros H. unfold sz. apply Z.mod_small. exact H. Qed.

Lemma pow63 : 2 ^ 63 = 9223372036854775808.
Proof. reflexivity. Qed.

Lemma pow62 : 2 ^ 62 = 4611686018427387904.
Proof. reflexivity. Qed.

Lemma pow64 : 2 ^ 64 = 18446744073709551616.
Proof. reflexivity. Qed.

(** Replaces the powers of two by numerals and solves by arithmetic. *)
Ltac plia := rewrite ?pow62, ?pow63, ?pow64 in *; lia.

Lemma shiftr3_range (s : Z) : 0 <= s -> 0 <= Z.shiftr s 3 <= s.
Proof.
  intros H. rewrite Z.shiftr_div_pow2 by lia. change (2 ^ 3) with 8.
  split; [apply Z.div_pos; lia |].
  apply Z.div_le_upper_bound; lia.
Qed.

Lemma malloc_length (junk n : Z) :
  0 <= n -> Z.of_nat (List.length (aml_malloc junk n)) = n.
Proof. intros H. unfold aml_malloc. rewrite repeat_length. lia. Qed.

Lemma pool_alloc_length (junk n : Z) :
  0 <= n -> Z.of_nat (List.length (aml_pool_alloc junk n)) = n.
Proof. intros H. unfold aml_pool_alloc. rewrite repeat_length. lia. Qed.

Lemma memcpy_ok (dst src : list Z) (n : Z) :
  0 <= n <= Z.of_nat (List.length dst) ->
  n <= Z.of_nat (List.length src) ->
  exists b, memcpy dst src n = Some b /\ List.length b = List.length dst.
Proof.
  intros Hd Hs. unfold memcpy.
  rewrite (proj2 (Z.leb_le _ _) (proj2 Hd)), (proj2 (Z.leb_le _ _) Hs).
  cbn [andb]. eexists. split; [reflexivity |].
  rewrite length_app, length_firstn, length_skipn. lia.
Qed.

Lemma data_bytes_span (h : aml_buffer_t) :
  Z.of_nat (List.length (data_bytes h)) = data_span h.
Proof. unfold data_bytes, data_span. destruct (data h); reflexivity. Qed.

(** *** Growth *)

Lemma grown_len (h : aml_buffer_t) (req : Z) :
  0 <= size h < 2 ^ 63 -> 0 <= req <= 2 ^ 62 ->
  sz (sz (req + 50) + Z.shiftr (size h) 3) = grown h req /\
  sz (grown h req + 1) = grown h req + 1 /\
  req < grown h req < 2 ^ 63.
Proof.
  intros Hs Hr. unfold grown.
  pose proof (shiftr3_range (size h) (proj1 Hs)) as Hq.
  assert (Hq' : Z.shiftr (size h) 3 <= 2 ^ 60).
  { rewrite Z.shiftr_div_pow2 by lia. change (2 ^ 3) with 8.
    apply Z.div_le_upper_bound; [lia |]. change (2 ^ 60) with 1152921504606846976.
    plia. }
  change (2 ^ 60) with 1152921504606846976 in Hq'.
  rewrite (sz_small (req + 50)) by plia.
  rewrite !sz_small by plia.
  repeat split; plia.
Qed.

(** [_aml_buffer_grow] on a well-formed handle, away from overflow. *)
Lemma grow_total (junk : Z) (h : aml_buffer_t) (req : Z) :
  wf h -> moderate h -> size h < req <= 2 ^ 62 ->
  exists b,
    _aml_buffer_grow junk h req
    = Some (mk_buffer (Block b) (length h) (grown h req) (pool h)) /\
    Z.of_nat (List.length b) = grown h req + 1.
Proof.
  intros (Hl & Hs & Hm & Hsent) Hmod Hreq. unfold moderate in Hmod.
  destruct (grown_len h req) as (E1 & E2 & E3); [lia | lia |].
  unfold _aml_buffer_grow. rewrite E1, E2.
  rewrite (sz_small (length h + 1)) by plia.
  destruct (pool h) eqn:Hp; cbn [negb].
  - destruct (Z.eqb_spec (length h) 0) as [E0 | E0].
    + eexists. split; [reflexivity |]. apply pool_alloc_length. lia.
    + destruct (memcpy_ok (aml_pool_alloc junk (grown h req + 1))
                  (data_bytes h) (length h + 1)) as (b & -> & Hb).
      * rewrite pool_alloc_length by lia. lia.
      * rewrite data_bytes_span. lia.
      * exists b. split; [reflexivity |].
        rewrite Hb. apply pool_alloc_length. lia.
  - destruct (memcpy_ok (aml_malloc junk (grown h req + 1))
                (data_bytes h) (length h + 1)) as (b & -> & Hb).
    + rewrite malloc_length by lia. lia.
    + rewrite data_bytes_span. lia.
    + assert (Hfree : (if size h =? 0 then Some tt else free_data h) = Some tt).
      { destruct (Z.eqb_spec (size h) 0) as [E0 | E0]; [reflexivity |].
        unfold free_data. destruct (data h); [| reflexivity].
        exfalso. apply E0. apply Hsent. reflexivity. }
      rewrite Hfree. exists b. split; [reflexivity |].
      rewrite Hb. apply malloc_length. lia.
Qed.

(** [_aml_buffer_alloc] on a well-formed handle, away from overflow. *)
Lemma alloc_total (junk : Z) (h : aml_buffer_t) (req : Z) :
  wf h -> moderate h -> size h < req <= 2 ^ 62 ->
  exists b,
    _aml_buffer_alloc junk h req
    = Some (mk_buffer (Block b) (length h) (grown h req) (pool h)) /\
    Z.of_nat (List.length b) = grown h req + 1.
Proof.
  intros (Hl & Hs & Hm & Hsent) Hmod Hreq. unfold moderate in Hmod.
  destruct (grown_len h req) as (E1 & E2 & E3); [lia | lia |].
  unfold _aml_buffer_alloc. rewrite E1, E2.
  destruct (pool h) eqn:Hp; cbn [negb].
  - eexists. split; [reflexivity |]. apply pool_alloc_length. lia.
  - assert (Hfree : (if size h =? 0 then Some tt else free_data h) = Some tt).
    { destruct (Z.eqb_spec (size h) 0) as [E0 | E0]; [reflexivity |].
      unfold free_data. destruct (data h); [| reflexivity].
      exfalso. apply E0. apply Hsent. reflexivity. }
    rewrite Hfree. eexists. split; [reflexivity |].
    apply malloc_length. lia.
Qed.

(** *** The operations, one by one *)

Lemma finish_total (hg : aml_buffer_t) (l : Z) :
  wf hg -> moderate hg -> 0 <= l <= size hg ->
  exists h',
    data_store (mk_buffer (data hg) l (size hg) (pool hg)) l 0 = Some h' /\
    good h' /\ length h' = l /\ size h' = size hg /\ pool h' = pool hg.
Proof.
  intros Hwf Hmod Hl.
  pose proof (wf_span_ok hg Hwf) as Hok.
  destruct (finish_ok (data hg) l (size hg) (pool hg) Hok Hl) as [h' Hst].
  exists h'. split; [exact Hst |].
  destruct (finish_spec _ _ _ _ _ Hok Hl Hst) as (W & T & E1 & E2 & E3).
  split; [| split; [exact E1 | split; [exact E2 | exact E3]]].
  split; [exact W | split; [| exact T]].
  unfold moderate in *. rewrite E2. exact Hmod.
Qed.

Lemma maybe_grow (junk : Z) (h : aml_buffer_t) (req : Z) :
  wf h -> moderate h -> 0 <= req <= 2 ^ 62 ->
  exists hg,
    (if size h <? req then _aml_buffer_grow junk h req else Some h) = Some hg /\
    wf hg /\ moderate hg /\ req <= size hg /\
    length hg = length h /\ pool hg = pool h.
Proof.
  intros Hwf Hmod Hreq.
  destruct (Z.ltb_spec (size h) req) as [Hlt | Hge].
  - destruct (grow_total junk h req Hwf Hmod) as (b & -> & Hb); [lia |].
    eexists. split; [reflexivity |].
    destruct Hwf as (Hl & Hs & Hm & Hsent). unfold moderate in Hmod.
    destruct (grown_len h req) as (_ & _ & E3); [lia | lia |].
    unfold wf, moderate, data_span. cbn [data length size pool].
    rewrite Hb. repeat split; try plia. discriminate.
  - exists h. repeat split; try assumption; apply Hwf.
Qed.

Lemma maybe_alloc (junk : Z) (h : aml_buffer_t) (req : Z) :
  wf h -> moderate h -> 0 <= req <= 2 ^ 62 ->
  exists hg,
    (if size h <? req then _aml_buffer_alloc junk h req else Some h) = Some hg /\
    wf hg /\ moderate hg /\ req <= size hg /\
    length hg = length h /\ pool hg = pool h.
Proof.
  intros Hwf Hmod Hreq.
  destruct (Z.ltb_spec (size h) req) as [Hlt | Hge].
  - destruct (alloc_total junk h req Hwf Hmod) as (b & -> & Hb); [lia |].
    eexists. split; [reflexivity |].
    destruct Hwf as (Hl & Hs & Hm & Hsent). unfold moderate in Hmod.
    destruct (grown_len h req) as (_ & _ & E3); [lia | lia |].
    unfold wf, moderate, data_span. cbn [data length size pool].
    rewrite Hb. repeat split; try plia. discriminate.
  - exists h. repeat split; try assumption; apply Hwf.
Qed.

(** A handle with room for a byte of content has real storage. *)
Lemma wf_block (h : aml_buffer_t) :
  wf h -> 0 < size h ->
  exists b, h = mk_buffer (Block b) (length h) (size h) (pool h) /\
            size h + 1 <= Z.of_nat (List.length b) < 2 ^ 64.
Proof.
  intros (Hl & Hs & Hm & Hsent) Hpos.
  destruct h as [d l s p]. cbn [data length size pool] in *.
  unfold data_span in *. cbn [data] in *.
  destruct d as [| b].
  - specialize (Hsent eq_refl). lia.
  - exists b. split; [reflexivity | lia].
Qed.

Lemma data_store_block (b : list Z) (l s : Z) (p : bool) (i v : Z) :
  0 <= i < Z.of_nat (List.length b) ->
  data_store (mk_buffer (Block b) l s p) i v
  = Some (mk_buffer (Block (upd b (Z.to_nat i) v)) l s p).
Proof.
  intros [H1 H2]. unfold data_store, data_span. cbn [data length size pool].
  rewrite (proj2 (Z.leb_le _ _) H1), (proj2 (Z.ltb_lt _ _) H2). reflexivity.
Qed.

Lemma store_list_block (vs : list Z) :
  forall b l s p off,
    0 <= off -> off + Z.of_nat (List.length vs) <= Z.of_nat (List.length b) ->
    exists b',
      data_store_list (mk_buffer (Block b) l s p) off vs
      = Some (mk_buffer (Block b') l s p) /\
      List.length b' = List.length b.
Proof.
  induction vs as [| v vs IH]; intros b l s p off Hoff Hfit.
  - exists b. split; reflexivity.
  - cbn [data_store_list List.length] in *.
    rewrite data_store_block by lia.
    destruct (IH (upd b (Z.to_nat off) v) l s p (off + 1)) as (b' & -> & Hb').
    + lia.
    + rewrite upd_length. lia.
    + exists b'. split; [reflexivity |]. rewrite Hb'. apply upd_length.
Qed.

(** Stores below the capacity keep the handle well formed. *)
Lemma store_list_wf (h : aml_buffer_t) (off : Z) (vs : list Z) :
  wf h -> moderate h ->
  0 <= off -> off + Z.of_nat (List.length vs) <= size h ->
  exists h1,
    data_store_list h off vs = Some h1 /\
    wf h1 /\ moderate h1 /\
    length h1 = length h /\ size h1 = size h /\ pool h1 = pool h.
Proof.
  intros Hwf Hmod Hoff Hfit.
  destruct vs as [| v vs'] eqn:E.
  - exists h. repeat split; try assumption; apply Hwf.
  - rewrite <- E in *.
    assert (Hpos : 0 < size h) by (rewrite E in Hfit; cbn in Hfit; lia).
    destruct (wf_block h Hwf Hpos) as (b & Hh & Hb).
    rewrite Hh.
    destruct (store_list_block vs b (length h) (size h) (pool h) off)
      as (b' & -> & Hb'); [lia | lia |].
    eexists. split; [reflexivity |].
    destruct Hwf as (Hl & Hs & Hm & Hsent).
    unfold wf, moderate, data_span in *. cbn [data length size pool].
    rewrite Hb'. repeat split; try lia. discriminate.
Qed.

Lemma clear_good (h : aml_buffer_t) :
  wf h -> moderate h -> exists h', aml_buffer_clear h = Some h' /\ good h'.
Proof.
  intros Hwf Hmod. unfold aml_buffer_clear.
  destruct (finish_total h 0 Hwf Hmod) as (h' & Hst & Hg & _).
  - destruct Hwf as (Hl & _). lia.
  - exists h'. split; assumption.
Qed.

Lemma shrink_by_good (h : aml_buffer_t) (len : Z) :
  wf h -> moderate h -> 0 <= len ->
  exists h', aml_buffer_shrink_by h len = Some h' /\ good h'.
Proof.
  intros Hwf Hmod Hlen. unfold aml_buffer_shrink_by.
  pose proof Hwf as (Hl & Hs & Hm & Hsent). unfold moderate in Hmod.
  set (l := if len <? length h then sz (length h - len) else 0).
  assert (Hrange : 0 <= l <= size h).
  { subst l. destruct (Z.ltb_spec len (length h)); [| lia].
    rewrite sz_small by plia. lia. }
  destruct (finish_total h l Hwf Hmod Hrange) as (h' & Hst & Hg & _).
  exists h'. split; assumption.
Qed.

Lemma resize_good (junk : Z) (h : aml_buffer_t) (len : Z) :
  wf h -> moderate h -> 0 <= len <= 2 ^ 62 ->
  exists h', aml_buffer_resize junk h len = Some h' /\ good h'.
Proof.
  intros Hwf Hmod Hlen. unfold aml_buffer_resize.
  destruct (maybe_grow junk h len Hwf Hmod Hlen)
    as (hg & -> & Hwg & Hmg & Hreq & _).
  destruct (finish_total hg len Hwg Hmg) as (h' & Hst & Hg & _); [lia |].
  exists h'. split; assumption.
Qed.

Lemma alloc_good (junk : Z) (h : aml_buffer_t) (len : Z) :
  wf h -> moderate h -> 0 <= len <= 2 ^ 62 ->
  exists h', aml_buffer_alloc junk h len = Some h' /\ good h'.
Proof.
  intros Hwf Hmod Hlen. unfold aml_buffer_alloc.
  destruct (maybe_alloc junk h len Hwf Hmod Hlen)
    as (hg & -> & Hwg & Hmg & Hreq & _).
  destruct (finish_total hg len Hwg Hmg) as (h' & Hst & Hg & _); [lia |].
  exists h'. split; assumption.
Qed.

Lemma append_ualloc_good (junk : Z) (h : aml_buffer_t) (len : Z) :
  wf h -> moderate h -> 0 <= len -> length h + len <= 2 ^ 62 ->
  exists h',
    aml_buffer_append_ualloc junk h len = Some h' /\ good h' /\
    length h' = length h + len.
Proof.
  intros Hwf Hmod Hlen Hfit. unfold aml_buffer_append_ualloc.
  pose proof Hwf as (Hl & _).
  rewrite (sz_small (len + length h)) by plia.
  destruct (maybe_grow junk h (len + length h) Hwf Hmod)
    as (hg & -> & Hwg & Hmg & Hreq & Elen & _); [lia |].
  rewrite Elen. rewrite (sz_small (length h + len)) by plia.
  destruct (finish_total hg (length h + len) Hwg Hmg)
    as (h' & Hst & Hg & El & _); [lia |].
  exists h'. split; [exact Hst | split; [exact Hg | exact El]].
Qed.

Lemma land7_range (x : Z) : 0 <= x -> 0 <= Z.land x 7 < 8.
Proof.
  intros H. change 7 with (Z.ones 3). rewrite Z.land_ones by lia.
  apply Z.mod_pos_bound. reflexivity.
Qed.

Lemma append_alloc_good (junk : Z) (h : aml_buffer_t) (len : Z) :
  wf h -> moderate h -> 0 <= len -> length h + 7 + len <= 2 ^ 62 ->
  exists h', aml_buffer_append_alloc junk h len = Some h' /\ good h'.
Proof.
  intros Hwf Hmod Hlen Hfit. unfold aml_buffer_append_alloc.
  pose proof Hwf as (Hl & _).
  pose proof (land7_range (length h) (proj1 Hl)) as Hm.
  destruct (Z.ltb_spec 0 (Z.land (length h) 7)) as [Hpos | Hzero].
  - set (m := Z.land (length h) 7) in *.
    rewrite (sz_small (8 - m)) by plia.
    rewrite (sz_small (8 - m + length h)) by plia.
    destruct (maybe_grow junk h (8 - m + length h) Hwf Hmod)
      as (hg & -> & Hwg & Hmg & Hreq & Elen & _); [plia |].
    rewrite Elen. rewrite (sz_small (length h + (8 - m))) by plia.
    destruct (finish_total hg (length h + (8 - m)) Hwg Hmg)
      as (h1 & -> & (Hw1 & Hm1 & _) & El1 & _); [lia |].
    destruct (append_ualloc_good junk h1 len Hw1 Hm1 Hlen)
      as (h' & Hst & Hg & _); [rewrite El1; lia |].
    exists h'. split; assumption.
  - destruct (append_ualloc_good junk h len Hwf Hmod Hlen)
      as (h' & Hst & Hg & _); [lia |].
    exists h'. split; assumption.
Qed.

(** A terminated handle whose storage is a block. *)
Lemma block_good (b : list Z) (l s : Z) (p : bool) :
  0 <= l <= s -> s < 2 ^ 63 ->
  s + 1 <= Z.of_nat (List.length b) < 2 ^ 64 ->
  nth (Z.to_nat l) b 0 = 0 ->
  good (mk_buffer (Block b) l s p).
Proof.
  intros Hl Hs Hb Hnul. unfold good, wf, moderate, terminated, data_load,
    data_span, data_bytes. cbn [data length size pool].
  repeat split; try lia; try discriminate.
  rewrite (proj2 (Z.leb_le 0 l)) by lia.
  rewrite (proj2 (Z.ltb_lt l _)) by lia.
  cbn [andb]. rewrite Hnul. reflexivity.
Qed.

Lemma appendc_good (junk : Z) (h : aml_buffer_t) (ch : Z) :
  wf h -> moderate h -> length h + 1 <= 2 ^ 62 ->
  exists h', aml_buffer_appendc junk h ch = Some h' /\ good h'.
Proof.
  intros Hwf Hmod Hfit. unfold aml_buffer_appendc.
  pose proof Hwf as (Hl & _).
  rewrite (sz_small (length h + 1)) by plia.
  destruct (maybe_grow junk h (length h + 1) Hwf Hmod)
    as (hg & -> & Hwg & Hmg & Hreq & Elen & Epool); [lia |].
  destruct (wf_block hg Hwg) as (b & Hh & Hb); [lia |].
  rewrite Hh. cbn [length size pool data]. rewrite Elen.
  rewrite data_store_block by lia.
  rewrite data_store_block by (rewrite upd_length; lia).
  cbn [length size pool data].
  rewrite (sz_small (length h + 1)) by plia.
  eexists. split; [reflexivity |].
  unfold moderate in Hmg.
  apply block_good; rewrite ?upd_length; try lia.
  apply nth_upd_same. rewrite upd_length. lia.
Qed.

Lemma appendn_good (junk : Z) (h : aml_buffer_t) (ch n : Z) :
  wf h -> moderate h -> 0 < n -> length h + n <= 2 ^ 62 ->
  exists h', aml_buffer_appendn junk h ch n = Some h' /\ good h'.
Proof.
  intros Hwf Hmod Hn Hfit. unfold aml_buffer_appendn.
  pose proof Hwf as (Hl & _).
  rewrite (proj2 (Z.leb_gt n 0)) by lia.
  rewrite (sz_small (length h + n)) by plia.
  destruct (maybe_grow junk h (length h + n) Hwf Hmod)
    as (hg & -> & Hwg & Hmg & Hreq & Elen & Epool); [lia |].
  destruct (wf_block hg Hwg) as (b & Hh & Hb); [lia |].
  rewrite Hh. cbn [length size pool data]. rewrite Elen.
  destruct (store_list_block (repeat ch (Z.to_nat n)) b (length h) (size hg)
              (pool hg) (length h)) as (b' & -> & Hb').
  { lia. }
  { rewrite repeat_length. lia. }
  rewrite data_store_block by lia.
  cbn [length size pool data].
  rewrite (sz_small (length h + n)) by plia.
  eexists. split; [reflexivity |].
  unfold moderate in Hmg.
  apply block_good; rewrite ?upd_length; try lia.
  apply nth_upd_same. lia.
Qed.

Lemma appendn_nonpositive (junk : Z) (h : aml_buffer_t) (ch n : Z) :
  n <= 0 -> aml_buffer_appendn junk h ch n = Some h.
Proof.
  intros Hn. unfold aml_buffer_appendn.
  rewrite (proj2 (Z.leb_le n 0)) by lia. reflexivity.
Qed.

Lemma set_good (junk : Z) (h : aml_buffer_t) (src : list Z) :
  wf h -> moderate h -> Z.of_nat (List.length src) <= 2 ^ 62 ->
  exists h', _aml_buffer_set junk h src = Some h' /\ good h'.
Proof.
  intros Hwf Hmod Hfit. unfold _aml_buffer_set.
  destruct (maybe_alloc junk h (Z.of_nat (List.length src)) Hwf Hmod)
    as (hg & -> & Hwg & Hmg & Hreq & Elen & Epool); [lia |].
  destruct (store_list_wf hg 0 src Hwg Hmg)
    as (h1 & -> & Hw1 & Hm1 & El1 & Es1 & Ep1); [lia | lia |].
  destruct (finish_total h1 (Z.of_nat (List.length src)) Hw1 Hm1)
    as (h' & Hst & Hg & _); [lia |].
  exists h'. split; assumption.
Qed.

Lemma append_good (junk : Z) (h : aml_buffer_t) (src : list Z) :
  wf h -> moderate h -> length h + Z.of_nat (List.length src) <= 2 ^ 62 ->
  exists h', _aml_buffer_append junk h src = Some h' /\ good h'.
Proof.
  intros Hwf Hmod Hfit. unfold _aml_buffer_append.
  pose proof Hwf as (Hl & _).
  rewrite (sz_small (length h + Z.of_nat (List.length src))) by plia.
  destruct (maybe_grow junk h (length h + Z.of_nat (List.length src)) Hwf Hmod)
    as (hg & -> & Hwg & Hmg & Hreq & Elen & Epool); [lia |].
  rewrite Elen.
  destruct (store_list_wf hg (length h) src Hwg Hmg)
    as (h1 & -> & Hw1 & Hm1 & El1 & Es1 & Ep1); [lia | lia |].
  rewrite El1, Elen.
  rewrite (sz_small (length h + Z.of_nat (List.length src))) by plia.
  destruct (finish_total h1 (length h + Z.of_nat (List.length src)) Hw1 Hm1)
    as (h' & Hst & Hg & _); [lia |].
  exists h'. split; assumption.
Qed.

(** [h->length = 0] keeps a handle well formed. *)
Lemma rewind_wf (h : aml_buffer_t) :
  wf h -> moderate h ->
  wf (mk_buffer (data h) 0 (size h) (pool h)) /\
  moderate (mk_buffer (data h) 0 (size h) (pool h)).
Proof.
  intros (Hl & Hs & Hm & Hsent) Hmod.
  unfold wf, moderate, data_span in *. cbn [data length size pool].
  repeat split; try assumption; lia.
Qed.

Lemma reset_good (junk : Z) (h : aml_buffer_t) (max_size : Z) :
  wf h -> moderate h -> 0 <= max_size ->
  exists h', aml_buffer_reset junk h max_size = Some h' /\ good h'.
Proof.
  intros Hwf Hmod Hmax. unfold aml_buffer_reset.
  pose proof Hwf as (Hl & Hs & Hm & Hsent). unfold moderate in Hmod.
  assert (Hh1 : exists h1,
             (if max_size <? size h
              then if negb (pool h)
                   then match free_data h with
                        | Some _ =>
                            Some (mk_buffer
                                    (Block (aml_malloc junk (sz (max_size + 1))))
                                    (length h) max_size (pool h))
                        | None => None
                        end
                   else Some h
              else Some h) = Some h1 /\
             span_ok (data h1) (size h1) /\ moderate h1).
  { destruct (Z.ltb_spec max_size (size h)) as [Hlt | Hge].
    - destruct (pool h); cbn [negb].
      + exists h. split; [reflexivity |]. split; [apply wf_span_ok |]; assumption.
      + destruct (wf_block h Hwf) as (b & Hh & Hb); [lia |].
        unfold free_data. rewrite Hh. cbn [data length size pool].
        eexists. split; [reflexivity |].
        unfold span_ok, moderate, data_span. cbn [data size].
        rewrite sz_small by plia. rewrite malloc_length by lia.
        repeat split; try plia. discriminate.
    - exists h. split; [reflexivity |]. split; [apply wf_span_ok |]; assumption. }
  destruct Hh1 as (h1 & -> & Hok & Hm1).
  assert (H00 : 0 <= 0 <= size h1) by (destruct Hok; lia).
  destruct (finish_ok (data h1) 0 (size h1) (pool h1) Hok H00) as [h' Hst].
  exists h'. split; [exact Hst |].
  destruct (finish_spec _ _ _ _ _ Hok H00 Hst) as (W & T & E1 & E2 & E3).
  split; [exact W | split; [| exact T]].
  unfold moderate in *. rewrite E2. exact Hm1.
Qed.

Lemma sentinel_good (p : bool) :
  exists h', data_store (mk_buffer Sentinel 0 0 p) 0 0 = Some h' /\ good h'.
Proof.
  exists (mk_buffer Sentinel 0 0 p). split; [reflexivity |].
  unfold good, wf, moderate, terminated. cbn. repeat split; try lia.
Qed.

Lemma detach_good (junk : Z) (h : aml_buffer_t) :
  wf h -> moderate h ->
  exists r, aml_buffer_detach junk h = Some r /\ good (snd r) /\
            snd (fst r) = length h.
Proof.
  intros Hwf Hmod. unfold aml_buffer_detach, to_sentinel.
  destruct (sentinel_good (pool h)) as (h' & Hst & Hg).
  rewrite Hst.
  destruct (pool h).
  - eexists. split; [reflexivity |]. split; [exact Hg | reflexivity].
  - destruct (data h) as [| b] eqn:Hd.
    + destruct Hwf as (Hl & Hs & Hm & Hsent).
      specialize (Hsent Hd).
      assert (El : length h = 0) by lia. rewrite El. cbn.
      eexists. split; [reflexivity |]. split; [exact Hg | reflexivity].
    + eexists. split; [reflexivity |]. split; [exact Hg | reflexivity].
Qed.

Lemma init_good (junk n : Z) :
  0 <= n <= 2 ^ 62 ->
  (exists h, aml_buffer_init junk n = Some h /\ good h /\ pool h = false) /\
  (exists h, aml_buffer_pool_init junk n = Some h /\ good h /\ pool h = true).
Proof.
  intros Hn.
  assert (Hlen : (0 < Z.to_nat (n + 1))%nat) by lia.
  split.
  - unfold aml_buffer_init, aml_malloc. rewrite sz_small by plia.
    rewrite data_store_block by (rewrite repeat_length; lia).
    cbn [data length size pool].
    eexists. split; [reflexivity |]. split; [| reflexivity].
    apply block_good; rewrite ?upd_length, ?repeat_length; try plia.
    apply nth_upd_same. rewrite repeat_length. exact Hlen.
  - unfold aml_buffer_pool_init, aml_pool_alloc. rewrite sz_small by plia.
    rewrite data_store_block by (rewrite repeat_length; lia).
    cbn [data length size pool].
    eexists. split; [reflexivity |]. split; [| reflexivity].
    apply block_good; rewrite ?upd_length, ?repeat_length; try plia.
    apply nth_upd_same. rewrite repeat_length. exact Hlen.
Qed.

(** *** Every operation *)

Lemma cstring_length_le (s : list Z) :
  (List.length (cstring s) <= List.length s)%nat.
Proof.
  induction s as [| c s IH]; cbn [cstring List.length]; [lia |].
  destruct (c =? 0); cbn [List.length]; lia.
Qed.

(** An operation that fits, on a well-formed handle: it returns, the handle
    is well formed, and it is terminated if the operation writes the
    terminator. *)
Lemma run_op_good (junk : Z) (h : aml_buffer_t) (op : buffer_op) :
  wf h -> moderate h -> op_fits h op ->
  exists h',
    run_op junk h op = Some h' /\ wf h' /\ moderate h' /\
    (writes_terminator op -> terminated h').
Proof.
  intros Hwf Hmod [Hargs Hfit].
  pose proof Hwf as (Hl & _).
  destruct (rewind_wf h Hwf Hmod) as [Hw0 Hm0].
  assert (Hfrom : forall r : option aml_buffer_t,
             (exists h', r = Some h' /\ good h') ->
             exists h', r = Some h' /\ wf h' /\ moderate h' /\
                        (writes_terminator op -> terminated h')).
  { intros r (h' & -> & W & M & T). exists h'.
    split; [reflexivity | split; [exact W | split; [exact M |]]].
    intros _. exact T. }
  destruct op; cbn [run_op asked_length op_args writes_terminator] in *;
    unfold size_t_range in *.
  - (* set *) apply Hfrom. apply set_good; assumption.
  - (* sets *) apply Hfrom. apply set_good; assumption.
  - (* setc *) apply Hfrom. apply set_good; assumption.
  - (* setn *) unfold aml_buffer_setn.
    destruct (Z_lt_le_dec 0 n) as [Hpos | Hneg].
    + destruct (appendn_good junk _ ch n Hw0 Hm0 Hpos) as (h' & -> & W & M & T).
      * cbn [length]. lia.
      * exists h'.
        split; [reflexivity | split; [exact W | split; [exact M |]]].
        intros _. exact T.
    + rewrite appendn_nonpositive by assumption.
      eexists. split; [reflexivity |]. split; [exact Hw0 |].
      split; [exact Hm0 | lia].
  - (* setf *) apply Hfrom. unfold aml_buffer_setf, aml_buffer_appendvf.
    apply append_good; try assumption.
  - (* append *) apply Hfrom. apply append_good; assumption.
  - (* appends *) apply Hfrom. apply append_good; assumption.
  - (* appendsz *) apply Hfrom. apply append_good; try assumption.
    rewrite length_app. cbn [List.length]. lia.
  - (* appendc *) apply Hfrom. apply appendc_good; assumption.
  - (* appendn *) destruct (Z_lt_le_dec 0 n) as [Hpos | Hneg].
    + apply Hfrom. apply appendn_good; try assumption. lia.
    + rewrite appendn_nonpositive by assumption.
      exists h. split; [reflexivity |]. split; [exact Hwf |].
      split; [exact Hmod | lia].
  - (* appendf *) apply Hfrom. apply append_good; assumption.
  - (* append_alloc *) apply Hfrom. apply append_alloc_good; try assumption; lia.
  - (* append_ualloc *) apply Hfrom.
    destruct (append_ualloc_good junk h len Hwf Hmod) as (h' & E & G & _);
      try lia.
    exists h'. split; assumption.
  - (* resize *) apply Hfrom. apply resize_good; try assumption. lia.
  - (* alloc *) apply Hfrom. apply alloc_good; try assumption. lia.
  - (* shrink_by *) apply Hfrom. apply shrink_by_good; try assumption. lia.
  - (* clear *) apply Hfrom. apply clear_good; assumption.
  - (* reset *) apply Hfrom. apply reset_good; try assumption. lia.
  - (* detach *)
    destruct (detach_good junk h Hwf Hmod) as (r & -> & (W & M & T) & _).
    exists (snd r).
    split; [reflexivity | split; [exact W | split; [exact M |]]].
    intros _. exact T.
Qed.

Lemma reachable_good (junk : Z) (h : aml_buffer_t) :
  reachable junk h -> wf h /\ moderate h.
Proof.
  induction 1 as [n h Hn Hinit | n h Hn Hinit | h h' op Hreach IH Hfit Hrun].
  - destruct (init_good junk n Hn) as [(h0 & E & (W & M & _) & _) _].
    rewrite E in Hinit. inversion Hinit; subst. split; assumption.
  - destruct (init_good junk n Hn) as [_ (h0 & E & (W & M & _) & _)].
    rewrite E in Hinit. inversion Hinit; subst. split; assumption.
  - destruct IH as [W M].
    destruct (run_op_good junk h op W M Hfit) as (h1 & E & W1 & M1 & _).
    rewrite E in Hrun. inversion Hrun; subst. split; assumption.
Qed.

(** C10 as the claim has it, after every operation, fails when a length
    near the end of [size_t] is asked for.  On the handle of
    [pool_init(pool, 8)], [resize(h, 2^64 - 10)] does grow first, but the
    capacity it computes, [2^64 - 10 + 50 + 1], is 41 modulo 2^64: the new
    storage has 42 bytes, the capacity is below the length asked for, and
    the operation, which sets the length to [2^64 - 10], stores its
    terminator at that index, outside the storage. *)
Lemma C10_counterexample :
  exists h0 hg,
    aml_buffer_pool_init 0 8 = Some h0 /\ reachable 0 h0 /\
    op_args (Resize (2 ^ 64 - 10)) /\
    _aml_buffer_grow 0 h0 (2 ^ 64 - 10) = Some hg /\
    size hg = 41 /\ data_span hg = 42 /\ size hg < 2 ^ 64 - 10 /\
    data_store (mk_buffer (data hg) (2 ^ 64 - 10) (size hg) (pool hg))
      (2 ^ 64 - 10) 0 = None /\
    run_op 0 h0 (Resize (2 ^ 64 - 10)) = None.
Proof.
  eexists. eexists.
  split; [vm_compute; reflexivity |].
  split; [apply (reach_pool_init 0 8);
          [split; [lia | rewrite pow62; lia] | vm_compute; reflexivity] |].
  split; [unfold op_args, size_t_range; lia |].
  split; [vm_compute; reflexivity |].
  split; [reflexivity |]. split; [reflexivity |].
  split; [cbn; lia |].
  split; vm_compute; reflexivity.
Qed.

(** C10 (amended). After [init] or [pool_init] and any public operations
    whose arguments are in range and which ask for no more than 2^62 bytes:
    the length is within the capacity, the storage holds the capacity and
    one byte more, and the next such operation returns with every store
    inside the storage, leaving the same invariant; in particular the
    terminating store at index [length] is within the storage. *)
Theorem C10_length_within_capacity (junk : Z) (h : aml_buffer_t) :
  reachable junk h ->
  (0 <= length h <= size h /\ size h + 1 <= data_span h) /\
  (forall op, op_fits h op ->
     exists h', run_op junk h op = Some h' /\
                0 <= length h' <= size h' /\ size h' + 1 <= data_span h') /\
  (forall n, 0 <= n <= 2 ^ 62 ->
     (exists h0, aml_buffer_init junk n = Some h0 /\ reachable junk h0) /\
     (exists h0, aml_buffer_pool_init junk n = Some h0 /\ reachable junk h0)).
Proof.
  intros Hreach.
  destruct (reachable_good junk h Hreach) as [W M].
  split; [| split].
  - destruct W as (Hl & Hs & _). split; assumption.
  - intros op Hfit.
    destruct (run_op_good junk h op W M Hfit) as (h' & E & (Hl & Hs & _) & _).
    exists h'. split; [exact E | split; assumption].
  - intros n Hn.
    destruct (init_good junk n Hn) as [(h1 & E1 & _) (h2 & E2 & _)].
    split.
    + exists h1. split; [exact E1 |]. eapply reach_init; eassumption.
    + exists h2. split; [exact E2 |]. eapply reach_pool_init; eassumption.
Qed.

(** Every operation that writes the terminator leaves
    [h->data[h->length] == 0]. *)
Lemma terminated_after_op (junk : Z) (h h' : aml_buffer_t) (op : buffer_op) :
  reachable junk h -> op_fits h op -> writes_terminator op ->
  run_op junk h op = Some h' -> terminated h'.
Proof.
  intros Hreach Hfit Hw Hrun.
  destruct (reachable_good junk h Hreach) as [W M].
  destruct (run_op_good junk h op W M Hfit) as (h1 & E & _ & _ & T).
  rewrite E in Hrun. inversion Hrun; subst. apply T. exact Hw.
Qed.

(** A handle from [pool_init(8)] after [appendc('!')]. *)
Lemma C10_length_within_capacity_witness :
  let h := mk_buffer (Block [33; 0; 0; 0; 0; 0; 0; 0; 0]) 1 8 true in
  reachable 0 h /\
  (0 <= length h <= size h /\ size h + 1 <= data_span h).
Proof.
  cbv zeta.
  assert (Hreach : reachable 0
            (mk_buffer (Block [33; 0; 0; 0; 0; 0; 0; 0; 0]) 1 8 true)).
  { apply (reach_op 0 (mk_buffer (Block [0; 0; 0; 0; 0; 0; 0; 0; 0]) 0 8 true)
             _ (Appendc 33)).
    - apply (reach_pool_init 0 8).
      + split; [lia | rewrite pow62; lia].
      + vm_compute. reflexivity.
    - split; [exact I |]. cbn. lia.
    - vm_compute. reflexivity. }
  split; [exact Hreach |].
  exact (proj1 (C10_length_within_capacity 0 _ Hreach)).
Defined.

(** *** The growth formula *)

Lemma block_of_store (cap n : Z) (h h' : aml_buffer_t) (i v : Z) :
  block_of cap n h -> data_store h i v = Some h' -> block_of cap n h'.
Proof.
  intros (Hs & Hn & b & Hd) H.
  apply data_store_inv in H. destruct H as (_ & _ & _ & Hspan & Hdata).
  rewrite Hd in Hdata. destruct Hdata as [Hd' Hs'].
  unfold block_of. rewrite Hs', Hspan. eauto.
Qed.

Lemma block_of_store_list (cap n : Z) (vs : list Z) :
  forall h h' off,
    block_of cap n h -> data_store_list h off vs = Some h' ->
    block_of cap n h'.
Proof.
  induction vs as [| v vs IH]; intros h h' off Hb H; cbn [data_store_list] in H.
  - inversion H; subst. exact Hb.
  - destruct (data_store h off v) as [h1 |] eqn:E; [| discriminate H].
    eapply IH; [| exact H]. eapply block_of_store; eassumption.
Qed.

Lemma block_of_relabel (cap n : Z) (h : aml_buffer_t) (l : Z) :
  block_of cap n h ->
  block_of cap n (mk_buffer (data h) l (size h) (pool h)).
Proof. intros H. exact H. Qed.

(** The growth an operation starts with, when it must grow. *)
Lemma grows_to (junk : Z) (h : aml_buffer_t) (req : Z) :
  wf h -> moderate h -> size h < req <= 2 ^ 62 ->
  let cap := req + 50 + Z.shiftr (size h) 3 in
  (exists hg,
      (if size h <? req then _aml_buffer_grow junk h req else Some h)
      = Some hg /\ block_of cap (cap + 1) hg /\ length hg = length h) /\
  (exists hg,
      (if size h <? req then _aml_buffer_alloc junk h req else Some h)
      = Some hg /\ block_of cap (cap + 1) hg /\ length hg = length h).
Proof.
  intros Hwf Hmod Hreq cap.
  rewrite (proj2 (Z.ltb_lt _ _) (proj1 Hreq)).
  destruct (grow_total junk h req Hwf Hmod Hreq) as (b & -> & Hb).
  destruct (alloc_total junk h req Hwf Hmod Hreq) as (b2 & -> & Hb2).
  unfold grown in *. fold cap in Hb, Hb2 |- *.
  split; eexists; (split; [reflexivity |]); unfold block_of, data_span;
    cbn [data size length]; eauto.
Qed.

Ltac step H :=
  match type of H with
  | match ?m with Some _ => _ | None => None end = Some _ =>
      let E := fresh "E" in
      destruct m eqn:E; [| discriminate H]
  end.

Lemma set_grows (junk : Z) (h h' : aml_buffer_t) (src : list Z) :
  wf h -> moderate h ->
  size h < Z.of_nat (List.length src) <= 2 ^ 62 ->
  _aml_buffer_set junk h src = Some h' ->
  let cap := Z.of_nat (List.length src) + 50 + Z.shiftr (size h) 3 in
  block_of cap (cap + 1) h'.
Proof.
  intros Hwf Hmod Hreq H cap. unfold _aml_buffer_set in H.
  destruct (grows_to junk h _ Hwf Hmod Hreq) as [_ (hg & Eg & Hb & _)].
  rewrite Eg in H. step H.
  eapply block_of_store; [| exact H].
  apply block_of_relabel. eapply block_of_store_list; eassumption.
Qed.

Lemma append_grows (junk : Z) (h h' : aml_buffer_t) (src : list Z) :
  wf h -> moderate h ->
  size h < length h + Z.of_nat (List.length src) <= 2 ^ 62 ->
  _aml_buffer_append junk h src = Some h' ->
  let cap := length h + Z.of_nat (List.length src) + 50
             + Z.shiftr (size h) 3 in
  block_of cap (cap + 1) h'.
Proof.
  intros Hwf Hmod Hreq H cap. unfold _aml_buffer_append in H.
  pose proof Hwf as (Hl & _).
  rewrite (sz_small (length h + Z.of_nat (List.length src))) in H by plia.
  destruct (grows_to junk h _ Hwf Hmod Hreq) as [(hg & Eg & Hb & _) _].
  rewrite Eg in H. step H.
  eapply block_of_store; [| exact H].
  apply block_of_relabel. eapply block_of_store_list; eassumption.
Qed.

Lemma appendn_grows (junk : Z) (h h' : aml_buffer_t) (ch n : Z) :
  wf h -> moderate h ->
  size h < length h + n <= 2 ^ 62 ->
  aml_buffer_appendn junk h ch n = Some h' ->
  let cap := length h + n + 50 + Z.shiftr (size h) 3 in
  block_of cap (cap + 1) h'.
Proof.
  intros Hwf Hmod Hreq H cap. unfold aml_buffer_appendn in H.
  pose proof Hwf as (Hl & _).
  rewrite (proj2 (Z.leb_gt n 0)) in H by lia.
  rewrite (sz_small (length h + n)) in H by plia.
  destruct (grows_to junk h _ Hwf Hmod Hreq) as [(hg & Eg & Hb & _) _].
  rewrite Eg in H. step H. step H.
  inversion H; subst h'. apply block_of_relabel.
  eapply block_of_store; [| eassumption].
  eapply block_of_store_list; eassumption.
Qed.

Lemma appendc_grows (junk : Z) (h h' : aml_buffer_t) (ch : Z) :
  wf h -> moderate h ->
  size h < length h + 1 <= 2 ^ 62 ->
  aml_buffer_appendc junk h ch = Some h' ->
  let cap := length h + 1 + 50 + Z.shiftr (size h) 3 in
  block_of cap (cap + 1) h'.
Proof.
  intros Hwf Hmod Hreq H cap. unfold aml_buffer_appendc in H.
  pose proof Hwf as (Hl & _).
  rewrite (sz_small (length h + 1)) in H by plia.
  destruct (grows_to junk h _ Hwf Hmod Hreq) as [(hg & Eg & Hb & _) _].
  rewrite Eg in H. step H. step H.
  inversion H; subst h'. apply block_of_relabel.
  eapply block_of_store; [| eassumption].
  eapply block_of_store; eassumption.
Qed.

Lemma ualloc_grows (junk : Z) (h h' : aml_buffer_t) (len : Z) :
  wf h -> moderate h -> 0 <= len ->
  size h < length h + len <= 2 ^ 62 ->
  aml_buffer_append_ualloc junk h len = Some h' ->
  let cap := length h + len + 50 + Z.shiftr (size h) 3 in
  block_of cap (cap + 1) h'.
Proof.
  intros Hwf Hmod Hlen Hreq H cap. unfold aml_buffer_append_ualloc in H.
  pose proof Hwf as (Hl & _).
  rewrite (sz_small (len + length h)) in H by plia.
  assert (Hreq' : size h < len + length h <= 2 ^ 62) by lia.
  destruct (grows_to junk h _ Hwf Hmod Hreq') as [(hg & Eg & Hb & _) _].
  rewrite Eg in H.
  replace (len + length h) with (length h + len) in Hb by ring.
  eapply block_of_store; [| exact H].
  apply block_of_relabel. exact Hb.
Qed.

Lemma resize_grows (junk : Z) (h h' : aml_buffer_t) (len : Z) :
  wf h -> moderate h -> size h < len <= 2 ^ 62 ->
  aml_buffer_resize junk h len = Some h' ->
  let cap := len + 50 + Z.shiftr (size h) 3 in
  block_of cap (cap + 1) h'.
Proof.
  intros Hwf Hmod Hreq H cap. unfold aml_buffer_resize in H.
  destruct (grows_to junk h _ Hwf Hmod Hreq) as [(hg & Eg & Hb & _) _].
  rewrite Eg in H.
  eapply block_of_store; [| exact H]. apply block_of_relabel. exact Hb.
Qed.

Lemma alloc_grows (junk : Z) (h h' : aml_buffer_t) (len : Z) :
  wf h -> moderate h -> size h < len <= 2 ^ 62 ->
  aml_buffer_alloc junk h len = Some h' ->
  let cap := len + 50 + Z.shiftr (size h) 3 in
  block_of cap (cap + 1) h'.
Proof.
  intros Hwf Hmod Hreq H cap. unfold aml_buffer_alloc in H.
  destruct (grows_to junk h _ Hwf Hmod Hreq) as [_ (hg & Eg & Hb & _)].
  rewrite Eg in H.
  eapply block_of_store; [| exact H]. apply block_of_relabel. exact Hb.
Qed.

(** An operation that must grow, on a well-formed handle. *)
Lemma run_op_grows (junk : Z) (h h' : aml_buffer_t) (op : buffer_op) :
  wf h -> moderate h -> op_fits h op -> one_request h op ->
  size h < requested_length h op ->
  run_op junk h op = Some h' ->
  let cap := requested_length h op + 50 + Z.shiftr (size h) 3 in
  block_of cap (cap + 1) h'.
Proof.
  intros Hwf Hmod [Hargs Hfit] Hone Hgrow H.
  pose proof Hwf as (Hl & _).
  destruct (rewind_wf h Hwf Hmod) as [Hw0 Hm0].
  destruct op;
    cbn [run_op asked_length op_args requested_length one_request] in *;
    unfold size_t_range in *.
  - eapply set_grows; try eassumption. lia.
  - eapply set_grows; try eassumption. lia.
  - eapply (set_grows junk h h' [c]); try eassumption. cbn. plia.
  - unfold aml_buffer_setn in H.
    apply (appendn_grows junk _ h' ch n Hw0 Hm0) in H;
      cbn [length size] in *; [exact H | lia].
  - unfold aml_buffer_setf, aml_buffer_appendvf in H.
    apply (append_grows junk _ h' _ Hw0 Hm0) in H;
      cbn [length size] in *; [exact H | lia].
  - eapply append_grows; try eassumption. lia.
  - eapply append_grows; try eassumption. lia.
  - unfold aml_buffer_appendsz in H.
    apply (append_grows junk h h' _ Hwf Hmod) in H.
    + rewrite length_app in H. cbn [List.length] in H.
      replace (Z.of_nat (List.length (cstring s) + 1))
        with (Z.of_nat (List.length (cstring s)) + 1) in H by lia.
      rewrite Z.add_assoc in H. exact H.
    + rewrite length_app. cbn [List.length]. lia.
  - eapply appendc_grows; try eassumption. lia.
  - eapply appendn_grows; try eassumption. lia.
  - eapply append_grows; try eassumption. lia.
  - unfold aml_buffer_append_alloc in H. rewrite Hone in H.
    cbn [Z.ltb Z.compare] in H.
    eapply ualloc_grows; try eassumption; lia.
  - eapply ualloc_grows; try eassumption; lia.
  - eapply resize_grows; try eassumption. lia.
  - eapply alloc_grows; try eassumption. lia.
  - lia.
  - lia.
  - lia.
  - lia.
Qed.

Lemma grow_length (junk : Z) (h hg : aml_buffer_t) (req : Z) :
  _aml_buffer_grow junk h req = Some hg -> length hg = length h.
Proof.
  unfold _aml_buffer_grow. intros H.
  destruct (negb (pool h)).
  - step H. step H. inversion H; subst. reflexivity.
  - step H. inversion H; subst. reflexivity.
Qed.

(** [append_alloc] on a length that is not a multiple of 8 is a [resize]
    to the next multiple of 8 followed by [append_ualloc]. *)
Lemma append_alloc_unaligned (junk : Z) (h : aml_buffer_t) (len : Z) :
  wf h -> moderate h -> Z.land (length h) 7 <> 0 ->
  run_op junk h (Append_alloc len)
  = run_ops junk h [Resize (8 * ((length h + 7) / 8)); Append_ualloc len].
Proof.
  intros Hwf Hmod Hm.
  pose proof Hwf as (Hl & Hs & _). unfold moderate in Hmod.
  pose proof (land7_range (length h) (proj1 Hl)) as Hr.
  cbn [run_op run_ops]. unfold aml_buffer_append_alloc, aml_buffer_resize.
  rewrite (proj2 (Z.ltb_lt 0 _)) by lia.
  set (m := Z.land (length h) 7) in *.
  assert (Ep : 8 * ((length h + 7) / 8) = 8 - m + length h).
  { subst m. change 7 with (Z.ones 3) at 2. rewrite Z.land_ones by lia.
    change (2 ^ 3) with 8.
    change 7 with (Z.ones 3) in Hm, Hr. rewrite Z.land_ones in Hm, Hr by lia.
    change (2 ^ 3) with 8 in Hm, Hr.
    Z.div_mod_to_equations. lia. }
  rewrite Ep.
  rewrite (sz_small (8 - m)) by plia.
  rewrite (sz_small (8 - m + length h)) by plia.
  destruct (if size h <? 8 - m + length h
            then _aml_buffer_grow junk h (8 - m + length h) else Some h)
    as [hg |] eqn:Eg; [| reflexivity].
  assert (Elen : length hg = length h).
  { destruct (size h <? 8 - m + length h).
    - eapply grow_length; eassumption.
    - inversion Eg; subst. reflexivity. }
  rewrite Elen. rewrite (sz_small (length h + (8 - m))) by plia.
  replace (length h + (8 - m)) with (8 - m + length h) by ring.
  destruct (data_store _ _ 0) as [h1 |]; [| reflexivity].
  destruct (aml_buffer_append_ualloc junk h1 len); reflexivity.
Qed.

(** C5 as the claim has it, for every request, fails near the end of
    [size_t].  On an empty handle of capacity 0, [_aml_buffer_alloc] asked
    for [2^64 - 51] bytes computes the capacity [2^64 - 1] and allocates
    [capacity + 1] bytes, which is 0 modulo 2^64: the storage spans no byte
    at all, not one more than the capacity, and [aml_buffer_alloc] stores
    its terminator outside of it. *)
Lemma C5_counterexample :
  exists h0 hg,
    aml_buffer_pool_init 0 0 = Some h0 /\ wf h0 /\
    size h0 < 2 ^ 64 - 51 /\
    _aml_buffer_alloc 0 h0 (2 ^ 64 - 51) = Some hg /\
    size hg = 2 ^ 64 - 1 /\ data_span hg = 0 /\
    data_span hg <> size hg + 1 /\
    run_op 0 h0 (Alloc (2 ^ 64 - 51)) = None.
Proof.
  eexists. eexists.
  split; [vm_compute; reflexivity |].
  split.
  { unfold wf, data_span. cbn. split; [lia |]. split; [lia |].
    split; [lia | discriminate]. }
  split; [cbn; lia |].
  split; [vm_compute; reflexivity |].
  split; [reflexivity |]. split; [reflexivity |].
  split; [cbn; lia |].
  vm_compute. reflexivity.
Qed.

(** C5 (amended). When an operation must grow the storage (the length it
    asks for is above the capacity) and the sizes are away from the end of
    [size_t] (a capacity below 2^63, at most 2^62 bytes asked for), on the
    heap path and on the Region path alike ([h] is either), the new capacity
    is the length asked for, plus 50, plus the old capacity shifted right by
    3, and the new storage has one byte more than the new capacity: for the
    two growth routines, and for every public operation.  [append_alloc] on
    a length that is not a multiple of 8 is a [resize] to the next multiple
    of 8 followed by [append_ualloc], each of which grows by the formula. *)
Theorem C5_growth_formula (junk : Z) (h : aml_buffer_t) :
  wf h -> moderate h ->
  (forall req, size h < req <= 2 ^ 62 ->
     let cap := req + 50 + Z.shiftr (size h) 3 in
     (exists hg, _aml_buffer_grow junk h req = Some hg /\
                 size hg = cap /\ data_span hg = cap + 1) /\
     (exists hg, _aml_buffer_alloc junk h req = Some hg /\
                 size hg = cap /\ data_span hg = cap + 1)) /\
  (forall op, op_fits h op -> one_request h op ->
     size h < requested_length h op ->
     let cap := requested_length h op + 50 + Z.shiftr (size h) 3 in
     exists h', run_op junk h op = Some h' /\
                size h' = cap /\ data_span h' = cap + 1) /\
  (forall len, Z.land (length h) 7 <> 0 ->
     run_op junk h (Append_alloc len)
     = run_ops junk h [Resize (8 * ((length h + 7) / 8));
                       Append_ualloc len]).
Proof.
  intros Hwf Hmod. split; [| split].
  - intros req Hreq cap.
    destruct (grow_total junk h req Hwf Hmod Hreq) as (b & Hgrow & Hb).
    destruct (alloc_total junk h req Hwf Hmod Hreq) as (b2 & Halloc & Hb2).
    unfold grown in *. fold cap in Hgrow, Halloc, Hb, Hb2.
    split.
    + eexists. split; [exact Hgrow |].
      unfold data_span. cbn [data size]. split; [reflexivity | exact Hb].
    + eexists. split; [exact Halloc |].
      unfold data_span. cbn [data size]. split; [reflexivity | exact Hb2].
  - intros op Hfit Hone Hgrow cap.
    destruct (run_op_good junk h op Hwf Hmod Hfit) as (h' & E & _).
    exists h'. split; [exact E |].
    destruct (run_op_grows junk h h' op Hwf Hmod Hfit Hone Hgrow E)
      as (Hs & Hn & _).
    split; assumption.
  - intros len Hm. apply append_alloc_unaligned; assumption.
Qed.

(** The formula on a heap handle of capacity 8 holding "abc" and asked for
    20 bytes, by the growth routine and by [setn]: capacity 71, storage of
    72 bytes. *)
Lemma C5_growth_formula_witness :
  let h := mk_buffer (Block [97; 98; 99; 0; 0; 0; 0; 0; 0]) 3 8 false in
  wf h /\ moderate h /\
  (exists hg, _aml_buffer_grow 0 h 20 = Some hg /\
              size hg = 71 /\ data_span hg = 72) /\
  (exists h', run_op 0 h (Setn 120 20) = Some h' /\
              size h' = 71 /\ data_span h' = 72).
Proof.
  cbv zeta.
  assert (Hwf : wf (mk_buffer (Block [97; 98; 99; 0; 0; 0; 0; 0; 0]) 3 8 false)).
  { unfold wf, data_span. cbn. repeat split; try lia. discriminate. }
  assert (Hmod : moderate
                   (mk_buffer (Block [97; 98; 99; 0; 0; 0; 0; 0; 0]) 3 8 false)).
  { unfold moderate. cbn. lia. }
  split; [exact Hwf |]. split; [exact Hmod |].
  destruct (C5_growth_formula 0 _ Hwf Hmod) as (Hroutine & Hop & _).
  split.
  - exact (proj1 (Hroutine 20 ltac:(cbn; lia))).
  - apply (Hop (Setn 120 20)).
    + split; [unfold op_args; plia | cbn [asked_length]; plia].
    + exact I.
    + cbn. lia.
Defined.

(** *** Termination and [setn] *)

(** C1. The terminator after every operation.  On a Region-backed handle
    (and on a heap-backed one) of capacity 8 set to "abc",
    [setn(h, 'x', 0)] returns with [length == 0] and leaves the ['a'] of
    "abc" at index 0: the byte at index [length] is 97, not 0. *)
Theorem C1_setn_nonpositive_not_terminated :
  let abc := bytes_of_string "abc" in
  (exists h0 h1 h2,
      aml_buffer_pool_init 0 8 = Some h0 /\
      run_op 0 h0 (Sets abc) = Some h1 /\ terminated h1 /\
      run_op 0 h1 (Setn 120 0) = Some h2 /\
      length h2 = 0 /\ data_load h2 (length h2) = Some 97 /\
      ~ terminated h2) /\
  (exists h0 h1 h2,
      aml_buffer_init 0 8 = Some h0 /\
      run_op 0 h0 (Sets abc) = Some h1 /\ terminated h1 /\
      run_op 0 h1 (Setn 120 0) = Some h2 /\
      length h2 = 0 /\ data_load h2 (length h2) = Some 97 /\
      ~ terminated h2).
Proof.
  cbv zeta. split.
  - eexists. eexists. eexists.
    split; [vm_compute; reflexivity |].
    split; [vm_compute; reflexivity |].
    split; [reflexivity |].
    split; [vm_compute; reflexivity |].
    split; [reflexivity |].
    split; [reflexivity |].
    unfold terminated. cbn. discriminate.
  - eexists. eexists. eexists.
    split; [vm_compute; reflexivity |].
    split; [vm_compute; reflexivity |].
    split; [reflexivity |].
    split; [vm_compute; reflexivity |].
    split; [reflexivity |].
    split; [reflexivity |].
    unfold terminated. cbn. discriminate.
Qed.

(** *** Content *)

Lemma firstn_upd_below (a : list Z) (i k : nat) (v : Z) :
  (k <= i)%nat -> firstn k (upd a i v) = firstn k a.
Proof.
  revert i k. induction a as [| x a IH]; intros [| i] [| k] H;
    cbn [upd firstn]; try reflexivity; try lia.
  f_equal. apply IH. lia.
Qed.

Lemma skipn_upd_above (a : list Z) (i k : nat) (v : Z) :
  (i < k)%nat -> skipn k (upd a i v) = skipn k a.
Proof.
  revert i k. induction a as [| x a IH]; intros [| i] [| k] H;
    cbn [upd skipn]; try reflexivity; try lia.
  apply IH. lia.
Qed.

Lemma firstn_succ_upd (a : list Z) (i : nat) (v : Z) :
  (i < List.length a)%nat -> firstn (S i) (upd a i v) = firstn i a ++ [v].
Proof.
  revert i. induction a as [| x a IH]; intros [| i] H;
    cbn [List.length] in H; try lia.
  - reflexivity.
  - cbn [upd firstn app]. f_equal. apply IH. lia.
Qed.

Lemma firstn_exact (l1 l2 : list Z) (n : nat) :
  n = List.length l1 -> firstn n (l1 ++ l2) = l1.
Proof.
  intros ->. rewrite firstn_app, Nat.sub_diag, firstn_all. cbn [firstn].
  apply app_nil_r.
Qed.

Lemma firstn_repeat_le (x : Z) (k n : nat) :
  (k <= n)%nat -> firstn k (repeat x n) = repeat x k.
Proof.
  revert n. induction k as [| k IH]; intros [| n] H; try reflexivity; try lia.
  cbn [repeat firstn]. f_equal. apply IH. lia.
Qed.

Lemma store_list_content (vs : list Z) :
  forall b l s p off,
    0 <= off ->
    off + Z.of_nat (List.length vs) <= Z.of_nat (List.length b) ->
    data_store_list (mk_buffer (Block b) l s p) off vs
    = Some (mk_buffer
              (Block (firstn (Z.to_nat off) b ++ vs
                      ++ skipn (Z.to_nat off + List.length vs) b)) l s p).
Proof.
  induction vs as [| v vs IH]; intros b l s p off Hoff Hfit.
  - cbn [data_store_list List.length app]. rewrite Nat.add_0_r.
    rewrite firstn_skipn. reflexivity.
  - cbn [data_store_list List.length] in *.
    rewrite data_store_block by lia.
    rewrite IH by (rewrite ?upd_length; lia).
    replace (Z.to_nat (off + 1)) with (S (Z.to_nat off)) by lia.
    rewrite firstn_succ_upd by lia.
    rewrite skipn_upd_above by lia.
    rewrite <- app_assoc. cbn [app].
    replace (S (Z.to_nat off) + List.length vs)%nat
      with (Z.to_nat off + S (List.length vs))%nat by lia.
    reflexivity.
Qed.

Lemma memcpy_prefix (dst src b : list Z) (n : Z) (k : nat) :
  memcpy dst src n = Some b -> (k <= Z.to_nat n)%nat ->
  firstn k b = firstn k src.
Proof.
  unfold memcpy.
  destruct ((n <=? Z.of_nat (List.length dst))
            && (n <=? Z.of_nat (List.length src))) eqn:E; [| discriminate].
  apply andb_prop in E. destruct E as [_ E]. apply Z.leb_le in E.
  intros H Hk. injection H as <-.
  rewrite firstn_app, firstn_firstn, length_firstn.
  replace (Nat.min k (Z.to_nat n)) with k by lia.
  replace (k - Nat.min (Z.to_nat n) (List.length src))%nat with 0%nat by lia.
  cbn [firstn]. apply app_nil_r.
Qed.

(** A store at or above [k] keeps the first [k] bytes. *)
Lemma data_store_prefix (h h' : aml_buffer_t) (i v : Z) (k : nat) :
  data_store h i v = Some h' ->
  (data h = Sentinel -> k = 0%nat) ->
  (k <= Z.to_nat i)%nat ->
  firstn k (data_bytes h') = firstn k (data_bytes h).
Proof.
  intros Hst Hsent Hk.
  apply data_store_inv in Hst. destruct Hst as (_ & _ & _ & _ & Hd).
  unfold data_bytes.
  destruct (data h) as [| b].
  - rewrite (Hsent eq_refl). reflexivity.
  - destruct Hd as [-> _]. apply firstn_upd_below. exact Hk.
Qed.

(** Growth keeps the content. *)
Lemma grow_contents (junk : Z) (h : aml_buffer_t) (req : Z) :
  wf h -> moderate h -> size h < req <= 2 ^ 62 ->
  exists b,
    _aml_buffer_grow junk h req
    = Some (mk_buffer (Block b) (length h) (grown h req) (pool h)) /\
    Z.of_nat (List.length b) = grown h req + 1 /\
    firstn (Z.to_nat (length h)) b = contents h.
Proof.
  intros (Hl & Hs & Hm & Hsent) Hmod Hreq. unfold moderate in Hmod.
  destruct (grown_len h req) as (E1 & E2 & E3); [lia | lia |].
  unfold _aml_buffer_grow, contents. rewrite E1, E2.
  rewrite (sz_small (length h + 1)) by plia.
  destruct (pool h) eqn:Hp; cbn [negb].
  - destruct (Z.eqb_spec (length h) 0) as [E0 | E0].
    + eexists. split; [reflexivity |].
      split; [apply pool_alloc_length; lia |].
      rewrite E0. reflexivity.
    + destruct (memcpy_ok (aml_pool_alloc junk (grown h req + 1))
                  (data_bytes h) (length h + 1)) as (b & Hmc & Hb).
      * rewrite pool_alloc_length by lia. lia.
      * rewrite data_bytes_span. lia.
      * rewrite Hmc. exists b. split; [reflexivity |].
        split; [rewrite Hb; apply pool_alloc_length; lia |].
        apply (memcpy_prefix _ _ _ _ _ Hmc). lia.
  - destruct (memcpy_ok (aml_malloc junk (grown h req + 1))
                (data_bytes h) (length h + 1)) as (b & Hmc & Hb).
    + rewrite malloc_length by lia. lia.
    + rewrite data_bytes_span. lia.
    + rewrite Hmc.
      assert (Hfree : (if size h =? 0 then Some tt else free_data h) = Some tt).
      { destruct (Z.eqb_spec (size h) 0) as [E0 | E0]; [reflexivity |].
        unfold free_data. destruct (data h); [| reflexivity].
        exfalso. apply E0. apply Hsent. reflexivity. }
      rewrite Hfree. exists b. split; [reflexivity |].
      split; [rewrite Hb; apply malloc_length; lia |].
      apply (memcpy_prefix _ _ _ _ _ Hmc). lia.
Qed.

(** Room for [req] bytes, made by [_aml_buffer_grow] if it is missing:
    the storage is a block that starts with the content. *)
Lemma room_grow (junk : Z) (h : aml_buffer_t) (req : Z) :
  wf h -> moderate h -> 0 < req <= 2 ^ 62 ->
  exists b cap,
    (if size h <? req then _aml_buffer_grow junk h req else Some h)
    = Some (mk_buffer (Block b) (length h) cap (pool h)) /\
    req <= cap < 2 ^ 63 /\
    cap + 1 <= Z.of_nat (List.length b) < 2 ^ 64 /\
    firstn (Z.to_nat (length h)) b = contents h.
Proof.
  intros Hwf Hmod Hreq.
  destruct (Z.ltb_spec (size h) req) as [Hlt | Hge].
  - destruct (grow_contents junk h req Hwf Hmod) as (b & -> & Hb & Hpre);
      [lia |].
    destruct Hwf as (Hl & Hs & Hm & Hsent). unfold moderate in Hmod.
    destruct (grown_len h req) as (_ & _ & E3); [lia | lia |].
    exists b, (grown h req). split; [reflexivity |].
    split; [plia |]. split; [plia | exact Hpre].
  - destruct (wf_block h Hwf) as (b & Hh & Hb); [lia |].
    exists b, (size h). split; [f_equal; exact Hh |].
    unfold moderate in Hmod. split; [lia |]. split; [lia |].
    unfold contents, data_bytes. rewrite Hh. reflexivity.
Qed.

(** The same through [_aml_buffer_alloc], which does not copy: the block
    is new and not written, or the one the handle had. *)
Lemma room_alloc (junk : Z) (h : aml_buffer_t) (req : Z) :
  wf h -> moderate h -> 0 < req <= 2 ^ 62 ->
  exists b cap,
    (if size h <? req then _aml_buffer_alloc junk h req else Some h)
    = Some (mk_buffer (Block b) (length h) cap (pool h)) /\
    req <= cap < 2 ^ 63 /\
    cap + 1 <= Z.of_nat (List.length b) < 2 ^ 64 /\
    (size h < req -> b = repeat junk (Z.to_nat (grown h req + 1))) /\
    (req <= size h -> data h = Block b /\ cap = size h).
Proof.
  intros Hwf Hmod Hreq.
  destruct (Z.ltb_spec (size h) req) as [Hlt | Hge].
  - pose proof Hwf as (Hl & Hs & Hm & Hsent). unfold moderate in Hmod.
    destruct (grown_len h req) as (E1 & E2 & E3); [lia | lia |].
    assert (Hfree : (if size h =? 0 then Some tt else free_data h) = Some tt).
    { destruct (Z.eqb_spec (size h) 0) as [E0 | E0]; [reflexivity |].
      unfold free_data. destruct (data h); [| reflexivity].
      exfalso. apply E0. apply Hsent. reflexivity. }
    exists (repeat junk (Z.to_nat (grown h req + 1))), (grown h req).
    split.
    + unfold _aml_buffer_alloc. rewrite E1, E2, Hfree.
      unfold aml_malloc, aml_pool_alloc. destruct (pool h); reflexivity.
    + rewrite repeat_length.
      split; [plia |]. split; [plia |]. split; [reflexivity | lia].
  - destruct (wf_block h Hwf) as (b & Hh & Hb); [lia |].
    exists b, (size h). split; [f_equal; exact Hh |].
    unfold moderate in Hmod. split; [lia |]. split; [lia |].
    split; [lia |]. intros _. rewrite Hh. split; reflexivity.
Qed.


(** X14. [aml_buffer_appendc] appends: on a well-formed handle the call
    succeeds, the content is the old content followed by the character, the
    length is one more and the handle is terminated, whether or not the
    storage had to grow. *)
Theorem appendc_contents (junk : Z) (h : aml_buffer_t) (ch : Z) :
  wf h -> moderate h -> length h + 1 <= 2 ^ 62 ->
  exists h',
    aml_buffer_appendc junk h ch = Some h' /\
    contents h' = contents h ++ [ch] /\
    length h' = length h + 1 /\ good h'.
Proof.
  intros Hwf Hmod Hfit.
  destruct (appendc_good junk h ch Hwf Hmod Hfit) as (h' & E & G).
  exists h'. split; [exact E |].
  pose proof Hwf as (Hl & _).
  unfold aml_buffer_appendc in E.
  rewrite (sz_small (length h + 1)) in E by plia.
  destruct (room_grow junk h (length h + 1) Hwf Hmod)
    as (b & cap & R & Hcap & Hb & Hpre); [lia |].
  rewrite R in E. cbn [length size pool data] in E.
  rewrite data_store_block in E by lia.
  rewrite data_store_block in E by (rewrite upd_length; lia).
  cbn [length size pool data] in E.
  rewrite (sz_small (length h + 1)) in E by plia.
  injection E as <-.
  split; [| split; [reflexivity | exact G]].
  unfold contents at 1. cbn [length data_bytes data].
  replace (Z.to_nat (length h + 1)) with (S (Z.to_nat (length h))) by lia.
  rewrite firstn_upd_below by lia.
  rewrite firstn_succ_upd by lia.
  rewrite Hpre. reflexivity.
Qed.

Lemma appendc_contents_witness :
  let h := mk_buffer (Block [97; 98; 0]) 2 2 false in
  (wf h /\ moderate h /\ length h + 1 <= 2 ^ 62) /\
  exists h',
    aml_buffer_appendc 0 h 99 = Some h' /\
    contents h' = contents h ++ [99] /\
    length h' = length h + 1 /\ good h'.
Proof.
  cbv zeta.
  assert (H : wf (mk_buffer (Block [97; 98; 0]) 2 2 false) /\
              moderate (mk_buffer (Block [97; 98; 0]) 2 2 false) /\
              length (mk_buffer (Block [97; 98; 0]) 2 2 false) + 1 <= 2 ^ 62).
  { unfold wf, moderate, data_span. cbn.
    repeat split; try lia; discriminate. }
  split; [exact H |].
  destruct H as (Hw & Hm & Hf).
  exact (appendc_contents 0 _ 99 Hw Hm Hf).
Defined.

(** X15. [aml_buffer_appendn] and [aml_buffer_setn] with a positive
    count: the first appends [n] copies of the character to the content,
    the second replaces the content by [n] copies of it. *)
Theorem appendn_contents (junk : Z) (h : aml_buffer_t) (ch n : Z) :
  wf h -> moderate h -> 0 < n -> length h + n <= 2 ^ 62 ->
  (exists h',
      aml_buffer_appendn junk h ch n = Some h' /\
      contents h' = contents h ++ repeat ch (Z.to_nat n) /\
      length h' = length h + n /\ good h') /\
  (exists h',
      aml_buffer_setn junk h ch n = Some h' /\
      contents h' = repeat ch (Z.to_nat n) /\
      length h' = n /\ good h').
Proof.
  assert (Happend : forall h,
             wf h -> moderate h -> 0 < n -> length h + n <= 2 ^ 62 ->
             exists h',
               aml_buffer_appendn junk h ch n = Some h' /\
               contents h' = contents h ++ repeat ch (Z.to_nat n) /\
               length h' = length h + n /\ good h').
  { clear h. intros h Hwf Hmod Hn Hfit.
    destruct (appendn_good junk h ch n Hwf Hmod Hn Hfit) as (h' & E & G).
    exists h'. split; [exact E |].
    pose proof Hwf as (Hl & _).
    unfold aml_buffer_appendn in E.
    rewrite (proj2 (Z.leb_gt n 0)) in E by lia.
    rewrite (sz_small (length h + n)) in E by plia.
    destruct (room_grow junk h (length h + n) Hwf Hmod)
      as (b & cap & R & Hcap & Hb & Hpre); [lia |].
    rewrite R in E. cbn [length size pool data] in E.
    rewrite store_list_content in E by (rewrite ?repeat_length; lia).
    assert (Hlen : List.length
                     (firstn (Z.to_nat (length h)) b
                      ++ repeat ch (Z.to_nat n)
                      ++ skipn (Z.to_nat (length h)
                                + List.length (repeat ch (Z.to_nat n))) b)
                   = List.length b).
    { rewrite !length_app, length_firstn, length_skipn, repeat_length. lia. }
    rewrite data_store_block in E by (rewrite Hlen; lia).
    cbn [length size pool data] in E.
    rewrite (sz_small (length h + n)) in E by plia.
    injection E as <-.
    split; [| split; [reflexivity | exact G]].
    unfold contents at 1. cbn [length data_bytes data].
    rewrite firstn_upd_below by lia.
    rewrite app_assoc, Hpre.
    apply firstn_exact.
    rewrite length_app, repeat_length, <- Hpre, length_firstn. lia. }
  intros Hwf Hmod Hn Hfit. split; [apply Happend; assumption |].
  destruct (rewind_wf h Hwf Hmod) as (Hw0 & Hm0).
  pose proof Hwf as (Hl & _).
  destruct (Happend _ Hw0 Hm0 Hn) as (h' & E & Hc & Hlen & G).
  { cbn [length]. lia. }
  exists h'. split; [exact E |].
  unfold contents at 2 in Hc. cbn [length firstn Z.to_nat app] in Hc, Hlen.
  split; [exact Hc |]. split; [lia | exact G].
Qed.

Lemma appendn_contents_witness :
  let h := mk_buffer (Block [97; 98; 0]) 2 2 false in
  (exists h',
      aml_buffer_appendn 0 h 120 3 = Some h' /\
      contents h' = contents h ++ repeat 120 (Z.to_nat 3) /\
      length h' = length h + 3 /\ good h') /\
  (exists h',
      aml_buffer_setn 0 h 120 3 = Some h' /\
      contents h' = repeat 120 (Z.to_nat 3) /\
      length h' = 3 /\ good h').
Proof.
  cbv zeta.
  apply (appendn_contents 0 (mk_buffer (Block [97; 98; 0]) 2 2 false) 120 3).
  - unfold wf, data_span. cbn. repeat split; try lia; discriminate.
  - unfold moderate. cbn. lia.
  - lia.
  - cbn. lia.
Defined.


(** X16. [aml_buffer_set] replaces the content: on a well-formed handle
    the call succeeds and the content is then exactly the bytes given, with
    their number as length and the terminator after them, whatever the
    handle held before. *)
Theorem set_contents (junk : Z) (h : aml_buffer_t) (src : list Z) :
  wf h -> moderate h -> Z.of_nat (List.length src) <= 2 ^ 62 ->
  exists h',
    aml_buffer_set junk h src = Some h' /\
    contents h' = src /\
    length h' = Z.of_nat (List.length src) /\ good h'.
Proof.
  intros Hwf Hmod Hfit. unfold aml_buffer_set.
  destruct (set_good junk h src Hwf Hmod Hfit) as (h' & E & G).
  exists h'. split; [exact E |].
  pose proof Hwf as (Hl & _).
  unfold _aml_buffer_set in E.
  destruct src as [| c src].
  - cbn [List.length Z.of_nat data_store_list] in E.
    replace (size h <? 0) with false in E
      by (symmetry; apply Z.ltb_ge; lia).
    apply data_store_inv in E. destruct E as (_ & El & _).
    cbn [length] in El. unfold contents. rewrite El.
    split; [reflexivity | split; [reflexivity | exact G]].
  - remember (Z.of_nat (List.length (c :: src))) as n eqn:En.
    assert (Hn : 0 < n) by (subst n; cbn [List.length]; lia).
    destruct (room_alloc junk h n Hwf Hmod)
      as (b & cap & R & Hcap & Hb & _); [lia |].
    rewrite R in E.
    rewrite store_list_content in E by (rewrite <- ?En; lia).
    cbn [Z.to_nat firstn Nat.add] in E.
    change ([] ++ (c :: src) ++ skipn (List.length (c :: src)) b)
      with ((c :: src) ++ skipn (List.length (c :: src)) b) in E.
    remember ((c :: src) ++ skipn (List.length (c :: src)) b) as blk
      eqn:Eblk.
    assert (Hlen : List.length blk = List.length b).
    { subst blk. rewrite length_app, length_skipn. lia. }
    cbn [data length size pool] in E.
    rewrite data_store_block in E by (rewrite Hlen; lia).
    injection E as <-.
    split; [| split; [reflexivity | exact G]].
    unfold contents. cbn [length data_bytes data].
    rewrite firstn_upd_below by lia.
    subst blk. apply firstn_exact. subst n. lia.
Qed.

Lemma set_contents_witness :
  let h := mk_buffer (Block [97; 98; 0]) 2 2 false in
  exists h',
    aml_buffer_set 0 h [104; 105; 33] = Some h' /\
    contents h' = [104; 105; 33] /\
    length h' = Z.of_nat (List.length [104; 105; 33]) /\ good h'.
Proof.
  cbv zeta.
  apply (set_contents 0 (mk_buffer (Block [97; 98; 0]) 2 2 false)
           [104; 105; 33]).
  - unfold wf, data_span. cbn. repeat split; try lia; discriminate.
  - unfold moderate. cbn. lia.
  - cbn. lia.
Defined.

(** X17. [aml_buffer_shrink_by] drops bytes from the end: the content is
    the old content without its last [n] bytes, and the empty content when
    [n] is the length or more; the capacity is kept. *)
Theorem shrink_by_contents (h : aml_buffer_t) (n : Z) :
  wf h -> moderate h -> 0 <= n ->
  exists h',
    aml_buffer_shrink_by h n = Some h' /\
    contents h' = firstn (Z.to_nat (length h - n)) (contents h) /\
    length h' = Z.max 0 (length h - n) /\
    size h' = size h /\ good h'.
Proof.
  intros Hwf Hmod Hn. unfold aml_buffer_shrink_by.
  pose proof Hwf as (Hl & Hs & Hm & Hsent). unfold moderate in Hmod.
  set (l := if n <? length h then sz (length h - n) else 0).
  assert (El : l = Z.max 0 (length h - n)).
  { subst l. destruct (Z.ltb_spec n (length h)); [| lia].
    rewrite sz_small by plia. lia. }
  destruct (finish_total h l Hwf Hmod) as (h' & Hst & Hg & Elen & Esz & _);
    [lia |].
  exists h'. split; [exact Hst |].
  split; [| split; [lia | split; assumption]].
  unfold contents. rewrite Elen.
  rewrite (data_store_prefix _ _ _ _ (Z.to_nat l) Hst).
  - cbn [data_bytes data]. rewrite firstn_firstn.
    replace (Nat.min (Z.to_nat (length h - n)) (Z.to_nat (length h)))
      with (Z.to_nat l) by lia.
    unfold data_bytes. reflexivity.
  - cbn [data]. intros Hd. specialize (Hsent Hd). lia.
  - lia.
Qed.

Lemma shrink_by_contents_witness :
  let h := mk_buffer (Block [97; 98; 99; 0]) 3 3 false in
  exists h',
    aml_buffer_shrink_by h 2 = Some h' /\
    contents h' = firstn (Z.to_nat (length h - 2)) (contents h) /\
    length h' = Z.max 0 (length h - 2) /\
    size h' = size h /\ good h'.
Proof.
  cbv zeta.
  apply (shrink_by_contents (mk_buffer (Block [97; 98; 99; 0]) 3 3 false) 2).
  - unfold wf, data_span. cbn. repeat split; try lia; discriminate.
  - unfold moderate. cbn. lia.
  - lia.
Defined.


Lemma maybe_grow_prefix (junk : Z) (h : aml_buffer_t) (req : Z) :
  wf h -> moderate h -> 0 <= req <= 2 ^ 62 ->
  exists hg,
    (if size h <? req then _aml_buffer_grow junk h req else Some h) = Some hg /\
    wf hg /\ moderate hg /\ req <= size hg /\
    length hg = length h /\ pool hg = pool h /\
    firstn (Z.to_nat (length h)) (data_bytes hg) = contents h.
Proof.
  intros Hwf Hmod Hreq.
  destruct (maybe_grow junk h req Hwf Hmod Hreq)
    as (hg & E & Hwg & Hmg & Hr & El & Ep).
  exists hg. split; [exact E |].
  split; [exact Hwg |]. split; [exact Hmg |]. split; [exact Hr |].
  split; [exact El |]. split; [exact Ep |].
  destruct (Z.ltb_spec (size h) req) as [Hlt | Hge].
  - destruct (grow_contents junk h req Hwf Hmod) as (b & E' & _ & Hpre);
      [lia |].
    rewrite E' in E. injection E as <-. exact Hpre.
  - injection E as <-. reflexivity.
Qed.

(** X18. [aml_buffer_resize] keeps what fits: the call succeeds, the
    length is the one asked for, and the bytes of the old content below the
    new length are unchanged, also when the storage had to grow. *)
Theorem resize_contents (junk : Z) (h : aml_buffer_t) (len : Z) :
  wf h -> moderate h -> 0 <= len <= 2 ^ 62 ->
  exists h',
    aml_buffer_resize junk h len = Some h' /\
    length h' = len /\
    firstn (Z.to_nat (Z.min (length h) len)) (contents h')
    = firstn (Z.to_nat (Z.min (length h) len)) (contents h) /\
    good h'.
Proof.
  intros Hwf Hmod Hlen. unfold aml_buffer_resize.
  pose proof Hwf as (Hl & _).
  destruct (maybe_grow_prefix junk h len Hwf Hmod Hlen)
    as (hg & -> & Hwg & Hmg & Hreq & El & _ & Hpre).
  destruct (finish_total hg len Hwg Hmg) as (h' & Hst & Hg & Elen & _);
    [lia |].
  exists h'. split; [exact Hst |]. split; [exact Elen |].
  split; [| exact Hg].
  set (k := Z.to_nat (Z.min (length h) len)).
  unfold contents at 1. rewrite Elen, firstn_firstn.
  replace (Nat.min k (Z.to_nat len)) with k by lia.
  rewrite (data_store_prefix _ _ _ _ k Hst).
  - change (data_bytes (mk_buffer (data hg) len (size hg) (pool hg)))
      with (data_bytes hg).
    rewrite <- Hpre, firstn_firstn.
    replace (Nat.min k (Z.to_nat (length h))) with k by lia.
    reflexivity.
  - cbn [data]. intros Hd. destruct Hwg as (_ & _ & _ & Hsent).
    specialize (Hsent Hd). lia.
  - lia.
Qed.

Lemma resize_contents_witness :
  let h := mk_buffer (Block [97; 98; 99; 0]) 3 3 false in
  exists h',
    aml_buffer_resize 0 h 10 = Some h' /\
    length h' = 10 /\
    firstn (Z.to_nat (Z.min (length h) 10)) (contents h')
    = firstn (Z.to_nat (Z.min (length h) 10)) (contents h) /\
    good h'.
Proof.
  cbv zeta.
  apply (resize_contents 0 (mk_buffer (Block [97; 98; 99; 0]) 3 3 false) 10).
  - unfold wf, data_span. cbn. repeat split; try lia; discriminate.
  - unfold moderate. cbn. lia.
  - cbn. lia.
Defined.

(** X19. [aml_buffer_alloc] does not keep the content when it has to grow:
    the storage is then a new allocation that was not written, apart from
    the terminator.  When the capacity is enough the storage is kept, and
    the bytes below the new length are unchanged. *)
Theorem alloc_contents (junk : Z) (h : aml_buffer_t) (len : Z) :
  wf h -> moderate h -> 0 <= len <= 2 ^ 62 ->
  exists h',
    aml_buffer_alloc junk h len = Some h' /\
    length h' = len /\ good h' /\
    (size h < len -> contents h' = repeat junk (Z.to_nat len)) /\
    (len <= size h ->
     size h' = size h /\
     firstn (Z.to_nat (Z.min (length h) len)) (contents h')
     = firstn (Z.to_nat (Z.min (length h) len)) (contents h)).
Proof.
  intros Hwf Hmod Hlen.
  destruct (alloc_good junk h len Hwf Hmod Hlen) as (h' & E & G).
  exists h'. split; [exact E |].
  pose proof Hwf as (Hl & Hs & Hm & Hsent).
  unfold aml_buffer_alloc in E.
  destruct (Z.eq_dec len 0) as [-> | Hne].
  - replace (size h <? 0) with false in E
      by (symmetry; apply Z.ltb_ge; lia).
    apply data_store_inv in E.
    destruct E as (_ & El & _ & _ & Hd). cbn [length data size] in El, Hd.
    split; [exact El |]. split; [exact G |].
    split; [intros; lia |]. intros _.
    split; [destruct (data h); destruct Hd as [_ Hd]; [| exact Hd];
            rewrite Hd, (Hsent eq_refl); reflexivity |].
    replace (Z.min (length h) 0) with 0 by lia. reflexivity.
  - destruct (room_alloc junk h len Hwf Hmod)
      as (b & cap & R & Hcap & Hb & Hnew & Hkeep); [lia |].
    rewrite R in E. cbn [data length size pool] in E.
    rewrite data_store_block in E by lia.
    injection E as <-.
    split; [reflexivity |]. split; [exact G |].
    unfold contents at 1 2. cbn [length data_bytes data size].
    rewrite firstn_upd_below by lia.
    split.
    + intros Hlt. rewrite (Hnew Hlt).
      apply firstn_repeat_le.
      unfold moderate in Hmod.
      destruct (grown_len h len) as (_ & _ & E3); [lia | lia |]. lia.
    + intros Hle. destruct (Hkeep Hle) as (Hd & ->).
      split; [reflexivity |].
      unfold contents, data_bytes. rewrite Hd, !firstn_firstn.
      f_equal. lia.
Qed.

Lemma alloc_contents_witness :
  let h := mk_buffer (Block [97; 98; 99; 0]) 3 3 false in
  exists h',
    aml_buffer_alloc 7 h 10 = Some h' /\
    length h' = 10 /\ good h' /\
    (size h < 10 -> contents h' = repeat 7 (Z.to_nat 10)) /\
    (10 <= size h ->
     size h' = size h /\
     firstn (Z.to_nat (Z.min (length h) 10)) (contents h')
     = firstn (Z.to_nat (Z.min (length h) 10)) (contents h)).
Proof.
  cbv zeta.
  apply (alloc_contents 7 (mk_buffer (Block [97; 98; 99; 0]) 3 3 false) 10).
  - unfold wf, data_span. cbn. repeat split; try lia; discriminate.
  - unfold moderate. cbn. lia.
  - cbn. lia.
Defined.


Lemma terminated_nth (h : aml_buffer_t) :
  terminated h -> nth (Z.to_nat (length h)) (data_bytes h) 0 = 0.
Proof.
  unfold terminated, data_load.
  destruct ((0 <=? length h) && (length h <? data_span h)); [| discriminate].
  intros H. injection H as H. exact H.
Qed.

(** X20. [aml_buffer_detach] on a well-formed, terminated handle: the
    storage handed over starts with the content, followed by the
    terminator, and the length reported is the length of the content; the
    handle is left empty, with capacity 0 and no storage of its own, and
    it is well formed and terminated, so it can be used again. *)
Theorem detach_contents (junk : Z) (h : aml_buffer_t) :
  wf h -> moderate h -> terminated h ->
  exists out h',
    aml_buffer_detach junk h = Some (out, length h, h') /\
    firstn (Z.to_nat (length h)) out = contents h /\
    nth (Z.to_nat (length h)) out 0 = 0 /\
    data h' = Sentinel /\ length h' = 0 /\ size h' = 0 /\
    pool h' = pool h /\ good h'.
Proof.
  intros Hwf Hmod Hterm.
  pose proof (terminated_nth h Hterm) as Hnul.
  assert (Hempty : good (mk_buffer Sentinel 0 0 (pool h))).
  { unfold good, wf, moderate, terminated. cbn. repeat split; lia. }
  unfold aml_buffer_detach, to_sentinel.
  change (data_store (mk_buffer Sentinel 0 0 (pool h)) 0 0)
    with (Some (mk_buffer Sentinel 0 0 (pool h))).
  destruct (pool h) eqn:Hp.
  - eexists. eexists. split; [reflexivity |].
    split; [reflexivity |]. split; [exact Hnul |].
    cbn [data length size pool].
    split; [reflexivity |]. split; [reflexivity |].
    split; [reflexivity |]. split; [reflexivity | exact Hempty].
  - destruct (data h) as [| b] eqn:Hd.
    + destruct Hwf as (Hl & Hs & Hm & Hsent). specialize (Hsent Hd).
      assert (El : length h = 0) by lia.
      unfold contents. rewrite El. cbn [Z.ltb Z.compare].
      eexists. eexists. split; [reflexivity |].
      cbn [data length size pool].
      split; [reflexivity |]. split; [reflexivity |].
      split; [reflexivity |]. split; [reflexivity |].
      split; [reflexivity |]. split; [reflexivity | exact Hempty].
    + eexists. eexists. split; [reflexivity |].
      unfold contents, data_bytes in *. rewrite Hd in *.
      split; [reflexivity |]. split; [exact Hnul |].
      cbn [data length size pool].
      split; [reflexivity |]. split; [reflexivity |].
      split; [reflexivity |]. split; [reflexivity | exact Hempty].
Qed.

Lemma detach_contents_witness :
  let h := mk_buffer (Block [97; 98; 0]) 2 2 false in
  exists out h',
    aml_buffer_detach 0 h = Some (out, length h, h') /\
    firstn (Z.to_nat (length h)) out = contents h /\
    nth (Z.to_nat (length h)) out 0 = 0 /\
    data h' = Sentinel /\ length h' = 0 /\ size h' = 0 /\
    pool h' = pool h /\ good h'.
Proof.
  cbv zeta.
  apply (detach_contents 0 (mk_buffer (Block [97; 98; 0]) 2 2 false)).
  - unfold wf, data_span. cbn. repeat split; try lia; discriminate.
  - unfold moderate. cbn. lia.
  - reflexivity.
Defined.

(** X21. [aml_buffer_data] returns a terminated string: on any
    well-formed handle, terminated or not, it stores the terminator at the
    length and leaves the content, the length and the capacity as they
    were.  So it is after [aml_buffer_setn] with a count of 0 or less,
    which sets the length to 0 without writing the terminator. *)
Theorem data_terminates (junk : Z) (h : aml_buffer_t) :
  wf h -> moderate h ->
  (exists h',
      aml_buffer_data h = Some h' /\ terminated h' /\
      contents h' = contents h /\
      length h' = length h /\ size h' = size h /\ wf h') /\
  (forall ch n, n <= 0 ->
     exists h1 h2,
       aml_buffer_setn junk h ch n = Some h1 /\
       aml_buffer_data h1 = Some h2 /\
       terminated h2 /\ length h2 = 0 /\ size h2 = size h).
Proof.
  assert (Hdata : forall h,
             wf h -> moderate h ->
             exists h',
               aml_buffer_data h = Some h' /\ terminated h' /\
               contents h' = contents h /\
               length h' = length h /\ size h' = size h /\ wf h').
  { clear h. intros h Hwf Hmod.
    pose proof Hwf as (Hl & _ & _ & Hsent).
    destruct (finish_total h (length h) Hwf Hmod)
      as (h' & Hst & (Hw & _ & Ht) & El & Es & _); [lia |].
    assert (Heta : mk_buffer (data h) (length h) (size h) (pool h) = h)
      by (destruct h; reflexivity).
    rewrite Heta in Hst.
    exists h'. unfold aml_buffer_data. split; [exact Hst |].
    split; [exact Ht |].
    split; [| split; [exact El | split; [exact Es | exact Hw]]].
    unfold contents. rewrite El.
    apply (data_store_prefix _ _ _ _ _ Hst); [| lia].
    intros Hd. specialize (Hsent Hd). lia. }
  intros Hwf Hmod. split; [apply Hdata; assumption |].
  intros ch n Hn.
  destruct (rewind_wf h Hwf Hmod) as (Hw0 & Hm0).
  destruct (Hdata _ Hw0 Hm0) as (h2 & E & Ht & _ & El & Es & _).
  exists (mk_buffer (data h) 0 (size h) (pool h)), h2.
  split; [apply appendn_nonpositive; exact Hn |].
  split; [exact E |]. split; [exact Ht |]. split; assumption.
Qed.

Lemma data_terminates_witness :
  let h := mk_buffer (Block [97; 98; 99; 0]) 3 3 false in
  exists h1 h2,
    aml_buffer_setn 0 h 120 0 = Some h1 /\
    aml_buffer_data h1 = Some h2 /\
    terminated h2 /\ length h2 = 0 /\ size h2 = size h.
Proof.
  cbv zeta.
  refine (proj2 (data_terminates 0
                   (mk_buffer (Block [97; 98; 99; 0]) 3 3 false) _ _)
            120 0 _).
  - unfold wf, data_span. cbn. repeat split; try lia; discriminate.
  - unfold moderate. cbn. lia.
  - lia.
Defined.

(** X22. [aml_buffer_reset] empties the handle and bounds its capacity:
    the content is empty afterwards; a handle that owns its storage and
    has a capacity above the bound gets a new storage of the bound and one
    byte, so that its capacity is the smaller of the old capacity and the
    bound; a Region-backed handle keeps its capacity whatever the bound. *)
Theorem reset_outcome (junk : Z) (h : aml_buffer_t) (max_size : Z) :
  wf h -> moderate h -> 0 <= max_size ->
  exists h',
    aml_buffer_reset junk h max_size = Some h' /\
    length h' = 0 /\ contents h' = [] /\
    size h' = (if pool h then size h else Z.min (size h) max_size) /\
    data_span h'
    = (if pool h then data_span h
       else if max_size <? size h then max_size + 1 else data_span h) /\
    good h'.
Proof.
  intros Hwf Hmod Hmax.
  destruct (reset_good junk h max_size Hwf Hmod Hmax) as (h' & E & G).
  exists h'. split; [exact E |].
  pose proof Hwf as (Hl & Hs & Hm & Hsent). unfold moderate in Hmod.
  unfold aml_buffer_reset in E.
  assert (Hfin : forall h1,
             data_store (mk_buffer (data h1) 0 (size h1) (pool h1)) 0 0
             = Some h' ->
             (data h1 = Sentinel -> size h1 = 0) ->
             length h' = 0 /\ contents h' = [] /\ size h' = size h1 /\
             data_span h' = data_span h1).
  { intros h1 Hst Hs1. apply data_store_inv in Hst.
    destruct Hst as (_ & El & _ & Hspan & Hd).
    cbn [length data size] in El, Hd.
    unfold contents. rewrite El.
    split; [reflexivity |]. split; [reflexivity |].
    split; [| exact Hspan].
    destruct (data h1); destruct Hd as [_ Hd]; [| exact Hd].
    rewrite Hd, (Hs1 eq_refl). reflexivity. }
  destruct (Z.ltb_spec max_size (size h)) as [Hlt | Hge].
  - destruct (pool h) eqn:Hp; cbn [negb] in E.
    + destruct (Hfin h E Hsent) as (A & B & C & D). auto.
    + destruct (wf_block h Hwf) as (b & Hh & Hb); [lia |].
      unfold free_data in E. rewrite Hh in E. cbn [data length size pool] in E.
      match type of E with
      | data_store (mk_buffer ?d 0 ?s ?p) 0 0 = _ =>
          destruct (Hfin (mk_buffer d 0 s p) E) as (A & B & C & D);
            [discriminate |]
      end.
      cbn [size] in C. unfold data_span in D at 2. cbn [data] in D.
      rewrite sz_small in D by plia. rewrite malloc_length in D by lia.
      split; [exact A |]. split; [exact B |]. split; [lia |].
      split; [exact D | exact G].
  - destruct (Hfin h E Hsent) as (A & B & C & D).
    split; [exact A |]. split; [exact B |].
    destruct (pool h); split; try lia; split; assumption.
Qed.

Lemma reset_outcome_witness :
  let h := mk_buffer (Block [97; 98; 99; 0]) 3 3 false in
  exists h',
    aml_buffer_reset 0 h 1 = Some h' /\
    length h' = 0 /\ contents h' = [] /\
    size h' = (if pool h then size h else Z.min (size h) 1) /\
    data_span h'
    = (if pool h then data_span h
       else if 1 <? size h then 1 + 1 else data_span h) /\
    good h'.
Proof.
  cbv zeta.
  apply (reset_outcome 0 (mk_buffer (Block [97; 98; 99; 0]) 3 3 false) 1).
  - unfold wf, data_span. cbn. repeat split; try lia; discriminate.
  - unfold moderate. cbn. lia.
  - lia.
Defined.


Lemma append_ualloc_prefix (junk : Z) (h : aml_buffer_t) (len : Z) :
  wf h -> moderate h -> 0 <= len -> length h + len <= 2 ^ 62 ->
  exists h',
    aml_buffer_append_ualloc junk h len = Some h' /\ good h' /\
    length h' = length h + len /\
    firstn (Z.to_nat (length h)) (data_bytes h') = contents h.
Proof.
  intros Hwf Hmod Hlen Hfit. unfold aml_buffer_append_ualloc.
  pose proof Hwf as (Hl & _).
  rewrite (sz_small (len + length h)) by plia.
  destruct (maybe_grow_prefix junk h (len + length h) Hwf Hmod)
    as (hg & -> & Hwg & Hmg & Hreq & Elen & _ & Hpre); [lia |].
  rewrite Elen. rewrite (sz_small (length h + len)) by plia.
  destruct (finish_total hg (length h + len) Hwg Hmg)
    as (h' & Hst & Hg & El & _); [lia |].
  exists h'. split; [exact Hst |]. split; [exact Hg |].
  split; [exact El |].
  rewrite (data_store_prefix _ _ _ _ _ Hst).
  - exact Hpre.
  - cbn [data]. intros Hd. destruct Hwg as (_ & _ & _ & Hsent).
    specialize (Hsent Hd). lia.
  - lia.
Qed.

Lemma round_up_8 (l : Z) :
  0 <= l ->
  8 * ((l + 7) / 8)
  = (if 0 <? Z.land l 7 then l + (8 - Z.land l 7) else l).
Proof.
  intros Hl. change 7 with (Z.ones 3) at 2 3.
  rewrite Z.land_ones by lia. change (2 ^ 3) with 8.
  destruct (Z.ltb_spec 0 (l mod 8)); Z.div_mod_to_equations; lia.
Qed.

(** X23. [aml_buffer_append_alloc] reserves bytes at an offset that is a
    multiple of eight: the content is first filled up to the next multiple
    of eight, the [len] bytes follow, and the bytes of the old content are
    unchanged; [aml_buffer_append_ualloc] reserves them right after the
    content. *)
Theorem append_alloc_aligned (junk : Z) (h : aml_buffer_t) (len : Z) :
  wf h -> moderate h -> 0 <= len -> length h + 7 + len <= 2 ^ 62 ->
  (exists h',
      aml_buffer_append_alloc junk h len = Some h' /\
      length h' = 8 * ((length h + 7) / 8) + len /\
      firstn (Z.to_nat (length h)) (data_bytes h') = contents h /\
      good h') /\
  (exists h',
      aml_buffer_append_ualloc junk h len = Some h' /\
      length h' = length h + len /\
      firstn (Z.to_nat (length h)) (data_bytes h') = contents h /\
      good h').
Proof.
  intros Hwf Hmod Hlen Hfit.
  pose proof Hwf as (Hl & _).
  split.
  - unfold aml_buffer_append_alloc.
    rewrite (round_up_8 (length h)) by lia.
    pose proof (land7_range (length h) (proj1 Hl)) as Hm.
    destruct (Z.ltb_spec 0 (Z.land (length h) 7)) as [Hpos | Hzero].
    + set (m := Z.land (length h) 7) in *.
      rewrite (sz_small (8 - m)) by plia.
      rewrite (sz_small (8 - m + length h)) by plia.
      destruct (maybe_grow_prefix junk h (8 - m + length h) Hwf Hmod)
        as (hg & -> & Hwg & Hmg & Hreq & Elen & _ & Hpre); [plia |].
      rewrite Elen. rewrite (sz_small (length h + (8 - m))) by plia.
      destruct (finish_total hg (length h + (8 - m)) Hwg Hmg)
        as (h1 & Hst & (Hw1 & Hm1 & _) & El1 & _); [lia |].
      rewrite Hst.
      destruct (append_ualloc_prefix junk h1 len Hw1 Hm1 Hlen)
        as (h' & E & Hg & El & Hp1); [rewrite El1; lia |].
      exists h'. split; [exact E |].
      split; [rewrite El, El1; reflexivity |].
      split; [| exact Hg].
      assert (H1 : firstn (Z.to_nat (length h)) (data_bytes h1) = contents h).
      { rewrite (data_store_prefix _ _ _ _ _ Hst).
        - exact Hpre.
        - cbn [data]. intros Hd. destruct Hwg as (_ & _ & _ & Hsent).
          specialize (Hsent Hd). lia.
        - lia. }
      rewrite <- H1.
      unfold contents in Hp1. rewrite El1 in Hp1.
      assert (Hcut : forall x : list Z,
                 firstn (Z.to_nat (length h)) x
                 = firstn (Z.to_nat (length h))
                     (firstn (Z.to_nat (length h + (8 - m))) x)).
      { intros x. rewrite firstn_firstn. f_equal. lia. }
      rewrite (Hcut (data_bytes h')), (Hcut (data_bytes h1)), Hp1.
      reflexivity.
    + destruct (append_ualloc_prefix junk h len Hwf Hmod Hlen)
        as (h' & E & Hg & El & Hp1); [lia |].
      exists h'. split; [exact E |]. split; [exact El |].
      split; assumption.
  - destruct (append_ualloc_prefix junk h len Hwf Hmod Hlen)
      as (h' & E & Hg & El & Hp1); [lia |].
    exists h'. split; [exact E |]. split; [exact El |].
    split; assumption.
Qed.

Lemma append_alloc_aligned_witness :
  let h := mk_buffer (Block [97; 98; 99; 0]) 3 3 false in
  exists h',
    aml_buffer_append_alloc 0 h 4 = Some h' /\
    length h' = 8 * ((length h + 7) / 8) + 4 /\
    firstn (Z.to_nat (length h)) (data_bytes h') = contents h /\
    good h'.
Proof.
  cbv zeta.
  refine (proj1 (append_alloc_aligned 0
                   (mk_buffer (Block [97; 98; 99; 0]) 3 3 false) 4 _ _ _ _)).
  - unfold wf, data_span. cbn. repeat split; try lia; discriminate.
  - unfold moderate. cbn. lia.
  - lia.
  - cbn. lia.
Defined.

End BufferFacts.
